(* ===== verification/_CoqProject ===== *)
-Q . S2P
Prelude.v
Types.v
Float32.v
Queue.v
Input.v
Cli.v
Frames.v
Policy.v
Driver.v
Fifo.v
Lru.v
Report.v
Scenarios.v
Main.v
