(* ===== verification/Prelude.v ===== *)
(** * Page_Replacement: a verification development of page_replacement.c

    The program ([src/Page_Replacement/page_replacement.c]) simulates
    memory-page replacement.  It reads a trace of page ids, replays it
    against a fixed number of frames with one of two policies, FIFO and a
    policy the code calls "LRU" (it evicts the page with the fewest hits
    since it was loaded, see [Lru.v]), and writes one line per reference
    ("HIT" or "PF") and the page-fault rate.

    ** Parts of the program and how they interact

    - [main] (lines 53-79) validates the command line with
      [CheckAndInitialiseInput] (lines 184-209), copies the two file names
      into 50-byte buffers, reads the trace with [ReadFileData]
      (lines 211-235) into a [Queue] of [PageRequest]s, and calls
      [SimulateFIFO] or [SimulateLRU].
    - The queue ([Queue], [Node], [NewNode], [NewQueue], [Enqueue],
      [Dequeue], [IsQueueEmpty], [FreeQueue]; lines 19-34 and 91-182) is a
      singly linked list with head and tail pointers; each simulator
      drains the input queue front to back and moves every node, after
      writing "HIT" or "PF" into its request, to an output queue.
    - The frame array ([SimNode], lines 26-29) is a malloc'd array of
      [totalFrames] slots [{id; timesRequested}]; [id = -1] marks a free
      slot.  [IsSimFull], [SimContains] and [SortByTimesRequested]
      (lines 136-171) scan it.
    - [SimulateFIFO] (lines 237-279) and [SimulateLRU] (lines 281-327)
      classify each reference, update the frame array, and end with
      [PrintValues] (lines 329-347), which counts the faults and prints the
      lines and the rate, and [FreeQueue].

    ** Files of the development (in dependency order)

    - [Prelude.v] (this file): the [page_scope] notation for counting, the
      [page] hint database, the rewrite database [page_rw], the tactic
      [case_zeq], and generic lemmas on counting and on lists.
    - [Types.v]: the C data types: [PageReplacementAlgorithms], the two
      labels written by [strcpy], [PageRequest], [SimNode], the sentinel
      [FREE = -1], the bounds of a 32-bit [int] and the text of [%d].
    - [Float32.v]: the binary32 arithmetic of line 345 and the [%.2f] of
      line 346: [round32] rounds a rational to the nearest [float] (24-bit
      significand, ties to even), [hundredths] and [fmt2] print a value
      with two decimals; [round32] is exact on integers below [2^24], is
      monotone between integers and has relative error at most [2^-24].
    - [Queue.v]: the heap of nodes as a [gmap] from locations to [Node]
      records (a NULL pointer is [None]); [NewNode], [NewQueue],
      [Enqueue], [Dequeue], [IsQueueEmpty], the traversal of a queue and
      [FreeQueue]; the representation predicate [queue_repr] (a queue is
      the chain of its nodes from [head], ending at [tail], without
      repetition) and the specification of each operation against it.
    - [Input.v]: [ReadFileData]: [fscanf("%d")] as the scanner [scan_int]
      (white space by [isspace], a sign, digits), the reading loop on the
      heap, and the round trip with the decimal text of [%d]; the loop
      without fuel [scan_all], by well-founded recursion (Equations) on
      the length of the text left.
    - [Cli.v]: [CheckAndInitialiseInput] with [tolower] and [atoi]; its
      result together with [argv] and the out-parameters it writes.
    - [Frames.v]: the frame array as a [list SimNode] of length
      [totalFrames] and the loops that scan and update it: [IsSimFull],
      [SimContains], the first-free insertion loop, the hit-counter loop,
      [SortByTimesRequested] (as the minimum scan [min_scan] and a swap);
      the well-formedness invariant of the array ([frames_wf]: free slots
      form a suffix, residents are pairwise distinct) and the lemmas that
      every loop preserves it.
    - [Policy.v]: the interface between the simulation loop and a policy:
      the class [PagePolicy] (one step of the loop body) and the class
      [PagePolicyLaws] (an invariant that holds of the fresh array, implies
      [frames_wf] and is preserved by a step; the label law "HIT iff
      [SimContains]"), the loop the two simulators share on lists
      ([simulate_loop]), and the reachable frame arrays as an inductive
      relation.  The lemmas about the loop are proved once against the
      classes; the claims about the program are stated for the two
      instances, whose laws [Fifo.v] and [Lru.v] prove.
    - [Driver.v]: the same loop as the code runs it on the linked queues
      ([simulate_heap]: [Dequeue], classify, write the label, [Enqueue]),
      refined to [simulate_loop]; its one iteration [heap_iter] and the
      modality [eventually] (some run of iterations reaches a state), with
      the theorem that the loop reaches its exit.
    - [Fifo.v]: [SimulateFIFO]: the shift loop of lines 258-263 as a
      structurally recursive loop [shift_loop], proved equal to a
      rotation; the loop body [SimulateFIFO_step]; the abstract FIFO queue
      [FifoSpec] and the refinement theorem.
    - [Lru.v]: [SimulateLRU]: the loop body [SimulateLRU_step] with its
      call of [SortByTimesRequested]; the invariant that slot 0 holds a
      resident with the least counter; the eviction and hit theorems; the
      abstract frequency policy [FreqSpec] (a multiset of (page, counter)
      pairs, a [Proper] relation modulo [Permutation]) and the refinement
      theorem; the bound of the counters.
    - [Report.v]: [PrintValues]: the counting loop, the output lines, the
      rate [(float)numOfPageFaults / numOfPages * 100] as [float]s
      ([float_val]: a finite value, an infinity or a NaN; [0.0f/0.0f] is
      the NaN with its sign bit set) and the rate line [%.2f%%].
    - [Scenarios.v]: theorems about both simulators: each loads the page
      of every reference (a repeated reference hits), keeps its frame
      array well formed, faults at least once per distinct page, faults
      exactly once per distinct page when the pages fit, and agrees with
      the other on one frame; the rate bounds of a run.
    - [Main.v]: each simulator as a whole on the heap ([SimulateHeap]:
      frame array, loop, [PrintValues], [FreeQueue]) and [main].

    ** What the theorems show

    End to end, [main] on an accepted command line and a readable file
    writes the report of the list-level simulator on the integers of the
    file and frees every node it allocated ([Main.main_refines]); this
    composes the refinement of the heap loop by the list loop
    ([Driver]), of each list-level simulator by an abstract policy
    ([Fifo], [Lru]), the specification of the reader ([Input]) and of the
    command line ([Cli]).  Besides: functional behaviour of every loop of
    the frame array on each branch; preservation of the frame invariant
    by both policies (by induction on reachability); the equivalence of
    the FIFO shift loop with a rotation; the eviction choice of each
    policy; that both load every page they are given and fault at least
    once per distinct page; the counting identities of the report, the bounds of the
    [float] rate and of its printed hundredths, and their accuracy
    (within [1/200 + 2^-16] of the exact rate); the round trip of the
    decimal text; termination of the reading loop without fuel and the
    liveness of the heap loop (it reaches its exit from every
    well-formed pair of queues); and the behaviours the specification does
    not expect (listed as findings in the manifest: the page id [-1]
    collides with the free-slot sentinel, an empty trace prints the
    rate ["-nan"], [Dequeue] leaves a stale [tail], the reader stops at
    the first malformed token, [atoi] ignores trailing text, [strcpy] of
    a long file name overflows).  Three further findings of the manifest
    (the specification's FIFO table, the "LRU" policy not being
    least-recently-used, the swap in [SortByTimesRequested] not being the
    stable reordering the specification describes) concern single traces
    and are recorded there, not as theorems.

    ** Bounds and fuel

    The loops over the frame array and over the trace are structural
    recursions.  Three loops run over pointers and are given fuel: the
    heap loop of the simulators and the traversals of [PrintValues] and
    [FreeQueue] run [size h] times at most (a queue without repetition has
    no more nodes than the heap, [Queue.chain_length_size]), and the loop
    of [ReadFileData] runs [String.length s + 1] times (every successful
    [fscanf] consumes a character, [Input.scan_ints_enough]); the theorems
    prove this fuel enough, not only that a result, if any, is right.
    Page ids and counters are [Z]: the counters are proved bounded by the
    number of references, so [timesRequested++] cannot overflow a 32-bit
    [int] for traces shorter than 2^31 references.  The rate theorems
    assume fewer than [2^24] references: below that bound both counts are
    exact [float]s; the exponent range of [float] is not modelled, since
    the rates lie between [2^-31] and [2^38].

    ** Not modelled

    [printf] diagnostics, [malloc] failure (allocation is assumed to
    succeed), [free] of the [Queue] records and of the frame array (the
    heap holds the nodes only), [fclose], the exponent range of [float]
    and the sign of [-0.00] (no value of the program reaches them),
    [fscanf] and [atoi] on numbers beyond the range of [int] (undefined
    behaviour in C; kept as integers), and the file system beyond the text
    read and whether the output file opens. *)

From stdpp Require Export base list sets.
From Stdlib Require Export ZArith Lia.

Declare Scope page_scope.
Delimit Scope page_scope with page.

Create HintDb page.
Create Rewrite HintDb page_rw.

(** Number of elements of a list satisfying a boolean test. *)
Fixpoint countb {A} (p : A -> bool) (l : list A) : nat :=
  match l with
  | [] => 0
  | x :: r => (if p x then 1 else 0) + countb p r
  end.

Notation "#[ p ] l" := (countb p l)
  (at level 10, p at level 200, l at level 9) : page_scope.

Local Open Scope page_scope.

(** Case analysis on the [Z.eqb] tests that the C comparisons become. *)
Ltac case_zeq :=
  repeat match goal with
  | |- context [Z.eqb ?a ?b] => destruct (Z.eqb_spec a b)
  | H : context [Z.eqb ?a ?b] |- _ => destruct (Z.eqb_spec a b)
  end.

Section Counting.
Context {A : Type}.

Lemma countb_app (p : A -> bool) l1 l2 :
  #[p] (l1 ++ l2) = #[p] l1 + #[p] l2.
Proof. induction l1 as [|x l1 IH]; simpl; [done|]. rewrite IH. lia. Qed.

Lemma countb_le_length (p : A -> bool) l : #[p] l <= length l.
Proof. induction l as [|x l IH]; simpl; [lia|]. destruct (p x); lia. Qed.

Lemma countb_map {B} (p : B -> bool) (f : A -> B) l :
  #[p] (map f l) = #[fun x => p (f x)] l.
Proof. induction l as [|x l IH]; simpl; congruence. Qed.
End Counting.

Section Lists.
Context {A : Type}.

Lemma NoDup_snoc (l : list A) x : NoDup l -> x ∉ l -> NoDup (l ++ [x]).
Proof.
  intros Hl Hx. apply NoDup_app. split_and!; [done| |apply NoDup_singleton].
  intros y Hy ->%list_elem_of_singleton. done.
Qed.

Lemma NoDup_tail (l : list A) : NoDup l -> NoDup (tail l).
Proof. destruct l; simpl; [done|]. by intros [_ ?]%NoDup_cons. Qed.

Lemma not_elem_of_tail (l : list A) x : x ∉ l -> x ∉ tail l.
Proof. destruct l; simpl; [done|]. intros Hx Hin. apply Hx. by right. Qed.

Lemma Forall_tail (P : A -> Prop) (l : list A) : Forall P l -> Forall P (tail l).
Proof. destruct 1; simpl; auto. Qed.

(** [argv[i]] after a write to another index. *)
Lemma nth_insert_ne (l : list A) i j x d :
  i <> j -> nth i (<[j := x]> l) d = nth i l d.
Proof. intros Hij. rewrite !nth_lookup, list_lookup_insert_ne; done. Qed.
End Lists.

#[export] Hint Resolve NoDup_snoc NoDup_tail not_elem_of_tail Forall_tail : page.

#[export] Hint Rewrite @countb_app @countb_map : page_rw.
#[export] Hint Resolve countb_le_length : page.
