(* ===== verification/Types.v ===== *)
(** * Types: the data types of page_replacement.c

    The enum [PageReplacementAlgorithms] (lines 7-10), the request record
    [PageRequest] (lines 12-15) whose [hitOrPageFault] buffer receives
    "HIT" or "PF" by [strcpy], the frame slot [SimNode] (lines 26-29), the
    free-slot sentinel [-1] written by both simulators, and the range of a
    C [int]. *)

From S2P Require Import Prelude.
From stdpp Require Export strings.
From Stdlib Require Import DecimalString.

Local Open Scope Z_scope.

(** The range of a 32-bit C [int]. *)
Definition INT_MIN : Z := - 2 ^ 31.
Definition INT_MAX : Z := 2 ^ 31 - 1.

Definition in_int_range (z : Z) : bool := (INT_MIN <=? z) && (z <=? INT_MAX).

Inductive PageReplacementAlgorithms := FIFO | LRU.

#[export] Instance PageReplacementAlgorithms_eq_dec :
  EqDecision PageReplacementAlgorithms.
Proof. solve_decision. Defined.

(** The two strings the simulators copy into [hitOrPageFault]. *)
Definition HIT : string := "HIT".
Definition PF : string := "PF".

(** A request of the trace: its page id and, once classified, the label
    copied into it.  The C record is allocated by [NewPageRequest] with an
    uninitialised label; the model builds the record when the label is
    written (lines 251 and 255 of [SimulateFIFO], 296 and 306 of
    [SimulateLRU]). *)
Record PageRequest := mkPageRequest {
  page_id : Z;
  hitOrPageFault : string
}.

(** [NewPageRequest] (lines 81-89): a request for page [id]. *)
Definition NewPageRequest (id : Z) (label : string) : PageRequest :=
  mkPageRequest id label.

(** A frame slot. *)
Record SimNode := mkSimNode {
  id : Z;
  timesRequested : Z
}.

#[export] Instance SimNode_eq_dec : EqDecision SimNode.
Proof. solve_decision. Defined.

(** The id the simulators store in a free slot. *)
Definition FREE : Z := -1.

Definition is_free (s : SimNode) : bool := Z.eqb s.(id) FREE.

(** The slot after [(simulationQueue + i)->id = v]. *)
Definition set_id (v : Z) (s : SimNode) : SimNode :=
  mkSimNode v s.(timesRequested).

(** The decimal text [printf("%d")] writes for an [int]. *)
Definition string_of_Z (z : Z) : string := NilZero.string_of_int (Z.to_int z).
