(* ===== verification/Float32.v ===== *)
(** * Float32: the [float] arithmetic of [PrintValues] and [%.2f]

    Line 345 computes [(float)numOfPageFaults / numOfPages * 100] in
    IEEE 754 binary32 arithmetic: both [int]s are converted to [float],
    divided, and the quotient multiplied by [100] converted to [float];
    each operation rounds its exact result to the nearest [float], ties to
    an even significand.  Line 346 prints the [float], promoted to
    [double] (exactly), with [%.2f]: the exact value rounded to two
    decimals, ties to even (the behaviour of glibc's [printf]).

    A finite [float] is modelled by its value, a rational.  [round32]
    rounds a rational to the nearest [float]: for [x > 0] the exponent
    [fexp x] puts [x / 2^e] in the binade [[2^23, 2^24)], and the
    significand is [x / 2^e] rounded to an integer by [round_ne].  The
    exponent range of binary32 is not modelled: the values of the program
    lie between [2^-31] and [2^38], far inside it. *)

From S2P Require Import Prelude Types.
From Stdlib Require Import QArith Qround Lqa.

Local Open Scope Z_scope.

(** [q] rounded to an integer, ties to even. *)
Definition round_ne (q : Q) : Z :=
  let f := Qnum q / Zpos (Qden q) in
  let r := Qnum q mod Zpos (Qden q) in
  match Z.compare (2 * r) (Zpos (Qden q)) with
  | Lt => f
  | Gt => f + 1
  | Eq => if Z.even f then f else f + 1
  end.

(** [a < b] on rationals, as a boolean. *)
Definition Qltb (a b : Q) : bool := negb (Qle_bool b a).

(** [2^e] as a rational, for any integer [e]. *)
Definition pow2 (e : Z) : Q :=
  match e with
  | Z0 => 1
  | Zpos p => inject_Z (Zpos (2 ^ p))
  | Zneg p => 1 # (2 ^ p)
  end.

(** The exponent of the [float]s around [x > 0]: [x / 2^(fexp x)] lies in
    [[2^23, 2^24)].  [Z.log2] of the numerator and of the denominator give
    it up to one. *)
Definition fexp (x : Q) : Z :=
  let e0 := Z.log2 (Qnum x) - Z.log2 (Zpos (Qden x)) - 23 in
  if Qltb (x * pow2 (- e0)) (inject_Z (2 ^ 23)) then e0 - 1 else e0.

(** The [float] nearest to [x], ties to even. *)
Definition round32 (x : Q) : Q :=
  if Qltb 0 x then inject_Z (round_ne (x * pow2 (- fexp x))) * pow2 (fexp x)
  else if Qltb x 0 then
    - (inject_Z (round_ne (- x * pow2 (- fexp (- x)))) * pow2 (fexp (- x)))
  else 0.

(** ** The conversion [%.2f] *)

(** The two decimals, with a leading zero below 10. *)
Definition two_digits (k : Z) : string :=
  if k <? 10 then String.append "0" (string_of_Z k) else string_of_Z k.

(** The hundredths [%.2f] prints for [v]: [v * 100] rounded to an
    integer, ties to even. *)
Definition hundredths (v : Q) : Z := round_ne (v * 100).

(** [printf("%.2f", v)] for a finite [v].  (A negative [v] that rounds
    to [0] prints as ["-0.00"] in C; the model prints ["0.00"], and the
    values printed by the program are never negative.) *)
Definition fmt2 (v : Q) : string :=
  let c := hundredths v in
  String.append (if c <? 0 then "-" else "")
    (String.append (string_of_Z (Z.abs c / 100)) (String.append "." (two_digits (Z.abs c mod 100)))).

(** ** Powers of two *)

Lemma pow2_nonneg (k : Z) : 0 <= k -> (pow2 k == inject_Z (2 ^ k))%Q.
Proof.
  intros Hk. destruct k as [|p|p]; [reflexivity | | lia].
  unfold pow2. by rewrite <- Pos2Z.inj_pow.
Qed.

Lemma pow2_neg (k : Z) : 0 <= k -> (pow2 (- k) == / inject_Z (2 ^ k))%Q.
Proof.
  intros Hk. destruct k as [|p|p]; [reflexivity | | lia].
  simpl. rewrite <- Pos2Z.inj_pow. reflexivity.
Qed.

Lemma pow2_pos (e : Z) : (0 < pow2 e)%Q.
Proof.
  destruct e as [|p|p]; unfold pow2, Qlt; simpl; [lia | | lia].
  pose proof (Pos2Z.is_pos (2 ^ p)). lia.
Qed.

Lemma pow2_add (i j : Z) : (pow2 (i + j) == pow2 i * pow2 j)%Q.
Proof.
  assert (Hgen : forall a b, 0 <= a -> 0 <= b ->
            (pow2 (a - b) == inject_Z (2 ^ a) / inject_Z (2 ^ b))%Q).
  { intros a b Ha Hb. destruct (Z.le_ge_cases b a) as [Hab|Hab].
    - rewrite pow2_nonneg by lia. replace a with ((a - b) + b) at 2 by lia.
      rewrite Z.pow_add_r by lia. rewrite inject_Z_mult. field.
      intros Hz. unfold Qeq in Hz. simpl in Hz.
      pose proof (Z.pow_pos_nonneg 2 b). lia.
    - replace (a - b) with (- (b - a)) by lia. rewrite pow2_neg by lia.
      replace b with ((b - a) + a) at 2 by lia.
      rewrite Z.pow_add_r by lia. rewrite inject_Z_mult. field.
      split; intros Hz; unfold Qeq in Hz; simpl in Hz;
        [pose proof (Z.pow_pos_nonneg 2 a) | pose proof (Z.pow_pos_nonneg 2 (b - a))]; lia. }
  destruct (Z.le_ge_cases 0 i) as [Hi|Hi]; destruct (Z.le_ge_cases 0 j) as [Hj|Hj].
  - rewrite !pow2_nonneg by lia. rewrite Z.pow_add_r by lia. by rewrite inject_Z_mult.
  - replace (i + j) with (i - (- j)) by lia. rewrite Hgen by lia.
    rewrite pow2_nonneg by lia. replace j with (- (- j)) at 2 by lia.
    rewrite pow2_neg by lia. reflexivity.
  - replace (i + j) with (j - (- i)) by lia. rewrite Hgen by lia.
    rewrite (pow2_nonneg j) by lia. replace i with (- (- i)) at 2 by lia.
    rewrite pow2_neg by lia. rewrite Qmult_comm. reflexivity.
  - replace (i + j) with (- (- i + - j)) by lia. rewrite pow2_neg by lia.
    replace i with (- (- i)) at 2 by lia. replace j with (- (- j)) at 2 by lia.
    rewrite !pow2_neg by lia. rewrite Z.pow_add_r by lia. rewrite inject_Z_mult.
    rewrite Qinv_mult_distr. reflexivity.
Qed.

Lemma pow2_inv (e : Z) : (pow2 (- e) * pow2 e == 1)%Q.
Proof. rewrite <- pow2_add. replace (- e + e) with 0 by lia. reflexivity. Qed.

(** ** Rounding to an integer *)

(** The two candidates [round_ne] chooses from, with the division of the
    numerator by the denominator. *)
Lemma round_ne_cases (n : Z) (d : positive) :
  let f := n / Zpos d in let r := n mod Zpos d in
  n = Zpos d * f + r /\ 0 <= r < Zpos d /\
  (round_ne (n # d) = f /\ 2 * r <= Zpos d \/ round_ne (n # d) = f + 1 /\ Zpos d <= 2 * r).
Proof.
  intros f r. split; [apply Z.div_mod; lia|]. split; [apply Z.mod_pos_bound; lia|].
  unfold round_ne. simpl. fold f r.
  destruct (Z.compare_spec (2 * r) (Zpos d)); [destruct (Z.even f)| |]; [left|right|left|right]; lia.
Qed.

(** [round_ne y] is within one half of [y]. *)
Lemma round_ne_half (y : Q) :
  (inject_Z (round_ne y) - (1 # 2) <= y <= inject_Z (round_ne y) + (1 # 2))%Q.
Proof.
  destruct y as [n d].
  destruct (round_ne_cases n d) as (Hn & Hr & [[-> Hc]|[-> Hc]]);
    unfold Qle, Qminus, Qplus, Qopp, inject_Z; simpl; split; nia.
Qed.

(** Rounding below an integer bound stays below it, and above. *)
Lemma round_ne_le (y : Q) (k : Z) : (y <= inject_Z k)%Q -> round_ne y <= k.
Proof.
  destruct y as [n d]. unfold Qle, inject_Z; simpl. intros Hy.
  destruct (round_ne_cases n d) as (Hn & Hr & [[-> Hc]|[-> Hc]]); nia.
Qed.

Lemma round_ne_ge (y : Q) (k : Z) : (inject_Z k <= y)%Q -> k <= round_ne y.
Proof.
  destruct y as [n d]. unfold Qle, inject_Z; simpl. intros Hy.
  destruct (round_ne_cases n d) as (Hn & Hr & [[-> Hc]|[-> Hc]]); nia.
Qed.

Lemma round_ne_Z (k : Z) : round_ne (inject_Z k) = k.
Proof.
  apply Z.le_antisymm; [apply round_ne_le | apply round_ne_ge]; apply Qle_refl.
Qed.

(** ** The exponent *)

(** [x] scaled by [2^(-e0)], where [e0] is the first guess of [fexp],
    lies in [(2^22, 2^24)]. *)
Lemma fexp_guess (n : Z) (d : positive) :
  0 < n ->
  let e0 := Z.log2 n - Z.log2 (Zpos d) - 23 in
  (inject_Z (2 ^ 22) < (n # d) * pow2 (- e0) < inject_Z (2 ^ 24))%Q.
Proof.
  intros Hn e0. set (a := Z.log2 n). set (b := Z.log2 (Zpos d)).
  destruct (Z.log2_spec n Hn) as [Ha1 Ha2]. destruct (Z.log2_spec (Zpos d) ltac:(lia)) as [Hb1 Hb2].
  fold a in Ha1, Ha2. fold b in Hb1, Hb2.
  assert (Ha0 : 0 <= a) by apply Z.log2_nonneg. assert (Hb0 : 0 <= b) by apply Z.log2_nonneg.
  rewrite Z.pow_succ_r in Ha2, Hb2 by lia.
  set (A := 2 ^ a) in *. set (B := 2 ^ b) in *.
  assert (HA : 0 < A) by (apply Z.pow_pos_nonneg; lia).
  assert (HB23 : 2 ^ (b + 23) = B * 2 ^ 23) by (unfold B; apply Z.pow_add_r; lia).
  assert (Hy : ((n # d) * pow2 (- e0) * inject_Z A == (n # d) * inject_Z (B * 2 ^ 23))%Q).
  { unfold e0. fold a b. replace (- (a - b - 23)) with ((b + 23) + - a) by lia.
    rewrite pow2_add, pow2_nonneg, pow2_neg by lia. rewrite <- HB23. fold A.
    field. intros Hz. unfold Qeq in Hz. simpl in Hz. lia. }
  assert (HAq : (0 < inject_Z A)%Q) by (unfold Qlt; simpl; lia).
  split; apply (Qmult_lt_r _ _ (inject_Z A) HAq); rewrite Hy;
    unfold Qlt, Qmult, inject_Z; simpl; nia.
Qed.

(** [x / 2^(fexp x)] lies in the binade [[2^23, 2^24)]. *)
Lemma fexp_spec (x : Q) :
  (0 < x)%Q -> (inject_Z (2 ^ 23) <= x * pow2 (- fexp x) < inject_Z (2 ^ 24))%Q.
Proof.
  destruct x as [n d]. intros Hx. assert (Hn : 0 < n) by (unfold Qlt in Hx; simpl in Hx; lia).
  pose proof (fexp_guess n d Hn) as [Hlo Hhi]. unfold fexp. cbn [Qnum Qden].
  set (e0 := Z.log2 n - Z.log2 (Zpos d) - 23) in *.
  unfold Qltb. destruct (Qle_bool _ _) eqn:Hle; simpl.
  - apply Qle_bool_iff in Hle. split; [done | done].
  - assert (Hlt : ((n # d) * pow2 (- e0) < inject_Z (2 ^ 23))%Q).
    { apply Qnot_le_lt. intros Hc. apply Qle_bool_iff in Hc. congruence. }
    replace (- (e0 - 1)) with (- e0 + 1) by lia. rewrite pow2_add, Qmult_assoc.
    change (pow2 1) with (inject_Z 2).
    revert Hlo Hlt. generalize ((n # d) * pow2 (- e0))%Q. intros y.
    unfold Qle, Qlt, Qmult, inject_Z; simpl. intros; split; nia.
Qed.

(** ** Rounding to a [float] *)

Lemma round32_pos (x : Q) :
  (0 < x)%Q -> round32 x = (inject_Z (round_ne (x * pow2 (- fexp x))) * pow2 (fexp x))%Q.
Proof.
  intros Hx. unfold round32, Qltb.
  destruct (Qle_bool x 0) eqn:Hle; [|done].
  apply Qle_bool_iff in Hle. exfalso. by apply (Qlt_not_le 0 x).
Qed.

Lemma Qscale (x : Q) (e : Z) : (x == x * pow2 (- e) * pow2 e)%Q.
Proof. rewrite <- Qmult_assoc, pow2_inv. ring. Qed.

(** Below [2^24] the [float]s are spaced by [2^e] with [e <= 0]. *)
Lemma fexp_small (x : Q) : (0 < x)%Q -> (x < inject_Z (2 ^ 24))%Q -> fexp x <= 0.
Proof.
  intros Hx Hs. destruct (Z.le_gt_cases (fexp x) 0) as [He|He]; [done|exfalso].
  destruct (fexp_spec x Hx) as [Hlo _].
  assert (Hp : (inject_Z 2 <= pow2 (fexp x))%Q).
  { rewrite pow2_nonneg by lia. unfold Qle; simpl.
    replace (fexp x) with (1 + (fexp x - 1)) by lia. rewrite Z.pow_add_r by lia.
    pose proof (Z.pow_pos_nonneg 2 (fexp x - 1)). lia. }
  apply (Qlt_not_le _ _ Hs). rewrite (Qscale x (fexp x)).
  apply (Qle_trans _ (inject_Z (2 ^ 23) * inject_Z 2)); [unfold Qle; simpl; lia|].
  apply Qmult_le_compat_nonneg; [split; [unfold Qle; simpl; lia | done] |].
  split; [unfold Qle; simpl; lia | done].
Qed.

Lemma int_scale (k e : Z) : e <= 0 ->
  (inject_Z (k * 2 ^ (- e)) == inject_Z k * pow2 (- e))%Q.
Proof. intros He. rewrite inject_Z_mult, pow2_nonneg by lia. reflexivity. Qed.

(** An integer below [2^24] is a [float]: rounding does not cross it. *)
Lemma round32_le_int (x : Q) (k : Z) :
  (0 < x)%Q -> (x <= inject_Z k)%Q -> (x < inject_Z (2 ^ 24))%Q -> (round32 x <= inject_Z k)%Q.
Proof.
  intros Hx Hk Hs. pose proof (fexp_small x Hx Hs) as He. rewrite round32_pos by done.
  assert (Hm : round_ne (x * pow2 (- fexp x)) <= k * 2 ^ (- fexp x)).
  { apply round_ne_le. rewrite int_scale by done.
    apply Qmult_le_compat_r; [done | apply Qlt_le_weak, pow2_pos]. }
  apply (Qle_trans _ (inject_Z (k * 2 ^ (- fexp x)) * pow2 (fexp x))).
  - apply Qmult_le_compat_r; [by rewrite <- Zle_Qle | apply Qlt_le_weak, pow2_pos].
  - rewrite int_scale, <- Qmult_assoc, pow2_inv by done. rewrite Qmult_1_r. apply Qle_refl.
Qed.

Lemma round32_ge_int (x : Q) (k : Z) :
  (0 < x)%Q -> (inject_Z k <= x)%Q -> (x < inject_Z (2 ^ 24))%Q -> (inject_Z k <= round32 x)%Q.
Proof.
  intros Hx Hk Hs. pose proof (fexp_small x Hx Hs) as He. rewrite round32_pos by done.
  assert (Hm : k * 2 ^ (- fexp x) <= round_ne (x * pow2 (- fexp x))).
  { apply round_ne_ge. rewrite int_scale by done.
    apply Qmult_le_compat_r; [done | apply Qlt_le_weak, pow2_pos]. }
  apply (Qle_trans _ (inject_Z (k * 2 ^ (- fexp x)) * pow2 (fexp x))).
  - rewrite int_scale, <- Qmult_assoc, pow2_inv by done. rewrite Qmult_1_r. apply Qle_refl.
  - apply Qmult_le_compat_r; [by rewrite <- Zle_Qle | apply Qlt_le_weak, pow2_pos].
Qed.

(** The integers [0 <= k < 2^24] are [float]s: the conversion of an
    [int] below [2^24] is exact. *)
Lemma round32_int (k : Z) : 0 <= k < 2 ^ 24 -> (round32 (inject_Z k) == inject_Z k)%Q.
Proof.
  intros Hk. destruct (Z.eq_dec k 0) as [->|Hk0]; [reflexivity|].
  assert (Hpos : (0 < inject_Z k)%Q) by (unfold Qlt; simpl; lia).
  assert (Hs : (inject_Z k < inject_Z (2 ^ 24))%Q) by (rewrite <- Zlt_Qlt; lia).
  apply Qle_antisym; [apply round32_le_int | apply round32_ge_int]; auto using Qle_refl.
Qed.

Lemma round32_zero (x : Q) : (x == 0)%Q -> round32 x = 0%Q.
Proof.
  intros Hx0. unfold round32, Qltb.
  by rewrite (proj2 (Qle_bool_iff x 0)), (proj2 (Qle_bool_iff 0 x)) by (rewrite Hx0; apply Qle_refl).
Qed.

Lemma round32_nonneg (x : Q) : (0 <= x)%Q -> (0 <= round32 x)%Q.
Proof.
  intros Hx. destruct (Qlt_le_dec 0 x) as [Hlt|Hle].
  - rewrite round32_pos by done. apply Qmult_le_0_compat; [|apply Qlt_le_weak, pow2_pos].
    change 0%Q with (inject_Z 0). rewrite <- Zle_Qle. apply round_ne_ge.
    apply Qmult_le_0_compat; [by apply Qlt_le_weak | apply Qlt_le_weak, pow2_pos].
  - rewrite round32_zero by (by apply Qle_antisym). apply Qle_refl.
Qed.

(** Half a unit in the last place of a significand in [[2^23, 2^24)] is
    at most [2^-24] of it. *)
Lemma half_ulp_rel (y m : Q) :
  (inject_Z (2 ^ 23) <= y)%Q -> (m - (1 # 2) <= y <= m + (1 # 2))%Q ->
  (y - y * (1 # 2 ^ 24) <= m <= y + y * (1 # 2 ^ 24))%Q.
Proof.
  destruct y as [a b], m as [c d]. unfold Qle, Qminus, Qplus, Qopp, Qmult, inject_Z; simpl.
  intros Hy [H1 H2]. split; nia.
Qed.

(** The relative error of [round32] is at most [2^-24]. *)
Lemma round32_rel (x : Q) :
  (0 < x)%Q -> (x - x * (1 # 2 ^ 24) <= round32 x <= x + x * (1 # 2 ^ 24))%Q.
Proof.
  intros Hx. rewrite round32_pos by done.
  destruct (fexp_spec x Hx) as [Hlo _].
  set (s := pow2 (fexp x)). set (y := (x * pow2 (- fexp x))%Q) in *.
  destruct (half_ulp_rel y (inject_Z (round_ne y)) Hlo (round_ne_half y)) as [H1 H2].
  assert (Hs : (0 <= s)%Q) by apply Qlt_le_weak, pow2_pos.
  assert (Hxs : (x == y * s)%Q) by apply Qscale.
  rewrite Hxs. split.
  - assert (E : (y * s - y * s * (1 # 2 ^ 24) == (y - y * (1 # 2 ^ 24)) * s)%Q) by ring.
    rewrite E. by apply Qmult_le_compat_r.
  - assert (E : (y * s + y * s * (1 # 2 ^ 24) == (y + y * (1 # 2 ^ 24)) * s)%Q) by ring.
    rewrite E. by apply Qmult_le_compat_r.
Qed.

(** A value between 0 and an integer [k < 2^24] rounds between them. *)
Lemma round32_between (x : Q) (k : Z) :
  (0 <= x <= inject_Z k)%Q -> 0 <= k < 2 ^ 24 -> (0 <= round32 x <= inject_Z k)%Q.
Proof.
  intros [Hx0 Hxk] Hk. split; [by apply round32_nonneg|].
  destruct (Qlt_le_dec 0 x) as [Hlt|Hle].
  - apply round32_le_int; [done | done |].
    apply (Qle_lt_trans _ _ _ Hxk). rewrite <- Zlt_Qlt. lia.
  - rewrite round32_zero by (by apply Qle_antisym). change 0%Q with (inject_Z 0).
    rewrite <- Zle_Qle. lia.
Qed.

(** ** What [%.2f] prints *)

Lemma hundredths_half (v : Q) :
  (inject_Z (hundredths v) - (1 # 2) <= v * 100 <= inject_Z (hundredths v) + (1 # 2))%Q.
Proof. apply round_ne_half. Qed.

Lemma hundredths_between (v : Q) (k : Z) :
  (0 <= v <= inject_Z k)%Q -> 0 <= hundredths v <= 100 * k.
Proof.
  intros [H0 Hk]. unfold hundredths. split.
  - apply round_ne_ge. change (inject_Z 0) with 0%Q.
    apply Qmult_le_0_compat; [done | unfold Qle; simpl; lia].
  - apply round_ne_le. rewrite inject_Z_mult, (Qmult_comm (inject_Z 100)).
    apply Qmult_le_compat_r; [done | unfold Qle; simpl; lia].
Qed.

(** The same bound, at [0] too. *)
Lemma round32_rel0 (x : Q) :
  (0 <= x)%Q -> (x - x * (1 # 2 ^ 24) <= round32 x <= x + x * (1 # 2 ^ 24))%Q.
Proof.
  intros Hx. destruct (Qlt_le_dec 0 x) as [Hlt|Hle]; [by apply round32_rel|].
  assert (Hx0 : (x == 0)%Q) by (by apply Qle_antisym).
  rewrite round32_zero by done. rewrite Hx0. lra.
Qed.
