(* ===== verification/Queue.v ===== *)
(** * Queue: the linked queue of lines 19-34 and 91-134

    A [Node] holds a request and a [next] pointer; a [Queue] holds [head]
    and [tail] pointers.  The heap is a finite map from locations to nodes
    ([gmap loc Node]); [NULL] is [None].  [NewNode] allocates a fresh
    location, [Enqueue] links a node after the tail, [Dequeue] unlinks the
    head and clears its [next] field, [IsQueueEmpty] tests the head.
    [queue_repr] relates a queue to the list of its node locations; the
    theorems show that [Enqueue] and [Dequeue] implement a list queue as
    long as the queue is not emptied by [Dequeue] and then refilled:
    [Dequeue] of the last node leaves [tail] pointing at it, and a later
    [Enqueue] links the new node there, unreachable from [head]. *)

From S2P Require Import Prelude Types.
From stdpp Require Import gmap.

Local Open Scope Z_scope.
Local Open Scope page_scope.

Notation loc := positive (only parsing).

Record Node := mkNode {
  item : PageRequest;
  next : option loc
}.

Record Queue := mkQueue {
  head : option loc;
  tail : option loc
}.

Notation heap := (gmap loc Node) (only parsing).

(** [NewNode] (lines 91-100): a node at a location not in use. *)
Definition NewNode (h : gmap loc Node) (it : PageRequest) : gmap loc Node * loc :=
  let l := fresh (dom h) in (<[l := mkNode it None]> h, l).

(** [NewQueue] (lines 102-110). *)
Definition NewQueue : Queue := mkQueue None None.

(** [Enqueue] (lines 112-120). *)
Definition Enqueue (h : gmap loc Node) (queue : Queue) (it : loc) : gmap loc Node * Queue :=
  match queue.(tail) with
  | None => (h, mkQueue (Some it) (Some it))
  | Some t => (alter (fun n => mkNode n.(item) (Some it)) t h, mkQueue queue.(head) (Some it))
  end.

(** [Dequeue] (lines 122-130): the head node is unlinked and its [next]
    cleared; [tail] is left as it is. *)
Definition Dequeue (h : gmap loc Node) (queue : Queue)
  : gmap loc Node * Queue * option loc :=
  match queue.(head) with
  | None => (h, queue, None)
  | Some hd =>
      match h !! hd with
      | Some n => (<[hd := mkNode n.(item) None]> h, mkQueue n.(next) queue.(tail), Some hd)
      | None => (h, queue, None)
      end
  end.

(** [IsQueueEmpty] (lines 132-134). *)
Definition IsQueueEmpty (queue : Queue) : bool :=
  match queue.(head) with None => true | Some _ => false end.

(** The nodes a [for (iterator = queue->head; iterator != NULL;
    iterator = iterator->next)] loop visits, [fuel] of them at most; the
    traversal of [PrintValues] (line 338). *)
Fixpoint queue_walk (fuel : nat) (h : gmap loc Node) (iterator : option loc) : list loc :=
  match fuel, iterator with
  | S fuel', Some l =>
      match h !! l with
      | Some n => l :: queue_walk fuel' h n.(next)
      | None => []
      end
  | _, _ => []
  end.

(** [FreeQueue] (lines 173-182): read [next], then free the node and its
    request. *)
Fixpoint FreeQueue (fuel : nat) (h : gmap loc Node) (iterator : option loc) : gmap loc Node :=
  match fuel, iterator with
  | S fuel', Some deleter =>
      match h !! deleter with
      | Some n => FreeQueue fuel' (delete deleter h) n.(next)
      | None => h
      end
  | _, _ => h
  end.

(** ** Representation *)

(** The nodes reached from [p] by [next] pointers are [ls], ending in NULL. *)
Fixpoint chain (h : gmap loc Node) (p : option loc) (ls : list loc) : Prop :=
  match ls with
  | [] => p = None
  | l :: ls' => p = Some l /\ exists n, h !! l = Some n /\ chain h n.(next) ls'
  end.

Definition last_loc (ls : list loc) : option loc := last ls.

(** [queue] holds the nodes [ls], in order, without repetition. *)
Definition queue_repr (h : gmap loc Node) (queue : Queue) (ls : list loc) : Prop :=
  chain h queue.(head) ls /\ queue.(tail) = last_loc ls /\ NoDup ls.

(** A decision procedure for [queue_repr], to check a concrete heap. *)
Fixpoint chainb (h : gmap loc Node) (p : option loc) (ls : list loc) : bool :=
  match ls with
  | [] => bool_decide (p = None)
  | l :: ls' =>
      bool_decide (p = Some l) &&
      match h !! l with Some n => chainb h n.(next) ls' | None => false end
  end.

Definition queue_reprb (h : gmap loc Node) (queue : Queue) (ls : list loc) : bool :=
  chainb h queue.(head) ls && bool_decide (queue.(tail) = last_loc ls) && bool_decide (NoDup ls).

(** The requests held by the nodes [ls]. *)
Definition items (h : gmap loc Node) (ls : list loc) : list PageRequest :=
  omap (fun l => item <$> h !! l) ls.

(** ** Lemmas on chains *)

(** The queue of two nodes holding pages 7 and 8. *)
Definition demo_heap : gmap loc Node :=
  {[ 1%positive := mkNode (NewPageRequest 7 EmptyString) (Some 2%positive);
     2%positive := mkNode (NewPageRequest 8 EmptyString) None ]}.

Definition demo_queue : Queue := mkQueue (Some 1%positive) (Some 2%positive).

Lemma chain_insert_notin (h : gmap loc Node) p ls l n :
  l ∉ ls -> chain h p ls -> chain (<[l := n]> h) p ls.
Proof.
  revert p. induction ls as [|l' ls IH]; intros p Hl Hc; simpl in *; [done|].
  destruct Hc as [-> (n' & Hn' & Hc)]. apply not_elem_of_cons in Hl as [Hne Hl].
  split; [done|]. exists n'. rewrite lookup_insert_ne by done. auto.
Qed.

Lemma chain_lookup (h : gmap loc Node) p ls l :
  chain h p ls -> l ∈ ls -> is_Some (h !! l).
Proof.
  revert p. induction ls as [|l' ls IH]; intros p Hc Hl; simpl in *.
  - by apply elem_of_nil in Hl.
  - destruct Hc as [-> (n' & Hn' & Hc)].
    apply elem_of_cons in Hl as [->|Hl]; [by eexists|eauto].
Qed.

Lemma lookup_alter_same (f : Node -> Node) (h : gmap loc Node) t :
  alter f t h !! t = f <$> h !! t.
Proof. rewrite lookup_alter. by case_decide. Qed.

(** Pointing the last node of a chain at a new node [x] extends it. *)
Lemma chain_snoc (h : gmap loc Node) p ls t x nx :
  NoDup ls -> x ∉ ls -> chain h p ls -> last ls = Some t ->
  h !! x = Some nx -> nx.(next) = None ->
  chain (alter (fun n => mkNode n.(item) (Some x)) t h) p (ls ++ [x]).
Proof.
  revert p. induction ls as [|l ls IH]; intros p Hnd Hx Hc Hlast Hnx Hnext; [done|].
  destruct Hc as [-> (n & Hn & Hc)]. apply NoDup_cons in Hnd as [Hl Hnd].
  apply not_elem_of_cons in Hx as [Hxl Hx].
  split; [done|]. destruct ls as [|l' ls'].
  - simpl in Hlast. injection Hlast as <-. simpl in Hc.
    eexists. rewrite lookup_alter_same, Hn. split; [done|]. simpl.
    split; [done|]. exists nx. rewrite lookup_alter_ne by done. split; [done|].
    by rewrite Hnext.
  - assert (Hlt : t <> l).
    { intros ->. apply Hl. simpl in Hlast. apply last_Some_elem_of. done. }
    exists n. rewrite lookup_alter_ne by done. split; [done|].
    apply IH; auto.
Qed.

(** Changing [next] fields changes no request. *)
Lemma items_alter_next (h : gmap loc Node) t f ls :
  items (alter (fun n => mkNode n.(item) f) t h) ls = items h ls.
Proof.
  unfold items. apply list_omap_ext, Forall_Forall2_diag, Forall_forall.
  intros l _. destruct (decide (t = l)) as [->|Hne].
  - rewrite lookup_alter_same. by destruct (h !! l).
  - by rewrite lookup_alter_ne.
Qed.

Lemma items_insert_notin (h : gmap loc Node) l n ls :
  l ∉ ls -> items (<[l := n]> h) ls = items h ls.
Proof.
  intros Hl. unfold items. apply list_omap_ext, Forall_Forall2_diag, Forall_forall.
  intros l' Hl'. rewrite lookup_insert_ne; [done|]. intros ->. contradiction.
Qed.

Lemma items_app (h : gmap loc Node) ls1 ls2 :
  items h (ls1 ++ ls2) = items h ls1 ++ items h ls2.
Proof. apply omap_app. Qed.

Lemma items_single (h : gmap loc Node) l n : h !! l = Some n -> items h [l] = [n.(item)].
Proof. intros Hl. unfold items. simpl. by rewrite Hl. Qed.

(** ** The queue operations on a represented queue *)

Lemma NewQueue_repr (h : gmap loc Node) : queue_repr h NewQueue [].
Proof. split_and!; [done | done | constructor]. Qed.

Lemma IsQueueEmpty_repr (h : gmap loc Node) queue ls :
  queue_repr h queue ls -> IsQueueEmpty queue = true <-> ls = [].
Proof.
  intros (Hc & _ & _). unfold IsQueueEmpty.
  destruct ls as [|l ls]; simpl in Hc.
  - by rewrite Hc.
  - destruct Hc as [-> _]. done.
Qed.

(** [Enqueue] of an unlinked node [x] appends it to the queue; the
    requests of the nodes are unchanged. *)
Lemma Enqueue_repr (h : gmap loc Node) queue ls x nx :
  queue_repr h queue ls -> h !! x = Some nx -> nx.(next) = None -> x ∉ ls ->
  queue_repr (fst (Enqueue h queue x)) (snd (Enqueue h queue x)) (ls ++ [x]) /\
  items (fst (Enqueue h queue x)) (ls ++ [x]) = items h ls ++ [nx.(item)].
Proof.
  intros (Hc & Ht & Hnd) Hx Hnext Hnin. unfold Enqueue. rewrite Ht.
  assert (Hnd' : NoDup (ls ++ [x])) by auto with page.
  rewrite !items_app.
  destruct (last_loc ls) as [t|] eqn:Hlast; simpl.
  - assert (Htx : t <> x).
    { intros ->. apply Hnin. by apply last_Some_elem_of. }
    split; [split_and!|].
    + by apply (chain_snoc h _ ls t x nx).
    + unfold last_loc. by rewrite last_app.
    + done.
    + rewrite items_alter_next. f_equal. apply items_single.
      by rewrite lookup_alter_ne.
  - unfold last_loc in Hlast. apply last_None in Hlast as ->. simpl in *.
    split; [split_and!|]; try done.
    + split; [done|]. exists nx. by rewrite Hnext.
    + by apply items_single.
Qed.

(** C9: [Dequeue] of a queue of two or more nodes unlinks the first node,
    clears its [next] field and leaves the others in order. *)
Theorem Dequeue_spec (h : gmap loc Node) queue x ls :
  queue_repr h queue (x :: ls) -> ls <> [] ->
  exists n, h !! x = Some n /\
    Dequeue h queue =
      (<[x := mkNode n.(item) None]> h, mkQueue n.(next) queue.(tail), Some x) /\
    queue_repr (<[x := mkNode n.(item) None]> h) (mkQueue n.(next) queue.(tail)) ls /\
    items (<[x := mkNode n.(item) None]> h) ls = items h ls.
Proof.
  intros ([Hhd (n & Hn & Hc)] & Ht & Hnd) Hne. apply NoDup_cons in Hnd as [Hx Hnd].
  exists n. unfold Dequeue. rewrite Hhd, Hn. split; [done|]. split; [done|]. split.
  - unfold queue_repr. simpl. split_and!; [by apply chain_insert_notin| |done].
    rewrite Ht. unfold last_loc. by destruct ls.
  - by apply items_insert_notin.
Qed.

(** [Dequeue] of the last node leaves [tail] pointing at it. *)
Lemma Dequeue_last (h : gmap loc Node) queue x :
  queue_repr h queue [x] ->
  exists n, h !! x = Some n /\
    Dequeue h queue = (<[x := mkNode n.(item) None]> h, mkQueue None (Some x), Some x).
Proof.
  intros ([Hhd (n & Hn & Hc)] & Ht & _). exists n. unfold Dequeue.
  rewrite Hhd, Hn. simpl in Hc. rewrite Hc. simpl in Ht. by rewrite Ht.
Qed.

(** C24: A queue emptied by [Dequeue] loses the next node enqueued: [Enqueue]
    links it after the stale [tail] and [head] stays [NULL], so the queue
    still tests empty. *)
Theorem Enqueue_after_drain_lost (h : gmap loc Node) queue x y :
  queue_repr h queue [x] ->
  IsQueueEmpty (snd (Enqueue (fst (fst (Dequeue h queue))) (snd (fst (Dequeue h queue))) y))
  = true.
Proof. intros Hq. destruct (Dequeue_last h queue x Hq) as (n & _ & ->). done. Qed.

(** ** Draining a queue *)

Lemma chain_alter_notin (h : gmap loc Node) p ls t f :
  t ∉ ls -> chain h p ls -> chain (alter f t h) p ls.
Proof.
  revert p. induction ls as [|l ls IH]; intros p Ht Hc; simpl in *; [done|].
  destruct Hc as [-> (n & Hn & Hc)]. apply not_elem_of_cons in Ht as [Hne Ht].
  split; [done|]. exists n. rewrite lookup_alter_ne by done. auto.
Qed.

Lemma queue_repr_insert_notin (h : gmap loc Node) queue ls l n :
  l ∉ ls -> queue_repr h queue ls -> queue_repr (<[l := n]> h) queue ls.
Proof. intros Hl (Hc & Ht & Hnd). split_and!; [by apply chain_insert_notin|done|done]. Qed.

(** [Dequeue] only follows [head]: on a chain of nodes it unlinks the
    first, whatever [tail] holds. *)
Lemma Dequeue_chain (h : gmap loc Node) queue x ls :
  chain h queue.(head) (x :: ls) ->
  exists n, h !! x = Some n /\ chain h n.(next) ls /\
    Dequeue h queue =
      (<[x := mkNode n.(item) None]> h, mkQueue n.(next) queue.(tail), Some x).
Proof.
  intros [Hhd (n & Hn & Hc)]. exists n. split_and!; [done|done|].
  unfold Dequeue. by rewrite Hhd, Hn.
Qed.

(** [Enqueue] touches only the tail node of its queue: chains of other
    nodes and all requests are unchanged. *)
Lemma Enqueue_other_chain (h : gmap loc Node) queue ls_q x p ls :
  queue_repr h queue ls_q -> (forall l, l ∈ ls -> l ∉ ls_q) ->
  chain h p ls -> chain (fst (Enqueue h queue x)) p ls.
Proof.
  intros (_ & Ht & _) Hdis Hc. unfold Enqueue. rewrite Ht.
  destruct (last_loc ls_q) as [t|] eqn:Hlast; [|done]. simpl.
  apply chain_alter_notin; [|done]. intros Hin.
  apply (Hdis t Hin). by apply last_Some_elem_of.
Qed.

Lemma items_Enqueue (h : gmap loc Node) queue x ls :
  items (fst (Enqueue h queue x)) ls = items h ls.
Proof. unfold Enqueue. destruct (tail queue); [apply items_alter_next|done]. Qed.

(** ** Filling a queue *)

Lemma chain_dom (h : gmap loc Node) p ls l :
  chain h p ls -> l ∉ dom h -> l ∉ ls.
Proof. intros Hc Hl Hin. apply Hl, elem_of_dom. by apply (chain_lookup h p ls). Qed.

(** A node allocated by [NewNode] and enqueued at once extends the queue
    by its request. *)
Lemma NewNode_Enqueue (h : gmap loc Node) queue ls it :
  queue_repr h queue ls ->
  let '(h1, l) := NewNode h it in
  queue_repr (fst (Enqueue h1 queue l)) (snd (Enqueue h1 queue l)) (ls ++ [l]) /\
  items (fst (Enqueue h1 queue l)) (ls ++ [l]) = items h ls ++ [it].
Proof.
  intros Hq. unfold NewNode.
  assert (Hl : fresh (dom h) ∉ ls).
  { apply (chain_dom h queue.(head)); [apply Hq | apply is_fresh]. }
  rewrite <- (items_insert_notin h (fresh (dom h)) (mkNode it None) ls Hl).
  apply (Enqueue_repr _ _ _ _ (mkNode it None)); [by apply queue_repr_insert_notin | | done | done].
  apply lookup_insert_eq.
Qed.

(** ** Traversing and freeing a queue *)

Lemma chain_delete_notin (h : gmap loc Node) p ls l :
  l ∉ ls -> chain h p ls -> chain (delete l h) p ls.
Proof.
  revert p. induction ls as [|l' ls IH]; intros p Hl Hc; simpl in *; [done|].
  destruct Hc as [-> (n' & Hn' & Hc)]. apply not_elem_of_cons in Hl as [Hne Hl].
  split; [done|]. exists n'. rewrite lookup_delete_ne by done. auto.
Qed.

(** With fuel for every node, the traversal visits the chain. *)
Lemma queue_walk_chain fuel (h : gmap loc Node) p ls :
  chain h p ls -> (length ls <= fuel)%nat -> queue_walk fuel h p = ls.
Proof.
  revert fuel p. induction ls as [|l ls IH]; intros fuel p Hc Hf; simpl in *.
  - subst p. by destruct fuel.
  - destruct Hc as [-> (n & Hn & Hc)]. destruct fuel as [|fuel]; [lia|]. simpl.
    rewrite Hn, (IH fuel); [done | done | lia].
Qed.

(** [FreeQueue] frees exactly the nodes of the chain. *)
Lemma FreeQueue_chain fuel (h : gmap loc Node) p ls :
  chain h p ls -> NoDup ls -> (length ls <= fuel)%nat ->
  forall l, FreeQueue fuel h p !! l = if decide (l ∈ ls) then None else h !! l.
Proof.
  revert fuel h p. induction ls as [|x ls IH]; intros fuel h p Hc Hnd Hf l; simpl in *.
  - subst p. by destruct fuel.
  - destruct Hc as [-> (n & Hn & Hc)]. apply NoDup_cons in Hnd as [Hx Hnd].
    destruct fuel as [|fuel]; [lia|]. simpl. rewrite Hn.
    rewrite (IH fuel); [| by apply chain_delete_notin | done | lia].
    destruct (decide (l = x)) as [->|Hne].
    + rewrite lookup_delete_eq. repeat case_decide; set_solver.
    + rewrite lookup_delete_ne by done. repeat case_decide; set_solver.
Qed.

(** A chain without repetition has no more nodes than the heap. *)
Lemma chain_length_size (h : gmap loc Node) p ls :
  chain h p ls -> NoDup ls -> (length ls <= size h)%nat.
Proof.
  intros Hc Hnd. rewrite <- (size_list_to_set (C := gset loc) ls) by done.
  rewrite <- size_dom. apply subseteq_size. intros l Hl.
  apply elem_of_list_to_set in Hl. apply elem_of_dom. by apply (chain_lookup h p ls).
Qed.

(** ** The nodes of the heap *)

Lemma Dequeue_dom (h : gmap loc Node) queue : dom (Dequeue h queue).1.1 = dom h.
Proof.
  unfold Dequeue. destruct (head queue) as [hd|]; [|done].
  destruct (h !! hd) eqn:Hhd; [|done]. simpl. rewrite dom_insert_L.
  apply elem_of_dom_2 in Hhd. set_solver.
Qed.

Lemma Enqueue_dom (h : gmap loc Node) queue x : dom (Enqueue h queue x).1 = dom h.
Proof. unfold Enqueue. destruct (tail queue); [apply dom_alter_L | done]. Qed.

Lemma NewNode_dom (h : gmap loc Node) it :
  dom (NewNode h it).1 = dom h ∪ {[ (NewNode h it).2 ]}.
Proof. unfold NewNode. simpl. rewrite dom_insert_L. set_solver. Qed.

Lemma chainb_sound (h : gmap loc Node) p ls : chainb h p ls = true -> chain h p ls.
Proof.
  revert p. induction ls as [|l ls IH]; intros p; simpl.
  - by intros ->%bool_decide_eq_true.
  - intros [->%bool_decide_eq_true Hn]%andb_prop. split; [done|].
    destruct (h !! l) as [n|]; [|done]. exists n. auto.
Qed.

Lemma queue_reprb_sound (h : gmap loc Node) queue ls :
  queue_reprb h queue ls = true -> queue_repr h queue ls.
Proof.
  unfold queue_reprb. intros [[Hc Ht]%andb_prop Hnd]%andb_prop.
  split_and!; [by apply chainb_sound | by apply bool_decide_eq_true in Ht |
               by apply bool_decide_eq_true in Hnd].
Qed.

(** ** Witnesses *)

Lemma Dequeue_spec_witness :
  exists n, demo_heap !! 1%positive = Some n /\
    Dequeue demo_heap demo_queue =
      (<[1%positive := mkNode n.(item) None]> demo_heap, mkQueue n.(next) demo_queue.(tail),
       Some 1%positive) /\
    queue_repr (<[1%positive := mkNode n.(item) None]> demo_heap)
      (mkQueue n.(next) demo_queue.(tail)) [2%positive] /\
    items (<[1%positive := mkNode n.(item) None]> demo_heap) [2%positive]
    = items demo_heap [2%positive].
Proof.
  apply Dequeue_spec; [apply queue_reprb_sound; vm_compute; reflexivity | discriminate].
Defined.

Lemma Enqueue_after_drain_lost_witness :
  IsQueueEmpty
    (snd (Enqueue (fst (fst (Dequeue demo_heap (mkQueue (Some 2%positive) (Some 2%positive)))))
                  (snd (fst (Dequeue demo_heap (mkQueue (Some 2%positive) (Some 2%positive)))))
                  1%positive)) = true.
Proof. apply (Enqueue_after_drain_lost _ _ 2%positive); apply queue_reprb_sound; vm_compute; reflexivity. Defined.
