(* ===== verification/Input.v ===== *)
(** * Input: [ReadFileData], the reader of the reference trace

    [ReadFileData] (lines 211-235) opens the input file, and while
    [fscanf(inputFile, "%d", &pageID) == 1] wraps each integer in a
    [PageRequest] and a [Node] and enqueues it.  The model gives the file
    as its text ([None] when [fopen] fails), the conversion [%d] as the
    scanner [scan_int] of the C library (white space by [isspace], an
    optional sign, one digit or more), and the loop as [ReadFileData_loop]
    on the heap of [Queue].  The scanner consumes one character or more on
    every success, so the text's length plus one is enough fuel
    ([scan_ints_enough]).

    Theorems: the loop builds a queue whose items are the integers of the
    text in order ([ReadFileData_spec]); the text the program itself
    prints for a list of integers reads back as that list
    ([all_ints_render]); and the scan stops at the first token that is not
    an integer ([ReadFileData_stops_at_malformed]). *)

From S2P Require Import Prelude Types Queue.
From stdpp Require Import gmap.
From Stdlib Require Import Ascii DecimalString DecimalPos DecimalZ.
From Equations Require Import Equations.

Local Open Scope Z_scope.

(** ** The conversion [%d] *)

(** [isspace] in the C locale: space, and the characters 9 to 13. *)
Definition is_space (c : ascii) : bool :=
  let n := Ascii.nat_of_ascii c in
  ((n =? 32) || ((9 <=? n) && (n <=? 13)))%nat.

(** The value of a decimal digit. *)
Definition digit_val (c : ascii) : option Z :=
  let n := Ascii.nat_of_ascii c in
  if ((48 <=? n) && (n <=? 57))%nat then Some (Z.of_nat n - 48) else None.

Fixpoint skip_space (s : string) : string :=
  match s with
  | String c s' => if is_space c then skip_space s' else s
  | EmptyString => EmptyString
  end.

(** The digits that follow the first, accumulated in base ten. *)
Fixpoint read_digits (s : string) (acc : Z) : Z * string :=
  match s with
  | String c s' =>
      match digit_val c with
      | Some d => read_digits s' (10 * acc + d)
      | None => (acc, s)
      end
  | EmptyString => (acc, EmptyString)
  end.

(** One digit or more. *)
Definition scan_unsigned (s : string) : option (Z * string) :=
  match s with
  | String c s' =>
      match digit_val c with
      | Some d => Some (read_digits s' d)
      | None => None
      end
  | EmptyString => None
  end.

(** [fscanf(f, "%d", &v)]: [Some (v, rest)] when it returns 1, [None] when
    it returns 0 (no digit) or [EOF] (nothing but white space left). *)
Definition scan_int (s : string) : option (Z * string) :=
  match skip_space s with
  | String c s' =>
      if Ascii.eqb c "-" then
        match scan_unsigned s' with
        | Some (v, r) => Some (- v, r)
        | None => None
        end
      else if Ascii.eqb c "+" then scan_unsigned s'
      else scan_unsigned (String c s')
  | EmptyString => None
  end.

(** The integers [fscanf] returns one after the other, until it fails. *)
Fixpoint scan_ints (fuel : nat) (s : string) : list Z :=
  match fuel with
  | O => []
  | S fuel' =>
      match scan_int s with
      | Some (v, rest) => v :: scan_ints fuel' rest
      | None => []
      end
  end.

Definition all_ints (s : string) : list Z := scan_ints (S (String.length s)) s.

(** ** The loop of [ReadFileData] *)

(** The record [NewPageRequest(pageID)] allocates; its label is not yet
    written. *)
Definition unlabelled (pageID : Z) : PageRequest := NewPageRequest pageID EmptyString.

Fixpoint ReadFileData_loop (fuel : nat) (s : string) (h : gmap loc Node)
    (inputQueue : Queue) : gmap loc Node * Queue :=
  match fuel with
  | O => (h, inputQueue)
  | S fuel' =>
      match scan_int s with
      | Some (pageID, rest) =>
          let '(h1, newNode) := NewNode h (unlabelled pageID) in
          let '(h2, q2) := Enqueue h1 inputQueue newNode in
          ReadFileData_loop fuel' rest h2 q2
      | None => (h, inputQueue)
      end
  end.

(** [ReadFileData]: [None] when the file cannot be opened (line 213). *)
Definition ReadFileData (inputFile : option string) (h : gmap loc Node)
    : option (gmap loc Node * Queue) :=
  match inputFile with
  | None => None
  | Some s => Some (ReadFileData_loop (S (String.length s)) s h NewQueue)
  end.

(** ** The text [printf("%d\n")] writes for a list of integers *)

Fixpoint render (zs : list Z) : string :=
  match zs with
  | [] => EmptyString
  | z :: zs' => String.append (string_of_Z z) (String "010" (render zs'))
  end.

(** ** Termination: every successful scan consumes input *)

(** The value of a decimal numeral read from its most significant digit,
    the way [read_digits] accumulates it. *)
Fixpoint uval (d : Decimal.uint) (acc : Z) : Z :=
  match d with
  | Decimal.Nil => acc
  | Decimal.D0 l => uval l (10 * acc + 0)
  | Decimal.D1 l => uval l (10 * acc + 1)
  | Decimal.D2 l => uval l (10 * acc + 2)
  | Decimal.D3 l => uval l (10 * acc + 3)
  | Decimal.D4 l => uval l (10 * acc + 4)
  | Decimal.D5 l => uval l (10 * acc + 5)
  | Decimal.D6 l => uval l (10 * acc + 6)
  | Decimal.D7 l => uval l (10 * acc + 7)
  | Decimal.D8 l => uval l (10 * acc + 8)
  | Decimal.D9 l => uval l (10 * acc + 9)
  end.

(** The text does not continue with a digit. *)
Definition no_digit_head (s : string) : Prop :=
  match s with String c _ => digit_val c = None | EmptyString => True end.

Lemma read_digits_length s acc :
  (String.length (snd (read_digits s acc)) <= String.length s)%nat.
Proof.
  revert acc. induction s as [|c s IH]; intros acc; simpl; [lia|].
  destruct (digit_val c); simpl; [specialize (IH (10 * acc + z)); lia | lia].
Qed.

Lemma skip_space_length s : (String.length (skip_space s) <= String.length s)%nat.
Proof. induction s as [|c s IH]; simpl; [lia|]. destruct (is_space c); simpl; lia. Qed.

Lemma scan_unsigned_length s v r :
  scan_unsigned s = Some (v, r) -> (String.length r < String.length s)%nat.
Proof.
  destruct s as [|c s]; simpl; [done|].
  destruct (digit_val c) as [d|]; [|done]. intros Hs.
  pose proof (read_digits_length s d) as Hl. injection Hs as Hs. rewrite Hs in Hl. simpl in Hl. lia.
Qed.

Lemma scan_int_length s v r :
  scan_int s = Some (v, r) -> (String.length r < String.length s)%nat.
Proof.
  unfold scan_int. pose proof (skip_space_length s) as Hsk.
  destruct (skip_space s) as [|c s'] eqn:Hs; [done|]. simpl in Hsk.
  destruct (Ascii.eqb c "-").
  - destruct (scan_unsigned s') as [[v' r']|] eqn:Hu; [|done]. intros [= _ <-].
    apply scan_unsigned_length in Hu. lia.
  - destruct (Ascii.eqb c "+"); intros Hu; apply scan_unsigned_length in Hu; simpl in Hu; lia.
Qed.

(** The [while] loop of line 222 without fuel: [fscanf] is called again
    on what it left until it fails, by well-founded recursion on the length
    of the text left ([scan_int_length]); [inspect] keeps the equation of
    the scan for the obligation. *)
Definition inspect {A} (a : A) : {b | a = b} := exist _ a eq_refl.

Equations scan_all (s : string) : list Z by wf (String.length s) lt :=
  scan_all s with inspect (scan_int s) := {
    | exist _ (Some (v, rest)) Hs => v :: scan_all rest;
    | exist _ None _ => []
  }.
Next Obligation. by eapply scan_int_length. Qed.

(** The scan does not depend on the fuel once it exceeds the length of
    the text. *)
Lemma scan_ints_fuel (f1 f2 : nat) s :
  (String.length s < f1)%nat -> (String.length s < f2)%nat -> scan_ints f1 s = scan_ints f2 s.
Proof.
  revert f2 s. induction f1 as [|f1 IH]; intros f2 s H1 H2; [lia|].
  destruct f2 as [|f2]; [lia|]. simpl.
  destruct (scan_int s) as [[v r]|] eqn:Hs; [|done].
  apply scan_int_length in Hs. f_equal. apply IH; lia.
Qed.

Lemma scan_ints_enough fuel s :
  (String.length s < fuel)%nat -> scan_ints fuel s = all_ints s.
Proof. intros H. apply scan_ints_fuel; [done | lia]. Qed.

Lemma all_ints_cons s v r : scan_int s = Some (v, r) -> all_ints s = v :: all_ints r.
Proof.
  intros Hs. unfold all_ints at 1. simpl. rewrite Hs. f_equal.
  apply scan_ints_enough. apply scan_int_length in Hs. lia.
Qed.

Lemma all_ints_nil s : scan_int s = None -> all_ints s = [].
Proof. intros Hs. unfold all_ints. simpl. by rewrite Hs. Qed.

Lemma all_ints_scan_eq s s' : scan_int s = scan_int s' -> all_ints s = all_ints s'.
Proof.
  intros Heq. destruct (scan_int s) as [[v r]|] eqn:Hs.
  - rewrite (all_ints_cons s v r), (all_ints_cons s' v r); done.
  - rewrite !all_ints_nil; done.
Qed.

(** C31: the reading loop terminates on every text: [scan_all], the loop
    without fuel, is defined by well-founded recursion on the length of the
    text left, and any fuel larger than the length of the text computes
    exactly what it computes. *)
Theorem scan_all_terminates (fuel : nat) (s : string) :
  (String.length s < fuel)%nat -> scan_ints fuel s = scan_all s.
Proof.
  intros Hf. rewrite scan_ints_enough by done. clear fuel Hf.
  funelim (scan_all s).
  - rewrite (all_ints_cons s v rest) by done. by f_equal.
  - by apply all_ints_nil.
Qed.

(** ** Reading back the decimal text of an integer *)

Lemma uval_of_uint_acc d acc : Zpos (Pos.of_uint_acc d acc) = uval d (Zpos acc).
Proof.
  revert acc. induction d; intros acc; simpl; rewrite ?IHd; f_equal; lia.
Qed.

Lemma uval_of_uint d : Z.of_uint d = uval d 0.
Proof.
  induction d; [done| exact IHd | ..]; unfold Z.of_uint; simpl;
    rewrite uval_of_uint_acc; done.
Qed.

Lemma read_digits_stop rest acc : no_digit_head rest -> read_digits rest acc = (acc, rest).
Proof. destruct rest as [|c rest]; simpl; [done|]. by intros ->. Qed.

Lemma read_digits_uint d rest acc :
  no_digit_head rest ->
  read_digits (String.append (NilEmpty.string_of_uint d) rest) acc = (uval d acc, rest).
Proof.
  revert acc. induction d; intros acc Hr; simpl; [by apply read_digits_stop | ..];
    apply IHd, Hr.
Qed.

Lemma scan_unsigned_uint d rest :
  d <> Decimal.Nil -> no_digit_head rest ->
  scan_unsigned (String.append (NilEmpty.string_of_uint d) rest) = Some (Z.of_uint d, rest).
Proof.
  intros Hd Hr. rewrite uval_of_uint.
  destruct d; [done | ..]; simpl; rewrite read_digits_uint by done; done.
Qed.

Lemma string_of_Z_pos_uint d : d <> Decimal.Nil ->
  NilZero.string_of_uint d = NilEmpty.string_of_uint d.
Proof. by destruct d. Qed.

(** [scan_int] reads back the text [string_of_Z] prints. *)
Lemma scan_int_string_of_Z z rest :
  no_digit_head rest -> scan_int (String.append (string_of_Z z) rest) = Some (z, rest).
Proof.
  intros Hr. rewrite <- (DecimalZ.of_to z) at 2. unfold string_of_Z.
  destruct (Z.to_int z) as [d|d] eqn:Hz.
  - assert (Hd : d <> Decimal.Nil).
    { destruct z; simpl in Hz; try discriminate; injection Hz as <-;
      [done | apply DecimalPos.Unsigned.to_uint_nonnil]. }
    simpl. rewrite string_of_Z_pos_uint by done.
    destruct d; [done | ..]; unfold scan_int; simpl;
      rewrite <- (scan_unsigned_uint _ rest) by done; reflexivity.
  - assert (Hd : d <> Decimal.Nil).
    { destruct z; simpl in Hz; try discriminate; injection Hz as <-.
      apply DecimalPos.Unsigned.to_uint_nonnil. }
    unfold scan_int. simpl. rewrite string_of_Z_pos_uint, scan_unsigned_uint by done. done.
Qed.

Lemma scan_int_newline s : scan_int (String "010" s) = scan_int s.
Proof. reflexivity. Qed.

Lemma string_append_assoc (a b c : string) :
  String.append (String.append a b) c = String.append a (String.append b c).
Proof. induction a as [|ch a IH]; [done|]. exact (f_equal (String ch) IH). Qed.

Lemma string_append_nil_r (a : string) : String.append a EmptyString = a.
Proof. induction a as [|ch a IH]; [done|]. exact (f_equal (String ch) IH). Qed.

(** The integers printed one per line, followed by any text at which
    [fscanf("%d")] fails, read back as the integers printed. *)
Lemma all_ints_render_app (zs : list Z) (rest : string) :
  scan_int rest = None -> all_ints (String.append (render zs) rest) = zs.
Proof.
  intros Hr. induction zs as [|z zs IH]; [by apply all_ints_nil|]. simpl.
  rewrite string_append_assoc. simpl.
  rewrite (all_ints_cons _ z (String "010" (String.append (render zs) rest)))
    by (by apply scan_int_string_of_Z).
  f_equal. rewrite (all_ints_scan_eq _ (String.append (render zs) rest)); [exact IH | apply scan_int_newline].
Qed.

(** C12: the text the program prints for a list of integers, one per line
    as [printf("%d\n")] writes them, reads back through [fscanf("%d")] as
    the same list. *)
Theorem all_ints_render (zs : list Z) : all_ints (render zs) = zs.
Proof. rewrite <- (string_append_nil_r (render zs)). by apply all_ints_render_app. Qed.

(** ** The loop of [ReadFileData] *)

Lemma ReadFileData_loop_spec fuel s (h : gmap loc Node) inputQueue ls :
  queue_repr h inputQueue ls -> (String.length s < fuel)%nat ->
  exists ls',
    queue_repr (fst (ReadFileData_loop fuel s h inputQueue))
               (snd (ReadFileData_loop fuel s h inputQueue)) (ls ++ ls') /\
    items (fst (ReadFileData_loop fuel s h inputQueue)) (ls ++ ls')
    = items h ls ++ map unlabelled (all_ints s) /\
    dom (fst (ReadFileData_loop fuel s h inputQueue)) = dom h ∪ list_to_set ls'.
Proof.
  revert s h inputQueue ls. induction fuel as [|fuel IH]; intros s h q ls Hq Hf; [lia|].
  cbn [ReadFileData_loop]. destruct (scan_int s) as [[v rest]|] eqn:Hs.
  - pose proof (NewNode_Enqueue h q ls (unlabelled v) Hq) as HE.
    pose proof (NewNode_dom h (unlabelled v)) as Hd1.
    destruct (NewNode h (unlabelled v)) as [h1 l].
    pose proof (Enqueue_dom h1 q l) as Hd2.
    destruct (Enqueue h1 q l) as [h2 q2]. simpl in HE, Hd1, Hd2. destruct HE as [Hq2 Hi2].
    pose proof (scan_int_length _ _ _ Hs) as Hlen.
    destruct (IH rest h2 q2 (ls ++ [l]) Hq2 ltac:(lia)) as (ls' & Hr & Hi & Hd).
    exists (l :: ls'). rewrite <- app_assoc in Hr, Hi. simpl in Hr, Hi. split_and!; [done| |].
    + rewrite Hi, Hi2, (all_ints_cons s v rest Hs), <- app_assoc. done.
    + rewrite Hd, Hd2, Hd1. simpl. set_solver.
  - exists []. rewrite (all_ints_nil s Hs), !app_nil_r. split_and!; [done | done | set_solver].
Qed.

(** C8: [ReadFileData] on a file it can open returns a queue whose nodes
    hold, in order, a request for each integer [fscanf] reads from the
    text, and nothing else. *)
Theorem ReadFileData_spec (s : string) (h : gmap loc Node) :
  exists h' inputQueue ls,
    ReadFileData (Some s) h = Some (h', inputQueue) /\
    queue_repr h' inputQueue ls /\ items h' ls = map unlabelled (all_ints s).
Proof.
  destruct (ReadFileData_loop_spec (S (String.length s)) s h NewQueue [])
    as (ls & Hq & Hi & _); [apply NewQueue_repr | lia |].
  unfold ReadFileData. destruct (ReadFileData_loop _ s h NewQueue) as [h' q].
  simpl in Hq, Hi. by exists h', q, ls.
Qed.

(** C26: [fscanf("%d")] stops at the first token that is not an integer:
    on a text made of integers, one per line, followed by any text at
    which [fscanf] fails (a word, a stray sign, ...), [ReadFileData] builds
    the queue of exactly those integers, and whatever follows, integers
    included, is never read. *)
Theorem ReadFileData_stops_at_malformed (zs : list Z) (rest : string) (h : gmap loc Node) :
  scan_int rest = None ->
  exists h' inputQueue ls,
    ReadFileData (Some (String.append (render zs) rest)) h = Some (h', inputQueue) /\
    queue_repr h' inputQueue ls /\ map page_id (items h' ls) = zs.
Proof.
  intros Hr. set (s := String.append (render zs) rest).
  destruct (ReadFileData_loop_spec (S (String.length s)) s h NewQueue [])
    as (ls & Hq & Hi & _); [apply NewQueue_repr | lia |].
  unfold ReadFileData. destruct (ReadFileData_loop _ s h NewQueue) as [h' q].
  simpl in Hq, Hi. exists h', q, ls. split_and!; [done | done |].
  rewrite Hi, map_map. unfold s. rewrite all_ints_render_app by done. apply map_id.
Qed.

(** ** Witnesses *)

Lemma scan_all_terminates_witness : scan_ints 20 "4 -5 6" = scan_all "4 -5 6".
Proof. apply scan_all_terminates. simpl. lia. Defined.

Lemma ReadFileData_stops_at_malformed_witness :
  exists h' inputQueue ls,
    ReadFileData (Some (String.append (render [3; -4]) " x 5 6")) ∅ = Some (h', inputQueue) /\
    queue_repr h' inputQueue ls /\ map page_id (items h' ls) = [3; -4].
Proof. apply ReadFileData_stops_at_malformed. reflexivity. Defined.
