(* ===== verification/Cli.v ===== *)
(** * Cli: [CheckAndInitialiseInput], the command line

    [CheckAndInitialiseInput] (lines 184-209) checks [argc == 5], turns
    [argv[1]] to lower case in place, reads the number of frames with
    [atoi(argv[2])], rejects a number below 1 and then a name other than
    "fifo" and "lru".  The model takes [argv] as a list of strings
    ([argc] is its length) and returns the result with the state the
    function leaves: the updated [argv] and the two out-parameters, [None]
    where the code does not write them.  [atoi] is [strtol] in base ten,
    the scanner of [Input] with 0 where no digit follows.

    Theorems: an accepted command line carries a recognised policy and at
    least one frame, the contract [spec.md] puts on this layer
    ([CheckAndInitialiseInput_sound]); the policy name is matched without
    regard to case; a frame count with trailing text is accepted. *)

From S2P Require Import Prelude Types Input.
From Stdlib Require Import Ascii.

Local Open Scope Z_scope.

(** [tolower] in the C locale. *)
Definition tolower (c : ascii) : ascii :=
  let n := Ascii.nat_of_ascii c in
  if ((65 <=? n) && (n <=? 90))%nat then Ascii.ascii_of_nat (n + 32) else c.

(** The loop of lines 189-191. *)
Fixpoint lower (s : string) : string :=
  match s with
  | String c s' => String (tolower c) (lower s')
  | EmptyString => EmptyString
  end.

(** [atoi]: the integer [strtol] reads after white space, 0 if none. *)
Definition atoi (s : string) : Z :=
  match scan_int s with
  | Some (v, _) => v
  | None => 0
  end.

(** What [CheckAndInitialiseInput] leaves: its result, [argv] and the
    out-parameters, and the error line it printed. *)
Record CliState := mkCliState {
  cli_ok : bool;
  cli_argv : list string;
  algorithmToCall : option PageReplacementAlgorithms;
  totalFrames : option Z;
  cli_message : string
}.

Definition MSG_ARGC : string := "Error! Invalid number of command arguments! ".
Definition MSG_FRAMES : string := "Error! Memory frames can't be less than 1".
Definition MSG_ALGORITHM : string := "Error! Invalid algorithm call please use 'LRU' or 'FIFO'! ".

Definition CheckAndInitialiseInput (argv : list string) : CliState :=
  if negb (Nat.eqb (length argv) 5) then mkCliState false argv None None MSG_ARGC
  else
    let argv1 := lower (nth 1 argv EmptyString) in
    let argv' := <[1%nat := argv1]> argv in
    let frames := atoi (nth 2 argv EmptyString) in
    if frames <? 1 then mkCliState false argv' None (Some frames) MSG_FRAMES
    else if String.eqb argv1 "fifo" then mkCliState true argv' (Some FIFO) (Some frames) EmptyString
    else if String.eqb argv1 "lru" then mkCliState true argv' (Some LRU) (Some frames) EmptyString
    else mkCliState false argv' None (Some frames) MSG_ALGORITHM.

(** The policy a lower-case name selects. *)
Definition policy_of_name (name : string) : option PageReplacementAlgorithms :=
  if String.eqb name "fifo" then Some FIFO
  else if String.eqb name "lru" then Some LRU
  else None.

(** ** Case-insensitive matching, stated without [tolower] *)

Definition is_lower_letter (d : ascii) : bool :=
  ((97 <=? Ascii.nat_of_ascii d) && (Ascii.nat_of_ascii d <=? 122))%nat.

(** [c] is the lower-case letter [d] or the upper-case letter 32 code
    points below it. *)
Definition ci_char (c d : ascii) : bool :=
  Ascii.eqb c d ||
  (is_lower_letter d && Nat.eqb (Ascii.nat_of_ascii c + 32) (Ascii.nat_of_ascii d)).

(** [s] spells the lower-case word [w] in any mix of cases. *)
Fixpoint matches_ci (s w : string) : bool :=
  match s, w with
  | EmptyString, EmptyString => true
  | String c s', String d w' => ci_char c d && matches_ci s' w'
  | _, _ => false
  end.

Fixpoint all_lower (w : string) : bool :=
  match w with
  | EmptyString => true
  | String d w' => is_lower_letter d && all_lower w'
  end.

Definition all_ascii : list ascii := map Ascii.ascii_of_nat (seq 0 256).

(** The state an accepted command line leaves. *)
Lemma CheckAndInitialiseInput_accepted (argv : list string) :
  (CheckAndInitialiseInput argv).(cli_ok) = true ->
  length argv = 5%nat /\ 1 <= atoi (nth 2 argv EmptyString) /\
  is_Some (policy_of_name (lower (nth 1 argv EmptyString))) /\
  CheckAndInitialiseInput argv =
    mkCliState true (<[1%nat := lower (nth 1 argv EmptyString)]> argv)
      (policy_of_name (lower (nth 1 argv EmptyString)))
      (Some (atoi (nth 2 argv EmptyString))) EmptyString.
Proof.
  unfold CheckAndInitialiseInput, policy_of_name.
  destruct (Nat.eqb_spec (length argv) 5) as [Hl|Hl]; [|done]. simpl.
  destruct (Z.ltb_spec (atoi (nth 2 argv EmptyString)) 1); [done|].
  destruct (String.eqb (lower (nth 1 argv EmptyString)) "fifo"); [by eauto|].
  destruct (String.eqb (lower (nth 1 argv EmptyString)) "lru"); [by eauto | done].
Qed.

(** C13: a command line [CheckAndInitialiseInput] accepts has five words,
    names a policy in any case, and asks for at least one frame; the
    out-parameters hold that policy and that number, and the file names
    are left as given. *)
Theorem CheckAndInitialiseInput_sound (argv : list string) :
  (CheckAndInitialiseInput argv).(cli_ok) = true ->
  exists alg n,
    length argv = 5%nat /\
    policy_of_name (lower (nth 1 argv EmptyString)) = Some alg /\
    n = atoi (nth 2 argv EmptyString) /\ 1 <= n /\
    (CheckAndInitialiseInput argv).(algorithmToCall) = Some alg /\
    (CheckAndInitialiseInput argv).(totalFrames) = Some n /\
    nth 3 (CheckAndInitialiseInput argv).(cli_argv) EmptyString = nth 3 argv EmptyString /\
    nth 4 (CheckAndInitialiseInput argv).(cli_argv) EmptyString = nth 4 argv EmptyString.
Proof.
  intros Hok. destruct (CheckAndInitialiseInput_accepted argv Hok) as (Hl & Hn & [alg Halg] & ->).
  exists alg, (atoi (nth 2 argv EmptyString)). simpl. rewrite !nth_insert_ne by lia.
  split_and!; done.
Qed.

(** ** Lemmas on [tolower] *)

Lemma all_ascii_complete (c : ascii) : c ∈ all_ascii.
Proof.
  unfold all_ascii. rewrite <- (Ascii.ascii_nat_embedding c), list_elem_of_In.
  apply in_map, in_seq. pose proof (Ascii.nat_ascii_bounded c). lia.
Qed.

(** [tolower c] is the lower-case letter [d] exactly when [c] is [d] in
    either case: checked on all 256 characters and 256 letters. *)
Lemma tolower_ci_table :
  forallb (fun c => forallb (fun d =>
    implb (is_lower_letter d) (Bool.eqb (Ascii.eqb (tolower c) d) (ci_char c d)))
    all_ascii) all_ascii = true.
Proof. vm_compute. reflexivity. Qed.

Lemma tolower_ci (c d : ascii) :
  is_lower_letter d = true -> Ascii.eqb (tolower c) d = ci_char c d.
Proof.
  intros Hd. pose proof tolower_ci_table as Ht.
  rewrite forallb_forall in Ht. specialize (Ht c). rewrite <- list_elem_of_In in Ht.
  specialize (Ht (all_ascii_complete c)). rewrite forallb_forall in Ht.
  specialize (Ht d). rewrite <- list_elem_of_In in Ht.
  specialize (Ht (all_ascii_complete d)). rewrite Hd in Ht. simpl in Ht.
  by apply eqb_prop in Ht.
Qed.

(** Comparing [lower s] with a lower-case word is matching [s] without
    regard to case. *)
Lemma lower_matches_ci (s w : string) :
  all_lower w = true -> String.eqb (lower s) w = matches_ci s w.
Proof.
  revert w. induction s as [|c s IH]; intros [|d w] Hw; try done.
  simpl in Hw. apply andb_prop in Hw as [Hd Hw].
  cbn [lower matches_ci String.eqb]. by rewrite tolower_ci, IH.
Qed.

Lemma matches_ci_length (s w : string) :
  matches_ci s w = true -> String.length s = String.length w.
Proof.
  revert w. induction s as [|c s IH]; intros [|d w]; simpl; try done.
  intros [_ H]%andb_prop. by rewrite (IH w H).
Qed.

(** [atoi] reads the integer [printf("%d")] writes, and stops at the
    first character that is not a digit. *)
Lemma atoi_prefix (k : Z) (rest : string) :
  no_digit_head rest -> atoi (String.append (string_of_Z k) rest) = k.
Proof. intros Hr. unfold atoi. by rewrite scan_int_string_of_Z. Qed.

(** C29: the policy name is matched without regard to case: the command
    line selects FIFO exactly when it has five words, at least one frame,
    and [argv[1]] spells "fifo" in any mix of cases, and LRU likewise with
    "lru". *)
Theorem CheckAndInitialiseInput_case_insensitive (argv : list string) :
  ((CheckAndInitialiseInput argv).(algorithmToCall) = Some FIFO <->
     length argv = 5%nat /\ 1 <= atoi (nth 2 argv EmptyString) /\
     matches_ci (nth 1 argv EmptyString) "fifo" = true) /\
  ((CheckAndInitialiseInput argv).(algorithmToCall) = Some LRU <->
     length argv = 5%nat /\ 1 <= atoi (nth 2 argv EmptyString) /\
     matches_ci (nth 1 argv EmptyString) "lru" = true).
Proof.
  unfold CheckAndInitialiseInput.
  rewrite !lower_matches_ci by reflexivity.
  destruct (Nat.eqb_spec (length argv) 5) as [Hl|Hl]; simpl; [|naive_solver].
  destruct (Z.ltb_spec (atoi (nth 2 argv EmptyString)) 1) as [Ha|Ha]; simpl; [split; split; intros; (discriminate || lia)|].
  destruct (matches_ci (nth 1 argv EmptyString) "fifo") eqn:Hf;
    destruct (matches_ci (nth 1 argv EmptyString) "lru") eqn:Hr; simpl;
    try (split; split; intros; (done || naive_solver)).
  apply matches_ci_length in Hf, Hr. rewrite Hf in Hr. discriminate.
Qed.

(** C30: [atoi] accepts a frame count followed by other text: when
    [argv[2]] is the decimal text of [k] followed by text that does not
    start with a digit ("3abc", "2.5"), the frame count is [k]; the line
    is accepted exactly when [k >= 1] and the name is a policy, and
    otherwise [k < 1] is reported as too few frames. *)
Theorem CheckAndInitialiseInput_atoi_prefix (argv : list string) (k : Z) (rest : string) :
  length argv = 5%nat -> no_digit_head rest ->
  nth 2 argv EmptyString = String.append (string_of_Z k) rest ->
  (CheckAndInitialiseInput argv).(totalFrames) = Some k /\
  ((CheckAndInitialiseInput argv).(cli_ok) = true <->
     1 <= k /\ is_Some (policy_of_name (lower (nth 1 argv EmptyString)))) /\
  (k < 1 -> (CheckAndInitialiseInput argv).(cli_message) = MSG_FRAMES).
Proof.
  intros Hl Hr H2. unfold CheckAndInitialiseInput, policy_of_name.
  rewrite H2, atoi_prefix, Hl by done. simpl.
  destruct (Z.ltb_spec k 1) as [Hk|Hk]; simpl.
  - split_and!; [done | split; [done | lia] | done].
  - split_and!; [| | lia];
      destruct (String.eqb (lower (nth 1 argv EmptyString)) "fifo"),
               (String.eqb (lower (nth 1 argv EmptyString)) "lru"); simpl; try done;
      split; intros; try done; (destruct H as [_ [? ?]] || idtac); done.
Qed.

Lemma CheckAndInitialiseInput_atoi_prefix_witness :
  (CheckAndInitialiseInput ["pr"; "Fifo"; "3abc"; "in"; "out"]).(totalFrames) = Some 3 /\
  ((CheckAndInitialiseInput ["pr"; "Fifo"; "3abc"; "in"; "out"]).(cli_ok) = true <->
     1 <= 3 /\ is_Some (policy_of_name (lower (nth 1 ["pr"; "Fifo"; "3abc"; "in"; "out"] EmptyString)))) /\
  (3 < 1 -> (CheckAndInitialiseInput ["pr"; "Fifo"; "3abc"; "in"; "out"]).(cli_message) = MSG_FRAMES).
Proof. apply (CheckAndInitialiseInput_atoi_prefix _ 3 "abc"); reflexivity. Defined.
