(* ===== verification/Frames.v ===== *)
(** * Frames: the frame array [SimNode* simulationQueue]

    Both simulators keep the frames in a malloc'd array of [totalFrames]
    [SimNode]s; the model is a [list SimNode] whose length is
    [totalFrames] (the [size] argument of every C helper is the length of
    the list).  This file holds the loops over the array: [IsSimFull] and
    [SimContains] (lines 136-152), the first-free insertion loop shared by
    both simulators (lines 266-271 and 313-318), the hit-counter loop of
    [SimulateLRU] (lines 298-303) and [SortByTimesRequested]
    (lines 154-171), with the well-formedness invariant of the array
    ([frames_wf]) and the lemmas that each loop preserves it. *)

From S2P Require Import Prelude Types.

Local Open Scope Z_scope.
Local Open Scope page_scope.

(** ** The loops *)

(** [IsSimFull] (lines 136-143): false at the first free slot. *)
Fixpoint IsSimFull (head : list SimNode) : bool :=
  match head with
  | [] => true
  | s :: rest => if Z.eqb s.(id) FREE then false else IsSimFull rest
  end.

(** [SimContains] (lines 145-152): true at the first slot holding [x].
    A free slot holds the id [-1], so [SimContains head -1] is true as
    soon as a slot is free. *)
Fixpoint SimContains (head : list SimNode) (x : Z) : bool :=
  match head with
  | [] => false
  | s :: rest => if Z.eqb s.(id) x then true else SimContains rest x
  end.

(** The insertion loop of lines 266-271 (and 313-318): the first free slot
    receives the id, its [timesRequested] is left as it was. *)
Fixpoint insert_first_free (head : list SimNode) (x : Z) : list SimNode :=
  match head with
  | [] => []
  | s :: rest =>
      if Z.eqb s.(id) FREE then set_id x s :: rest
      else s :: insert_first_free rest x
  end.

(** The hit loop of [SimulateLRU] (lines 298-303): the first slot holding
    [x] has its counter incremented. *)
Fixpoint bump_first (head : list SimNode) (x : Z) : list SimNode :=
  match head with
  | [] => []
  | s :: rest =>
      if Z.eqb s.(id) x then mkSimNode s.(id) (s.(timesRequested) + 1) :: rest
      else s :: bump_first rest x
  end.

(** The scan of lines 155-162 over the slots [i = 1 .. size-1]: [rest] is
    the array from index [i] on, [(minT, minPos)] the running minimum.  A
    slot replaces the minimum only when its counter is strictly smaller
    and it is not free. *)
Fixpoint min_scan (rest : list SimNode) (i : nat) (minT : Z) (minPos : nat)
  : Z * nat :=
  match rest with
  | [] => (minT, minPos)
  | s :: rest' =>
      if (s.(timesRequested) <? minT) && negb (Z.eqb s.(id) FREE)
      then min_scan rest' (S i) s.(timesRequested) i
      else min_scan rest' (S i) minT minPos
  end.

(** [SortByTimesRequested] (lines 154-171): the slot found by the scan is
    swapped with slot 0 (both fields are copied, so the whole slot moves).
    The code reads [head->timesRequested] first, so it requires
    [size >= 1]; the model returns the empty array unchanged. *)
Definition SortByTimesRequested (head : list SimNode) : list SimNode :=
  match head with
  | [] => []
  | h :: rest =>
      let '(_, minPos) := min_scan rest 1 h.(timesRequested) 0 in
      if Nat.eqb minPos 0 then head
      else match head !! minPos with
           | Some m => <[minPos := h]> (<[0%nat := m]> head)
           | None => head
           end
  end.

(** ** The abstraction: the residents in slot order *)

(** The slots holding a page, in slot order. *)
Definition occupied (head : list SimNode) : list SimNode :=
  List.filter (fun s => negb (is_free s)) head.

Definition residents (head : list SimNode) : list Z := map id (occupied head).

(** Free slots form a suffix of the array: no page is ever stored after a
    free slot.  Both insertion loops fill the first free slot, so the
    occupied slots are a prefix. *)
Fixpoint free_suffix (head : list SimNode) : bool :=
  match head with
  | [] => true
  | s :: rest => if is_free s then forallb is_free rest else free_suffix rest
  end.

(** The invariant of the frame array of [totalFrames] slots. *)
Definition frames_wf (n : nat) (head : list SimNode) : Prop :=
  length head = n /\ free_suffix head = true /\ NoDup (residents head).

(** The array [SimulateFIFO] and [SimulateLRU] allocate, with every id set
    to [-1] (lines 244-246 and 288-291); [SimulateLRU] also sets the
    counters to 0 and [SimulateFIFO] never reads them. *)
Definition empty_frames (n : nat) : list SimNode := replicate n (mkSimNode FREE 0).

(** ** Lemmas on the loops *)

(** An array whose slots all hold pages. *)
Definition all_resident (l : list SimNode) : Prop := Forall (fun z => z <> FREE) (map id l).

Lemma occupied_cons (s : SimNode) l :
  occupied (s :: l) = if is_free s then occupied l else s :: occupied l.
Proof. unfold occupied. simpl. by destruct (is_free s). Qed.

Lemma forallb_free_occupied (l : list SimNode) :
  forallb is_free l = true -> occupied l = [].
Proof.
  induction l as [|s l IH]; [done|].
  intros H. simpl in H. apply andb_prop in H as [Hs Hl].
  rewrite occupied_cons, Hs. by apply IH.
Qed.

Lemma forallb_free_residents (l : list SimNode) :
  forallb is_free l = true -> residents l = [].
Proof. intros H. unfold residents. by rewrite forallb_free_occupied. Qed.

Lemma forallb_free_suffix (l : list SimNode) :
  forallb is_free l = true -> free_suffix l = true.
Proof.
  induction l as [|s l IH]; simpl; [done|].
  intros [-> Hl]%andb_prop. done.
Qed.

Lemma residents_cons (s : SimNode) l :
  residents (s :: l) = if is_free s then residents l else s.(id) :: residents l.
Proof. unfold residents. rewrite occupied_cons. by destruct (is_free s). Qed.

Lemma residents_length (l : list SimNode) : (length (residents l) <= length l)%nat.
Proof.
  induction l as [|s l IH]; [simpl; lia|].
  rewrite residents_cons. destruct (is_free s); simpl; lia.
Qed.

Lemma is_free_set_id x s : x <> FREE -> is_free (set_id x s) = false.
Proof. intros Hx. unfold is_free, set_id. simpl. by apply Z.eqb_neq. Qed.

Lemma is_free_mk x c : x <> FREE -> is_free (mkSimNode x c) = false.
Proof. intros Hx. unfold is_free. simpl. by apply Z.eqb_neq. Qed.

#[export] Hint Resolve forallb_free_residents forallb_free_suffix
  residents_length is_free_set_id is_free_mk : page.

(** [IsSimFull] is true exactly when every slot holds a page. *)
Lemma IsSimFull_residents (l : list SimNode) :
  IsSimFull l = true <-> length (residents l) = length l.
Proof.
  induction l as [|s l IH]; simpl; [done|].
  rewrite residents_cons. unfold is_free.
  destruct (Z.eqb_spec (id s) FREE); simpl.
  - split; [done|]. pose proof (residents_length l). lia.
  - rewrite IH. lia.
Qed.

(** [SimContains] finds any id stored in the array, [-1] included. *)
Lemma SimContains_ids (l : list SimNode) x :
  SimContains l x = true <-> x ∈ map id l.
Proof.
  induction l as [|s l IH]; simpl.
  - split; [done|]. intros Hx. by apply elem_of_nil in Hx.
  - rewrite elem_of_cons, <- IH. case_zeq; naive_solver.
Qed.

(** [SimContains head -1] finds a free slot: it is true exactly when the
    array is not full. *)
Lemma SimContains_FREE (l : list SimNode) : SimContains l FREE = negb (IsSimFull l).
Proof. induction l as [|s l IH]; simpl; [done|]. by destruct (Z.eqb (id s) FREE). Qed.

(** For a page id other than [-1], [SimContains] is residency. *)
Lemma SimContains_residents (l : list SimNode) x :
  x <> FREE -> SimContains l x = true <-> x ∈ residents l.
Proof.
  intros Hx. induction l as [|s l IH]; simpl.
  - split; [done|]. intros H. by apply elem_of_nil in H.
  - rewrite residents_cons. unfold is_free.
    destruct (Z.eqb_spec (id s) FREE) as [Hf|Hf];
      destruct (Z.eqb_spec (id s) x); try congruence;
      rewrite ?elem_of_cons; naive_solver.
Qed.

(** The insertion loop writes the page into a free slot [f] and appends
    it to the occupied slots, when the array has a free slot and its free
    slots form a suffix. *)
Lemma insert_first_free_occupied (l : list SimNode) x :
  x <> FREE -> free_suffix l = true -> IsSimFull l = false ->
  exists f, f ∈ l /\ is_free f = true /\
    occupied (insert_first_free l x) = occupied l ++ [set_id x f] /\
    free_suffix (insert_first_free l x) = true.
Proof.
  intros Hx. induction l as [|s l IH]; [done|]. intros Hsuf Hfull.
  cbn [insert_first_free IsSimFull free_suffix] in *.
  change (Z.eqb (id s) FREE) with (is_free s) in *.
  destruct (is_free s) eqn:Hfs.
  - exists s. split_and!; [by left | done | |].
    + rewrite !occupied_cons, is_free_set_id, Hfs by done.
      by rewrite !forallb_free_occupied by done.
    + cbn [free_suffix]. rewrite is_free_set_id by done. auto with page.
  - destruct (IH Hsuf Hfull) as (f & Hin & Hff & Hocc & Hsuf').
    exists f. split_and!; [by right | done | |].
    + rewrite !occupied_cons, Hfs, Hocc. done.
    + cbn [free_suffix]. by rewrite Hfs.
Qed.

(** The insertion loop appends the page to the residents. *)
Lemma insert_first_free_residents (l : list SimNode) x :
  x <> FREE -> free_suffix l = true -> IsSimFull l = false ->
  residents (insert_first_free l x) = residents l ++ [x] /\
  free_suffix (insert_first_free l x) = true.
Proof.
  intros Hx Hsuf Hfull.
  destruct (insert_first_free_occupied l x Hx Hsuf Hfull) as (f & _ & _ & Hocc & Hsuf').
  unfold residents. by rewrite Hocc, map_app.
Qed.

Lemma length_insert_first_free (l : list SimNode) x :
  length (insert_first_free l x) = length l.
Proof. induction l as [|s l IH]; simpl; [done|]. case_zeq; simpl; congruence. Qed.

Lemma length_bump_first (l : list SimNode) x :
  length (bump_first l x) = length l.
Proof. induction l as [|s l IH]; simpl; [done|]. case_zeq; simpl; congruence. Qed.

(** The hit loop changes no id. *)
Lemma bump_first_ids (l : list SimNode) x :
  map id (bump_first l x) = map id l.
Proof. induction l as [|s l IH]; simpl; [done|]. case_zeq; simpl; congruence. Qed.

#[export] Hint Rewrite length_insert_first_free length_bump_first bump_first_ids
  : page_rw.

Lemma IsSimFull_all_resident (l : list SimNode) :
  IsSimFull l = true <-> all_resident l.
Proof.
  unfold all_resident. induction l as [|s l IH]; simpl.
  - split; constructor.
  - rewrite Forall_cons, <- IH. case_zeq; naive_solver.
Qed.

Lemma residents_all_resident (l : list SimNode) :
  all_resident l -> residents l = map id l.
Proof.
  unfold all_resident. induction l as [|s l IH]; simpl; [done|].
  intros [Hs Hl]%Forall_cons. rewrite residents_cons. unfold is_free.
  destruct (Z.eqb_spec (id s) FREE); [done|]. by rewrite IH.
Qed.

Lemma free_suffix_all_resident (l : list SimNode) :
  all_resident l -> free_suffix l = true.
Proof.
  unfold all_resident. induction l as [|s l IH]; simpl; [done|].
  intros [Hs Hl]%Forall_cons. unfold is_free.
  destruct (Z.eqb_spec (id s) FREE); [done|]. by apply IH.
Qed.

#[export] Hint Resolve residents_all_resident free_suffix_all_resident : page.

Lemma empty_frames_free n : forallb is_free (empty_frames n) = true.
Proof. unfold empty_frames. induction n as [|n IH]; simpl; [done|]. by rewrite IH. Qed.

Lemma residents_empty_frames n : residents (empty_frames n) = [].
Proof. apply forallb_free_residents, empty_frames_free. Qed.

Lemma empty_frames_wf n : frames_wf n (empty_frames n).
Proof.
  unfold frames_wf. split_and!.
  - apply length_replicate.
  - apply forallb_free_suffix, empty_frames_free.
  - rewrite residents_empty_frames. constructor.
Qed.

#[export] Hint Resolve empty_frames_wf : page.

(** ** [SortByTimesRequested] *)

(** The scan returns a minimum no larger than the one it started with,
    below every resident counter it passed, and either the initial pair
    or the position of a resident holding it. *)
Lemma min_scan_spec (rest : list SimNode) i minT minPos :
  let '(mT, mP) := min_scan rest i minT minPos in
  mT <= minT /\
  (forall s, s ∈ rest -> is_free s = false -> mT <= s.(timesRequested)) /\
  ((mT, mP) = (minT, minPos) \/
   exists k m, rest !! k = Some m /\ is_free m = false /\
               mT = m.(timesRequested) /\ mP = (i + k)%nat).
Proof.
  revert i minT minPos.
  induction rest as [|s rest IH]; intros i minT minPos; simpl.
  - split; [lia|]. split; [|by left]. intros ? Hin. by apply elem_of_nil in Hin.
  - destruct ((timesRequested s <? minT) && negb (id s =? FREE)) eqn:Hc.
    + apply andb_prop in Hc as [Hlt Hnf].
      apply Z.ltb_lt in Hlt. apply negb_true_iff, Z.eqb_neq in Hnf.
      pose proof (IH (S i) (timesRequested s) i) as HI.
      destruct (min_scan rest (S i) (timesRequested s) i) as [mT mP].
      destruct HI as (Hle & Hmin & Hcase).
      split; [lia|]. split.
      * intros s' [->|Hs']%elem_of_cons Hf'; [lia | by apply Hmin].
      * right. destruct Hcase as [Heq | (k & m & Hk & Hm & -> & ->)].
        -- injection Heq as -> ->. exists 0%nat, s.
           split_and!; [done | by apply Z.eqb_neq | done | lia].
        -- exists (S k), m. split_and!; [done | done | done | lia].
    + pose proof (IH (S i) minT minPos) as HI.
      destruct (min_scan rest (S i) minT minPos) as [mT mP].
      destruct HI as (Hle & Hmin & Hcase).
      split; [lia|]. split.
      * intros s' [->|Hs']%elem_of_cons Hf'; [|by apply Hmin].
        apply andb_false_iff in Hc as [Hc|Hc].
        -- apply Z.ltb_ge in Hc. lia.
        -- unfold is_free in Hf'. rewrite Hf' in Hc. done.
      * destruct Hcase as [Heq | (k & m & Hk & Hm & -> & ->)]; [by left|].
        right. exists (S k), m. split_and!; [done | done | done | lia].
Qed.

(** The two outcomes of [SortByTimesRequested]: the array is unchanged and
    slot 0 has the least counter among the resident slots after it, or a
    resident slot [1 + k] whose counter is least among the slots after 0
    and not larger than slot 0's is swapped with slot 0. *)
Lemma SortByTimesRequested_cases (h : SimNode) rest :
  (SortByTimesRequested (h :: rest) = h :: rest /\
   forall s, s ∈ rest -> is_free s = false -> h.(timesRequested) <= s.(timesRequested))
  \/
  (exists k m, rest !! k = Some m /\ is_free m = false /\
     m.(timesRequested) <= h.(timesRequested) /\
     (forall s, s ∈ rest -> is_free s = false -> m.(timesRequested) <= s.(timesRequested)) /\
     SortByTimesRequested (h :: rest) = m :: <[k := h]> rest).
Proof.
  unfold SortByTimesRequested.
  pose proof (min_scan_spec rest 1 (timesRequested h) 0) as HS.
  destruct (min_scan rest 1 _ _) as [mT mP].
  destruct HS as (Hle & Hmin & [Heq | (k & m & Hk & Hm & -> & ->)]).
  - injection Heq as -> ->. left. split; [done|]. intros s Hs Hf. by apply Hmin.
  - right. exists k, m. simpl. rewrite Hk. repeat split; auto.
Qed.

(** Swapping a slot [1 + k] with slot 0 permutes the array. *)
Lemma swap_head_perm {A} (h m : A) rest k :
  rest !! k = Some m -> m :: <[k := h]> rest ≡ₚ h :: rest.
Proof.
  intros Hk. pose proof (lookup_lt_Some _ _ _ Hk) as Hlt.
  rewrite insert_take_drop by done.
  transitivity (h :: take k rest ++ m :: drop (S k) rest).
  - rewrite <- !Permutation_middle. apply perm_swap.
  - by rewrite take_drop_middle.
Qed.

Lemma occupied_perm (l l' : list SimNode) :
  l ≡ₚ l' -> occupied l ≡ₚ occupied l'.
Proof.
  induction 1 as [|s l l' _ IH|s t l|l l' l'' _ IH1 _ IH2].
  - done.
  - rewrite !occupied_cons. destruct (is_free s); [done|]. by constructor.
  - rewrite !occupied_cons. destruct (is_free s), (is_free t); try done.
    constructor.
  - by rewrite IH1.
Qed.

Lemma residents_perm (l l' : list SimNode) :
  l ≡ₚ l' -> residents l ≡ₚ residents l'.
Proof. intros H. by apply Permutation_map, occupied_perm. Qed.

Lemma SortByTimesRequested_perm (l : list SimNode) :
  SortByTimesRequested l ≡ₚ l.
Proof.
  destruct l as [|h rest]; [done|].
  destruct (SortByTimesRequested_cases h rest)
    as [[-> _] | (k & m & Hk & _ & _ & _ & ->)]; [done|].
  by apply swap_head_perm.
Qed.

Lemma length_SortByTimesRequested (l : list SimNode) :
  length (SortByTimesRequested l) = length l.
Proof. apply Permutation_length, SortByTimesRequested_perm. Qed.

#[export] Hint Rewrite length_SortByTimesRequested : page_rw.
#[export] Hint Resolve SortByTimesRequested_perm occupied_perm residents_perm : page.

(** After [SortByTimesRequested], slot 0 holds a counter no larger than
    the counter of any resident slot. *)
Lemma SortByTimesRequested_min (l : list SimNode) s0 rest' :
  SortByTimesRequested l = s0 :: rest' ->
  forall s, s ∈ rest' -> is_free s = false ->
  s0.(timesRequested) <= s.(timesRequested).
Proof.
  destruct l as [|h rest]; [done|].
  destruct (SortByTimesRequested_cases h rest)
    as [[-> Hmin] | (k & m & Hk & Hm & Hmh & Hmin & ->)];
    intros Heq; injection Heq as <- <-; [done|].
  intros s Hs Hf.
  assert (Hin : s ∈ h :: rest).
  { rewrite <- (swap_head_perm h m rest k Hk). by apply elem_of_cons; right. }
  apply elem_of_cons in Hin as [->|Hin]; [done|]. by apply Hmin.
Qed.

Lemma forallb_free_lookup (l : list SimNode) k a :
  forallb is_free l = true -> l !! k = Some a -> is_free a = true.
Proof.
  rewrite forallb_forall. intros Hall Hk. apply Hall, list_elem_of_In.
  by eapply list_elem_of_lookup_2.
Qed.

(** Writing a page over a page keeps the free slots a suffix. *)
Lemma free_suffix_insert (l : list SimNode) k a b :
  free_suffix l = true -> l !! k = Some a -> is_free a = false ->
  is_free b = false -> free_suffix (<[k := b]> l) = true.
Proof.
  revert k. induction l as [|s l IH]; intros [|k] Hsuf Hk Ha Hb; try done; simpl in *.
  - injection Hk as ->. by rewrite Ha, Hb in *.
  - destruct (is_free s) eqn:Hs.
    + pose proof (forallb_free_lookup _ _ _ Hsuf Hk). congruence.
    + by apply IH.
Qed.

Lemma SortByTimesRequested_free_suffix (l : list SimNode) :
  free_suffix l = true -> free_suffix (SortByTimesRequested l) = true.
Proof.
  destruct l as [|h rest]; [done|].
  destruct (SortByTimesRequested_cases h rest)
    as [[-> _] | (k & m & Hk & Hm & _ & _ & ->)]; [done|].
  simpl. intros Hsuf. rewrite Hm.
  destruct (is_free h) eqn:Hh.
  - pose proof (forallb_free_lookup _ _ _ Hsuf Hk). congruence.
  - by apply free_suffix_insert with m.
Qed.

(** [SortByTimesRequested] preserves the invariant of the array. *)
Lemma SortByTimesRequested_wf n (l : list SimNode) :
  frames_wf n l -> frames_wf n (SortByTimesRequested l).
Proof.
  intros (Hlen & Hsuf & Hnd). split_and!.
  - by rewrite length_SortByTimesRequested.
  - by apply SortByTimesRequested_free_suffix.
  - by rewrite (residents_perm _ _ (SortByTimesRequested_perm l)).
Qed.

(** C18: [SortByTimesRequested] only reorders the array: its result is a
    permutation of the array of the same length, and slot 0 of the result
    holds a counter no larger than the counter of any resident slot. *)
Theorem SortByTimesRequested_spec (l : list SimNode) :
  SortByTimesRequested l ≡ₚ l /\ length (SortByTimesRequested l) = length l :> nat /\
  forall s0 rest', SortByTimesRequested l = s0 :: rest' ->
  forall s, s ∈ rest' -> is_free s = false -> s0.(timesRequested) <= s.(timesRequested).
Proof.
  split_and!; [apply SortByTimesRequested_perm | apply length_SortByTimesRequested |].
  apply SortByTimesRequested_min.
Qed.

Lemma SortByTimesRequested_spec_witness :
  SortByTimesRequested [mkSimNode 4 2; mkSimNode 5 1; mkSimNode 6 3]
    ≡ₚ [mkSimNode 4 2; mkSimNode 5 1; mkSimNode 6 3] /\
  length (SortByTimesRequested [mkSimNode 4 2; mkSimNode 5 1; mkSimNode 6 3]) = 3%nat /\
  timesRequested (mkSimNode 5 1) <= timesRequested (mkSimNode 6 3).
Proof.
  destruct (SortByTimesRequested_spec [mkSimNode 4 2; mkSimNode 5 1; mkSimNode 6 3])
    as (Hp & Hl & Hmin).
  split_and!; [exact Hp | exact Hl |].
  apply (Hmin (mkSimNode 5 1) [mkSimNode 4 2; mkSimNode 6 3]).
  - vm_compute. reflexivity.
  - apply list_elem_of_In. simpl. auto.
  - reflexivity.
Defined.

(** ** What depends on the ids only *)

Lemma is_free_ids (s s' : SimNode) : s.(id) = s'.(id) -> is_free s = is_free s'.
Proof. unfold is_free. by intros ->. Qed.

Lemma ids_invariants (l l' : list SimNode) :
  map id l = map id l' ->
  residents l = residents l' /\ free_suffix l = free_suffix l' /\ IsSimFull l = IsSimFull l'.
Proof.
  revert l'. induction l as [|s l IH]; intros [|s' l'] Heq; try done.
  injection Heq as Hs Hl. destruct (IH l' Hl) as (Hr & Hf & Hfull).
  rewrite !residents_cons, (is_free_ids s s' Hs). cbn [free_suffix IsSimFull].
  rewrite (is_free_ids s s' Hs), Hs, Hr, Hf, Hfull.
  replace (forallb is_free l) with (forallb is_free l'); [done|].
  clear -Hl. revert l' Hl. induction l as [|t l IH]; intros [|t' l'] Heq; try done.
  injection Heq as Ht Hl. simpl. by rewrite (is_free_ids t t' Ht), (IH l').
Qed.

Lemma elem_of_occupied (s : SimNode) l : s ∈ occupied l <-> s ∈ l /\ is_free s = false.
Proof.
  unfold occupied. rewrite !list_elem_of_In, filter_In.
  destruct (is_free s); simpl; intuition congruence.
Qed.

(** ** The insertion loop on a well-formed array *)

Lemma not_full_residents (l : list SimNode) :
  IsSimFull l = false -> (length (residents l) < length l)%nat.
Proof.
  intros Hf. pose proof (residents_length l).
  destruct (decide (length (residents l) = length l)) as [Heq|]; [|lia].
  apply IsSimFull_residents in Heq. congruence.
Qed.

(** Filling the first free slot with a page that is not resident keeps
    the array well formed and appends the page to the residents. *)
Lemma insert_first_free_wf n (l : list SimNode) x :
  x <> FREE -> x ∉ residents l -> IsSimFull l = false -> frames_wf n l ->
  frames_wf n (insert_first_free l x) /\
  residents (insert_first_free l x) = residents l ++ [x].
Proof.
  intros Hx Hnin Hfull (Hlen & Hsuf & Hnd).
  destruct (insert_first_free_residents l x Hx Hsuf Hfull) as [Hres Hsuf'].
  split; [|done]. split_and!; [by rewrite length_insert_first_free|done|].
  rewrite Hres. auto with page.
Qed.

(** ** Slot-wise properties through the loops *)

Section SlotWise.
Context (P Q : SimNode -> Prop) (HPQ : forall s, P s -> Q s).

Lemma Forall_bump_first (a : list SimNode) x :
  (forall s, P s -> s.(id) = x -> Q (mkSimNode s.(id) (s.(timesRequested) + 1))) ->
  Forall P a -> Forall Q (bump_first a x).
Proof.
  intros Hb. induction 1 as [|s a Hs Ha IH]; simpl; [constructor|].
  destruct (Z.eqb_spec (id s) x); constructor; auto.
  eapply Forall_impl; eauto.
Qed.

Lemma Forall_insert_first_free (a : list SimNode) x :
  (forall s, P s -> Q (set_id x s)) ->
  Forall P a -> Forall Q (insert_first_free a x).
Proof.
  intros Hi. induction 1 as [|s a Hs Ha IH]; simpl; [constructor|].
  destruct (Z.eqb (id s) FREE); constructor; auto.
  eapply Forall_impl; eauto.
Qed.
End SlotWise.
