(* ===== verification/Policy.v ===== *)
(** * Policy: the simulation loop and its interface to a policy

    [SimulateFIFO] and [SimulateLRU] share one loop (lines 248-274 and
    293-322): while the input queue is not empty, dequeue a request,
    classify it with [SimContains], write "HIT" or "PF" into it, enqueue it
    on the output queue, and let the policy update the frame array.  The
    class [PagePolicy], indexed by the [PageReplacementAlgorithms]
    constant that [main] switches on, is the body of the loop for one
    policy; [PagePolicyLaws] is what the loop needs of it.  The loop
    [simulate_loop] keeps both queues as lists (the [Queue] primitives are
    append at the tail and take at the head); the generic theorems about
    the output and the reachable frame arrays are proved here once. *)

From S2P Require Import Prelude Types Frames.

Local Open Scope Z_scope.
Local Open Scope page_scope.

(** One iteration of the loop body for a policy: the label written into
    the request and the frame array after the policy's update. *)
Class PagePolicy (alg : PageReplacementAlgorithms) := {
  policy_step : list SimNode -> Z -> string * list SimNode
}.

Arguments policy_step alg {_} _ _.

(** The [while (!IsQueueEmpty(inputQueue))] loop: [inputQueue] is the list
    of page ids not yet dequeued, [outputQueue] the requests enqueued so
    far, [simulationQueue] the frame array. *)
Fixpoint simulate_loop (alg : PageReplacementAlgorithms) `{PagePolicy alg}
    (simulationQueue : list SimNode) (inputQueue : list Z)
    (outputQueue : list PageRequest) : list PageRequest * list SimNode :=
  match inputQueue with
  | [] => (outputQueue, simulationQueue)
  | pid :: rest =>
      let '(label, simulationQueue') := policy_step alg simulationQueue pid in
      simulate_loop alg simulationQueue' rest
        (outputQueue ++ [NewPageRequest pid label])
  end.

(** A simulator run: the loop started on the freshly allocated array and
    an empty output queue; the result is the output queue. *)
Definition simulate (alg : PageReplacementAlgorithms) `{PagePolicy alg}
    (inputQueue : list Z) (totalFrames : nat) : list PageRequest :=
  fst (simulate_loop alg (empty_frames totalFrames) inputQueue []).

(** The frame array after the loop has consumed [trace]. *)
Definition frames_after (alg : PageReplacementAlgorithms) `{PagePolicy alg}
    (simulationQueue : list SimNode) (trace : list Z) : list SimNode :=
  snd (simulate_loop alg simulationQueue trace []).

(** What the loop needs of a policy: the label is "HIT" exactly when
    [SimContains] finds the page; and a policy invariant that holds on the
    fresh array, implies [frames_wf] and is preserved by a step on a page
    id other than the sentinel.  [Fifo.v] and [Lru.v] prove these laws of
    the two loop bodies of the code. *)
Class PagePolicyLaws (alg : PageReplacementAlgorithms) `{PagePolicy alg} := {
  policy_inv : nat -> list SimNode -> Prop;
  policy_step_label : forall s x,
    fst (policy_step alg s x) = if SimContains s x then HIT else PF;
  policy_inv_init : forall n, (1 <= n)%nat -> policy_inv n (empty_frames n);
  policy_inv_wf : forall n s, policy_inv n s -> frames_wf n s;
  policy_inv_step : forall n s x,
    x <> FREE -> policy_inv n s -> policy_inv n (snd (policy_step alg s x))
}.

(** The frame arrays a run can reach from the fresh array of [n] frames,
    feeding page ids other than the sentinel. *)
Inductive reachable (alg : PageReplacementAlgorithms) `{PagePolicy alg} (n : nat)
  : list SimNode -> Prop :=
  | reachable_init : reachable alg n (empty_frames n)
  | reachable_step s x :
      reachable alg n s -> x <> FREE ->
      reachable alg n (snd (policy_step alg s x)).

Definition valid_trace (trace : list Z) : Prop := Forall (fun x => x <> FREE) trace.

Definition is_fault (r : PageRequest) : bool := String.eqb r.(hitOrPageFault) PF.
Definition is_hit (r : PageRequest) : bool := String.eqb r.(hitOrPageFault) HIT.

Section Loop.
Context (alg : PageReplacementAlgorithms) `{PagePolicyLaws alg}.

(** The output of the loop started on [s], one request per input. *)
Definition outputs (s : list SimNode) (input : list Z) : list PageRequest :=
  fst (simulate_loop alg s input []).

Lemma simulate_loop_out s input out :
  simulate_loop alg s input out =
  (out ++ fst (simulate_loop alg s input []), frames_after alg s input).
Proof.
  unfold frames_after. revert s out.
  induction input as [|x input IH]; intros s out; simpl.
  - by rewrite app_nil_r.
  - destruct (policy_step alg s x) as [lbl s'].
    rewrite (IH s' (out ++ _)), (IH s' [_]). simpl. by rewrite <- app_assoc.
Qed.

Lemma simulate_loop_cons s x input :
  simulate_loop alg s (x :: input) [] =
  (NewPageRequest x (fst (policy_step alg s x))
     :: fst (simulate_loop alg (snd (policy_step alg s x)) input []),
   frames_after alg (snd (policy_step alg s x)) input).
Proof. simpl. destruct (policy_step alg s x) as [lbl s']. apply simulate_loop_out. Qed.

Lemma frames_after_cons s x input :
  frames_after alg s (x :: input) = frames_after alg (snd (policy_step alg s x)) input.
Proof. unfold frames_after at 1. by rewrite simulate_loop_cons. Qed.

Lemma frames_after_app s pre post :
  frames_after alg s (pre ++ post) = frames_after alg (frames_after alg s pre) post.
Proof.
  revert s. induction pre as [|x pre IH]; intros s; [done|].
  simpl app. by rewrite !frames_after_cons, IH.
Qed.

Lemma outputs_cons s x input :
  outputs s (x :: input) =
  NewPageRequest x (if SimContains s x then HIT else PF)
    :: outputs (snd (policy_step alg s x)) input.
Proof. unfold outputs. by rewrite simulate_loop_cons, policy_step_label. Qed.

Lemma outputs_ids s input : map page_id (outputs s input) = input.
Proof.
  revert s. induction input as [|x input IH]; intros s; [done|].
  rewrite outputs_cons. simpl. by rewrite IH.
Qed.

Lemma outputs_lookup s pre x post :
  outputs s (pre ++ x :: post) !! length pre =
  Some (NewPageRequest x (if SimContains (frames_after alg s pre) x then HIT else PF)).
Proof.
  revert s. induction pre as [|y pre IH]; intros s.
  - by rewrite app_nil_l, outputs_cons.
  - rewrite <- app_comm_cons, outputs_cons, frames_after_cons. apply IH.
Qed.

Lemma reachable_inv n s : (1 <= n)%nat -> reachable alg n s -> policy_inv n s.
Proof.
  intros Hn. induction 1 as [|s x _ IH Hx].
  - by apply policy_inv_init.
  - by apply policy_inv_step.
Qed.

Lemma reachable_frames_after n s trace :
  valid_trace trace -> reachable alg n s ->
  reachable alg n (frames_after alg s trace).
Proof.
  intros Hv. revert s. induction Hv as [|x trace Hx _ IH]; intros s Hs; [done|].
  rewrite frames_after_cons. apply IH. by constructor.
Qed.
End Loop.

#[export] Hint Rewrite outputs_cons frames_after_cons frames_after_app : page_rw.
#[export] Hint Constructors reachable : page.

Section Simulation.
Context (alg : PageReplacementAlgorithms) `{PagePolicyLaws alg}.

Lemma length_simulate (input : list Z) (totalFrames : nat) :
  length (simulate alg input totalFrames) = length input.
Proof.
  unfold simulate. change (length (outputs alg (empty_frames totalFrames) input) = length input).
  by rewrite <- (length_map page_id), (outputs_ids alg).
Qed.

(** C14: Every reference of the trace gives one output request, in the order
    of the trace. *)
Theorem simulate_ids (input : list Z) (totalFrames : nat) :
  map page_id (simulate alg input totalFrames) = input.
Proof. unfold simulate. change (map page_id (outputs alg (empty_frames totalFrames) input) = input). by apply outputs_ids. Qed.

(** The request of the reference at position [length pre] is labelled
    "HIT" exactly when [SimContains] finds the page in the frame array
    left by the references before it. *)
Lemma simulate_classifies (pre post : list Z) (x : Z) (totalFrames : nat) :
  simulate alg (pre ++ x :: post) totalFrames !! length pre =
  Some (NewPageRequest x
    (if SimContains (frames_after alg (empty_frames totalFrames) pre) x
     then HIT else PF)).
Proof. by apply outputs_lookup. Qed.

(** The frame array the loop leaves on a trace without the sentinel
    satisfies the policy invariant, hence is well formed. *)
Lemma frames_after_inv (n : nat) (trace : list Z) :
  (1 <= n)%nat -> valid_trace trace -> policy_inv n (frames_after alg (empty_frames n) trace).
Proof.
  intros Hn Hv. apply reachable_inv; [done|].
  apply reachable_frames_after; [done | constructor].
Qed.

Lemma frames_after_wf (n : nat) (trace : list Z) :
  (1 <= n)%nat -> valid_trace trace -> frames_wf n (frames_after alg (empty_frames n) trace).
Proof. intros Hn Hv. by eapply policy_inv_wf, frames_after_inv. Qed.

(** For a policy whose step loads the page it is given, a reference that
    repeats the one before it is a hit. *)
Section Loading.
Hypothesis policy_loads : forall n s x,
  x <> FREE -> policy_inv n s -> SimContains (snd (policy_step alg s x)) x = true.

Lemma simulate_repeat_hits (n : nat) (pre post : list Z) (x : Z) :
  (1 <= n)%nat -> valid_trace (pre ++ [x]) ->
  simulate alg (pre ++ x :: x :: post) n !! S (length pre) = Some (NewPageRequest x HIT).
Proof.
  intros Hn Hv. pose proof Hv as [Hpre [Hx _]%Forall_cons]%Forall_app.
  replace (pre ++ x :: x :: post) with ((pre ++ [x]) ++ x :: post) by by rewrite <- app_assoc.
  replace (S (length pre)) with (length (pre ++ [x])) by (rewrite length_app; simpl; lia).
  rewrite simulate_classifies, frames_after_app, frames_after_cons.
  set (s := frames_after alg (empty_frames n) pre).
  change (frames_after alg (snd (policy_step alg s x)) []) with (snd (policy_step alg s x)).
  by rewrite (policy_loads n s x Hx (frames_after_inv n pre Hn Hpre)).
Qed.
End Loading.
End Simulation.
