(* ===== verification/Driver.v ===== *)
(** * Driver: the simulation loop on the linked queues

    The [while] loop of [SimulateFIFO] and [SimulateLRU] (lines 248-274
    and 293-322) as the code runs it on the heap.  [HeapState] is what the
    loop reads and writes (the heap, the two queues, the frame array);
    [heap_iter] is one pass of the body ([Dequeue] a node, read its page
    id, let the policy classify the page and update the frame array,
    [strcpy] the label into the node's request, [Enqueue] the node on the
    output queue), [None] when the loop test fails; [heap_loop] runs it
    with fuel and [simulate_heap] projects the result.

    Theorems: fuel equal to the number of nodes of the heap runs the loop
    to completion and the output queue then holds exactly the requests
    [simulate_loop] computes on lists ([simulate_heap_refines]); whatever
    the fuel, iterations of the body reach the exit of the loop
    ([heap_loop_eventually_exits], with the [eventually] modality over
    [heap_iter]). *)

From stdpp Require Import gmap.
From S2P Require Import Prelude Types Queue Frames Policy.

Local Open Scope Z_scope.
Local Open Scope page_scope.

(** The state the loop reads and writes: the heap of nodes, the two
    queues and the frame array. *)
Record HeapState := mkHeapState {
  hs_heap : gmap positive Node;
  hs_input : Queue;
  hs_output : Queue;
  hs_frames : list SimNode
}.

(** One pass of the loop body (lines 249-273) when the test of line 248,
    [!IsQueueEmpty(inputQueue)], holds; [None] when the loop exits.  A
    [Dequeue] of a non-empty queue returns a node of the heap, so the two
    inner [None] cases do not occur on a well-formed queue (the C code
    would dereference [NULL] there). *)
Definition heap_iter (alg : PageReplacementAlgorithms) `{PagePolicy alg}
    (st : HeapState) : option HeapState :=
  if IsQueueEmpty st.(hs_input) then None
  else
    let '(h1, inputQueue', otemp) := Dequeue st.(hs_heap) st.(hs_input) in
    match otemp with
    | None => None
    | Some temp =>
        match h1 !! temp with
        | None => None
        | Some n =>
            let pid := n.(item).(page_id) in
            let '(label, simulationQueue') := policy_step alg st.(hs_frames) pid in
            let h2 := <[temp := mkNode (NewPageRequest pid label) n.(next)]> h1 in
            let '(h3, outputQueue') := Enqueue h2 st.(hs_output) temp in
            Some (mkHeapState h3 inputQueue' outputQueue' simulationQueue')
        end
    end.

(** The [while] loop of line 248, [fuel] iterations at most. *)
Fixpoint heap_loop (fuel : nat) (alg : PageReplacementAlgorithms) `{PagePolicy alg}
    (st : HeapState) : HeapState :=
  match fuel with
  | O => st
  | S fuel' =>
      match heap_iter alg st with
      | None => st
      | Some st' => heap_loop fuel' alg st'
      end
  end.

(** The loop run from the input queue, the output queue and the frame
    array; the heap, the output queue and the frame array it leaves. *)
Definition simulate_heap (fuel : nat) (alg : PageReplacementAlgorithms) `{PagePolicy alg}
    (h : gmap positive Node) (inputQueue outputQueue : Queue)
    (simulationQueue : list SimNode) : gmap positive Node * Queue * list SimNode :=
  let st := heap_loop fuel alg (mkHeapState h inputQueue outputQueue simulationQueue) in
  (st.(hs_heap), st.(hs_output), st.(hs_frames)).

(** A state where [P] holds is reached, one iteration of the loop at a
    time. *)
Inductive eventually (alg : PageReplacementAlgorithms) `{PagePolicy alg}
    (P : HeapState -> Prop) : HeapState -> Prop :=
  | eventually_done st : P st -> eventually alg P st
  | eventually_step st st' :
      heap_iter alg st = Some st' -> eventually alg P st' -> eventually alg P st.

Section HeapLoop.
Context (alg : PageReplacementAlgorithms) `{PagePolicyLaws alg}.

(** The page ids held by the nodes [ls]. *)
Definition page_ids (h : gmap positive Node) (ls : list positive) : list Z :=
  map page_id (items h ls).

(** One iteration moves the first input node to the end of the output
    queue with its label written. *)
Lemma heap_iter_step (h : gmap positive Node)
    (inputQueue outputQueue : Queue) (x : positive) (rest ls_out : list positive)
    (sim : list SimNode) :
  chain h inputQueue.(head) (x :: rest) -> NoDup (x :: rest) ->
  queue_repr h outputQueue ls_out -> (forall l, l ∈ x :: rest -> l ∉ ls_out) ->
  exists n h3 inputQueue' outputQueue',
    h !! x = Some n /\
    heap_iter alg (mkHeapState h inputQueue outputQueue sim) =
      Some (mkHeapState h3 inputQueue' outputQueue'
              (snd (policy_step alg sim n.(item).(page_id)))) /\
    chain h3 inputQueue'.(head) rest /\
    queue_repr h3 outputQueue' (ls_out ++ [x]) /\
    items h3 (ls_out ++ [x]) =
      items h ls_out ++ [NewPageRequest n.(item).(page_id)
                           (fst (policy_step alg sim n.(item).(page_id)))] /\
    items h3 rest = items h rest.
Proof.
  intros Hc Hnd Hout Hdis. apply NoDup_cons in Hnd as [Hxr Hnd].
  assert (Hxo : x ∉ ls_out) by (apply Hdis; by left).
  destruct (Dequeue_chain h inputQueue x rest Hc) as (n & Hn & Hcr & Hdq).
  set (pid := n.(item).(page_id)).
  set (req := NewPageRequest pid (fst (policy_step alg sim pid))).
  set (h2 := <[x := mkNode req None]> h).
  assert (Hout2 : queue_repr h2 outputQueue ls_out) by (by apply queue_repr_insert_notin).
  destruct (Enqueue_repr h2 outputQueue ls_out x (mkNode req None) Hout2)
    as [Hrepr Hitems]; [by apply lookup_insert_eq | done | done |].
  exists n, (fst (Enqueue h2 outputQueue x)), (mkQueue n.(next) inputQueue.(tail)),
    (snd (Enqueue h2 outputQueue x)).
  split_and!; [done | | | done | |].
  - unfold heap_iter. cbn [hs_input hs_heap hs_output hs_frames].
    replace (IsQueueEmpty inputQueue) with false
      by (unfold IsQueueEmpty; by destruct Hc as [-> _]).
    rewrite Hdq, lookup_insert_eq. cbn [item next]. fold pid.
    destruct (policy_step _ _ _) as [label sim'] eqn:Hstep.
    unfold h2, req. rewrite insert_insert_eq. simpl.
    by destruct (Enqueue _ outputQueue x).
  - eapply Enqueue_other_chain; [exact Hout2| |].
    + intros l Hl. apply Hdis. by right.
    + by apply chain_insert_notin.
  - rewrite Hitems. unfold h2. by rewrite items_insert_notin.
  - rewrite items_Enqueue. unfold h2. by rewrite items_insert_notin.
Qed.

Lemma IsQueueEmpty_head (queue : Queue) : queue.(head) = None -> IsQueueEmpty queue = true.
Proof. unfold IsQueueEmpty. by intros ->. Qed.

Lemma heap_iter_empty (st : HeapState) :
  IsQueueEmpty st.(hs_input) = true -> heap_iter alg st = None.
Proof. unfold heap_iter. by intros ->. Qed.

Lemma simulate_heap_S (fuel : nat) h inputQueue outputQueue sim h' inputQueue' outputQueue' sim' :
  heap_iter alg (mkHeapState h inputQueue outputQueue sim) =
    Some (mkHeapState h' inputQueue' outputQueue' sim') ->
  simulate_heap (S fuel) alg h inputQueue outputQueue sim =
    simulate_heap fuel alg h' inputQueue' outputQueue' sim'.
Proof. intros Hi. unfold simulate_heap. cbn [heap_loop]. by rewrite Hi. Qed.

Lemma page_ids_cons (h : gmap positive Node) x n rest :
  h !! x = Some n -> page_ids h (x :: rest) = n.(item).(page_id) :: page_ids h rest.
Proof. intros Hn. unfold page_ids, items. simpl. by rewrite Hn. Qed.

(** The loop on the linked queues, given at least as much fuel as the
    input queue has nodes, moves every input node to the output queue, in
    order, with the label [simulate_loop] computes, and leaves the frame
    array [simulate_loop] leaves. *)
Lemma simulate_heap_run (fuel : nat) (h : gmap positive Node)
    (inputQueue outputQueue : Queue) (ls_in ls_out : list positive)
    (sim : list SimNode) :
  chain h inputQueue.(head) ls_in -> NoDup ls_in ->
  queue_repr h outputQueue ls_out -> (forall l, l ∈ ls_in -> l ∉ ls_out) ->
  (length ls_in <= fuel)%nat ->
  exists h' outputQueue',
    simulate_heap fuel alg h inputQueue outputQueue sim =
      (h', outputQueue', frames_after alg sim (page_ids h ls_in)) /\
    queue_repr h' outputQueue' (ls_out ++ ls_in) /\
    items h' (ls_out ++ ls_in) = items h ls_out ++ outputs alg sim (page_ids h ls_in).
Proof.
  revert fuel h inputQueue outputQueue ls_out sim.
  induction ls_in as [|x rest IH];
    intros fuel h inputQueue outputQueue ls_out sim Hc Hnd Hout Hdis Hfuel.
  - exists h, outputQueue. rewrite !app_nil_r. split_and!; [|done|done].
    destruct fuel as [|fuel]; [done|]. simpl in Hc.
    unfold simulate_heap. cbn [heap_loop]. by rewrite heap_iter_empty by (by rewrite IsQueueEmpty_head).
  - destruct fuel as [|fuel]; [simpl in Hfuel; lia|].
    destruct (heap_iter_step h inputQueue outputQueue x rest ls_out sim
                Hc Hnd Hout Hdis) as (n & h3 & iq & oq & Hn & Hiter & Hc3 & Hrepr3 & Hit3 & Hrest).
    rewrite (simulate_heap_S fuel _ _ _ _ _ _ _ _ Hiter).
    apply NoDup_cons in Hnd as [Hxr Hnd].
    destruct (IH fuel h3 iq oq (ls_out ++ [x]) (snd (policy_step alg sim n.(item).(page_id))))
      as (h' & oq' & Hrun & Hrepr' & Hit');
      [done | done | done | | simpl in Hfuel; lia |].
    { intros l Hl Hin. apply elem_of_app in Hin as [Hin|Hin].
      - apply (Hdis l); [by right|done].
      - apply list_elem_of_singleton in Hin as ->. done. }
    assert (Hids : page_ids h3 rest = page_ids h rest) by (unfold page_ids; by rewrite Hrest).
    exists h', oq'. rewrite <- app_assoc in Hrepr', Hit'. simpl in Hrepr', Hit'.
    rewrite (page_ids_cons h x n rest Hn), frames_after_cons, Hrun, Hids.
    split_and!; [done | done |].
    rewrite Hit', Hit3. unfold outputs.
    rewrite simulate_loop_cons, Hids. simpl. by rewrite <- app_assoc.
Qed.
(** An iteration allocates and frees nothing: the heap keeps its nodes. *)
Lemma heap_iter_dom (st st' : HeapState) :
  heap_iter alg st = Some st' -> dom st'.(hs_heap) = dom st.(hs_heap).
Proof.
  destruct st as [h iq oq sim]. unfold heap_iter. cbn [hs_input hs_heap hs_output hs_frames].
  destruct (IsQueueEmpty iq); [done|].
  pose proof (Dequeue_dom h iq) as Hd.
  destruct (Dequeue h iq) as [[h1 iq'] [temp|]]; simpl in Hd; [|done].
  destruct (h1 !! temp) as [n|] eqn:Hn; [|done].
  destruct (policy_step alg sim _) as [label sim'].
  pose proof (Enqueue_dom (<[temp := mkNode (NewPageRequest n.(item).(page_id) label) n.(next)]> h1)
                oq temp) as He.
  destruct (Enqueue _ oq temp) as [h3 oq']. simpl in He. intros [= <-]. simpl.
  rewrite He, dom_insert_L, <- Hd. apply elem_of_dom_2 in Hn. set_solver.
Qed.

(** The loop allocates and frees nothing: the heap keeps its nodes. *)
Lemma simulate_heap_dom (fuel : nat) (h : gmap positive Node) (inputQueue outputQueue : Queue)
    (sim : list SimNode) :
  dom (simulate_heap fuel alg h inputQueue outputQueue sim).1.1 = dom h.
Proof.
  unfold simulate_heap. simpl. change h with (hs_heap (mkHeapState h inputQueue outputQueue sim)) at 2.
  generalize (mkHeapState h inputQueue outputQueue sim) as st.
  induction fuel as [|fuel IH]; intros st; [done|]. cbn [heap_loop].
  destruct (heap_iter alg st) as [st'|] eqn:Hi; [|done].
  rewrite IH. by apply heap_iter_dom.
Qed.
(** C4: the loop of [SimulateFIFO] and [SimulateLRU] on the linked
    queues, run with as many iterations as the heap has nodes from an
    empty output queue, moves every node of the input queue, in order, to
    the output queue, writes into each the label [simulate_loop] computes
    on the list of page ids, and leaves the frame array [simulate_loop]
    leaves. *)
Theorem simulate_heap_refines (h : gmap positive Node) (inputQueue : Queue)
    (ls : list positive) (sim : list SimNode) :
  queue_repr h inputQueue ls ->
  exists h' outputQueue,
    simulate_heap (size h) alg h inputQueue NewQueue sim =
      (h', outputQueue, frames_after alg sim (page_ids h ls)) /\
    queue_repr h' outputQueue ls /\
    items h' ls = outputs alg sim (page_ids h ls).
Proof.
  intros (Hc & _ & Hnd).
  destruct (simulate_heap_run (size h) h inputQueue NewQueue ls [] sim)
    as (h' & oq & Hrun & Hrepr & Hit);
    [done | done | apply NewQueue_repr | set_solver | by apply (chain_length_size h _ _ Hc) |].
  by exists h', oq.
Qed.
(** C32: the loop of [SimulateFIFO] and [SimulateLRU] reaches its exit:
    from a well-formed input queue, disjoint from a well-formed output
    queue, iterations of the loop body reach a state where the input queue
    tests empty and the loop stops. *)
Theorem heap_loop_eventually_exits (h : gmap positive Node) (inputQueue outputQueue : Queue)
    (ls_in ls_out : list positive) (sim : list SimNode) :
  chain h inputQueue.(head) ls_in -> NoDup ls_in ->
  queue_repr h outputQueue ls_out -> (forall l, l ∈ ls_in -> l ∉ ls_out) ->
  eventually alg (fun st => IsQueueEmpty st.(hs_input) = true /\ heap_iter alg st = None)
    (mkHeapState h inputQueue outputQueue sim).
Proof.
  revert h inputQueue outputQueue ls_out sim.
  induction ls_in as [|x rest IH]; intros h iq oq ls_out sim Hc Hnd Hout Hdis.
  - apply eventually_done. simpl in Hc.
    assert (Hempty : IsQueueEmpty iq = true) by (by apply IsQueueEmpty_head).
    split; [done|]. by apply heap_iter_empty.
  - destruct (heap_iter_step h iq oq x rest ls_out sim Hc Hnd Hout Hdis)
      as (n & h3 & iq' & oq' & _ & Hiter & Hc3 & Hrepr3 & _ & _).
    apply NoDup_cons in Hnd as [Hxr Hnd].
    eapply eventually_step; [exact Hiter|]. apply (IH _ _ _ (ls_out ++ [x])); [done..|].
    intros l Hl Hin. apply elem_of_app in Hin as [Hin|Hin].
    + apply (Hdis l); [by right|done].
    + apply list_elem_of_singleton in Hin as ->. done.
Qed.
End HeapLoop.
