(* ===== verification/Fifo.v ===== *)
(** * Fifo: [SimulateFIFO] (lines 237-279)

    The loop body of [SimulateFIFO] on the frame array: a hit leaves the
    array alone; a fault on a full array runs the shift loop of
    lines 258-263 and writes the page into the last slot; a fault on an
    array with a free slot fills the first free slot.  The shift loop is
    modelled index by index ([shift_loop], trip count [totalFrames - 1])
    and proved equal to a rotation of the ids.  [FifoSpec] is the abstract
    FIFO policy (the residents as a queue in insertion order) and the
    refinement theorem shows the frame array implements it.  The page id
    [-1] is taken for a free slot ([SimulateFIFO_sentinel_hit]). *)

From S2P Require Import Prelude Types Frames Policy.

Local Open Scope Z_scope.
Local Open Scope page_scope.

(** [(simulationQueue + i)->id] read and written. *)
Definition id_at (i : nat) (a : list SimNode) : Z := default FREE (id <$> a !! i).

Definition write_id (i : nat) (v : Z) (a : list SimNode) : list SimNode :=
  alter (set_id v) i a.

(** The loop of lines 259-262, from index [i] with [k] iterations left:
    [for (i = 0; i < totalFrames - 1; i++) { a[i].id = a[i+1].id;
    a[i+1].id = tempID; }]. *)
Fixpoint shift_loop (k i : nat) (tempID : Z) (a : list SimNode) : list SimNode :=
  match k with
  | O => a
  | S k' =>
      shift_loop k' (S i) tempID
        (write_id (S i) tempID (write_id i (id_at (S i) a) a))
  end.

(** The fault branch on a full array (lines 258-263). *)
Definition fifo_evict (simulationQueue : list SimNode) (pid : Z) : list SimNode :=
  let totalFrames := length simulationQueue in
  let tempID := id_at 0 simulationQueue in
  write_id (totalFrames - 1) pid
    (shift_loop (totalFrames - 1) 0 tempID simulationQueue).

(** The body of the [while] loop of [SimulateFIFO] (lines 249-273): the
    label written into the request and the updated frame array. *)
Definition SimulateFIFO_step (simulationQueue : list SimNode) (pid : Z)
  : string * list SimNode :=
  if SimContains simulationQueue pid then (HIT, simulationQueue)
  else (PF, if IsSimFull simulationQueue
            then fifo_evict simulationQueue pid
            else insert_first_free simulationQueue pid).

#[export] Instance FifoPolicy : PagePolicy FIFO := {
  policy_step := SimulateFIFO_step
}.

(** [SimulateFIFO]: the output queue of the run (the call of
    [PrintValues] on it is modelled in [Report.v]). *)
Definition SimulateFIFO (inputQueue : list Z) (totalFrames : nat) : list PageRequest :=
  simulate FIFO inputQueue totalFrames.

(** ** The abstract FIFO policy *)
Module FifoSpec.
(** The residents, oldest first; [cap] frames. *)
Definition step (cap : nat) (q : list Z) (x : Z) : string * list Z :=
  if bool_decide (x ∈ q) then (HIT, q)
  else (PF, if bool_decide (length q < cap)%nat then q ++ [x] else tail q ++ [x]).

Fixpoint run (cap : nat) (q : list Z) (input : list Z) : list PageRequest :=
  match input with
  | [] => []
  | x :: rest => NewPageRequest x (fst (step cap q x)) :: run cap (snd (step cap q x)) rest
  end.
End FifoSpec.

(** ** The shift loop is a rotation *)

Lemma write_id_ids i v (a : list SimNode) :
  map id (write_id i v a) = <[i := v]> (map id a).
Proof. revert i. induction a as [|s a IH]; intros [|i]; simpl; f_equal; auto. Qed.

Lemma write_id_counts i v (a : list SimNode) :
  map timesRequested (write_id i v a) = map timesRequested a.
Proof. revert i. induction a as [|s a IH]; intros [|i]; simpl; f_equal; auto. Qed.

Lemma length_write_id i v (a : list SimNode) : length (write_id i v a) = length a.
Proof. apply length_alter. Qed.

Lemma id_at_ids i (a : list SimNode) : id_at i a = default FREE (map id a !! i).
Proof. unfold id_at. revert i. induction a as [|s a IH]; intros [|i]; simpl; auto. Qed.

#[export] Hint Rewrite write_id_ids write_id_counts length_write_id : page_rw.

(** One iteration at index [length pre] moves the carried id one slot to
    the right and the id it meets one slot to the left. *)
Lemma shift_loop_ids (post pre : list Z) t (a : list SimNode) :
  map id a = pre ++ t :: post ->
  map id (shift_loop (length post) (length pre) t a) = pre ++ post ++ [t].
Proof.
  revert pre a. induction post as [|y post IH]; intros pre a Ha; simpl; [done|].
  replace (S (length pre)) with (length (pre ++ [y])) by (rewrite length_app; simpl; lia).
  rewrite (IH (pre ++ [y])); [by rewrite <- app_assoc|].
  rewrite !write_id_ids, id_at_ids, Ha.
  replace (length (pre ++ [y])) with (length pre + 1)%nat by (rewrite length_app; done).
  rewrite (lookup_app_r pre) by lia. rewrite Nat.add_sub'. simpl.
  rewrite !insert_app_r_alt by lia. rewrite Nat.sub_diag.
  replace (length pre + 1 - length pre)%nat with 1%nat by lia.
  simpl. by rewrite <- app_assoc.
Qed.

Lemma shift_loop_counts k i t (a : list SimNode) :
  map timesRequested (shift_loop k i t a) = map timesRequested a.
Proof. revert i a. induction k as [|k IH]; intros i a; simpl; [done|]. by rewrite IH, !write_id_counts. Qed.

Lemma length_shift_loop k i t (a : list SimNode) : length (shift_loop k i t a) = length a.
Proof. revert i a. induction k as [|k IH]; intros i a; simpl; [done|]. by rewrite IH, !length_write_id. Qed.

Lemma fifo_evict_shift (a : list SimNode) (x : Z) :
  a <> [] ->
  map id (fifo_evict a x) = tail (map id a) ++ [x] /\
  map timesRequested (fifo_evict a x) = map timesRequested a.
Proof.
  destruct a as [|s rest]; [done|]. intros _. unfold fifo_evict. simpl length.
  replace (S (length rest) - 1)%nat with (length rest) by lia. split.
  - pose proof (shift_loop_ids (map id rest) [] (id s) (s :: rest) eq_refl) as Hs.
    rewrite length_map in Hs. simpl in Hs.
    replace (id_at 0 (s :: rest)) with (id s) by done.
    rewrite write_id_ids, Hs.
    rewrite <- (length_map id rest), <- (Nat.add_0_r (length (map id rest))).
    rewrite insert_app_r. done.
  - by rewrite write_id_counts, shift_loop_counts.
Qed.

(** C6: The eviction branch of [SimulateFIFO] drops the id of slot 0, shifts
    the others one slot down and puts the new page last; the counters of
    the slots stay where they were. *)
Theorem fifo_evict_ids (a : list SimNode) (x : Z) :
  a <> [] ->
  map id (fifo_evict a x) = tail (map id a) ++ [x] /\
  map timesRequested (fifo_evict a x) = map timesRequested a.
Proof. apply fifo_evict_shift. Qed.

Lemma length_fifo_evict (a : list SimNode) x : length (fifo_evict a x) = length a.
Proof. unfold fifo_evict. by rewrite length_write_id, length_shift_loop. Qed.

(** ** The frame array implements the abstract FIFO queue *)

(** The residents after an eviction on a full array. *)
Lemma fifo_evict_residents (a : list SimNode) x :
  a <> [] -> x <> FREE -> all_resident a ->
  all_resident (fifo_evict a x) /\
  residents (fifo_evict a x) = tail (residents a) ++ [x].
Proof.
  intros Ha Hx Hfull. destruct (fifo_evict_shift a x Ha) as [Hids _].
  assert (Hfull' : all_resident (fifo_evict a x)).
  { unfold all_resident in *. rewrite Hids. apply Forall_app. auto with page. }
  split; [done|]. by rewrite !residents_all_resident, Hids.
Qed.

(** One iteration of the loop of [SimulateFIFO] is one step of the
    abstract FIFO queue on the residents: same label, same residents in
    the same order, and the array stays well formed. *)
Lemma SimulateFIFO_step_refines (n : nat) (a : list SimNode) (x : Z) :
  (1 <= n)%nat -> x <> FREE -> frames_wf n a ->
  fst (SimulateFIFO_step a x) = fst (FifoSpec.step n (residents a) x) /\
  residents (snd (SimulateFIFO_step a x)) = snd (FifoSpec.step n (residents a) x) /\
  frames_wf n (snd (SimulateFIFO_step a x)).
Proof.
  intros Hn Hx (Hlen & Hsuf & Hnd). unfold SimulateFIFO_step, FifoSpec.step.
  destruct (SimContains a x) eqn:Hc.
  - apply SimContains_residents in Hc; [|done].
    rewrite bool_decide_eq_true_2 by done. split_and!; done.
  - assert (Hnin : x ∉ residents a).
    { intros Hin. apply (SimContains_residents a x Hx) in Hin. congruence. }
    rewrite bool_decide_eq_false_2 by done. simpl.
    destruct (IsSimFull a) eqn:Hf.
    + pose proof Hf as Hf'. apply IsSimFull_residents in Hf.
      apply IsSimFull_all_resident in Hf'.
      rewrite bool_decide_eq_false_2 by lia.
      assert (Ha : a <> []) by (intros ->; simpl in Hlen; lia).
      destruct (fifo_evict_residents a x Ha Hx Hf') as [Hall Hres].
      split_and!; [done|done|]. split_and!.
      * by rewrite length_fifo_evict.
      * auto with page.
      * rewrite Hres. auto with page.
    + pose proof (not_full_residents a Hf) as Hlt.
      rewrite bool_decide_eq_true_2 by lia.
      destruct (insert_first_free_wf n a x Hx Hnin Hf (conj Hlen (conj Hsuf Hnd)))
        as [Hwf' Hres].
      split_and!; done.
Qed.

#[export] Instance FifoPolicyLaws : PagePolicyLaws FIFO.
Proof.
  refine {| policy_inv n a := (1 <= n)%nat /\ frames_wf n a |}.
  - intros s x. simpl. unfold SimulateFIFO_step. by destruct (SimContains s x).
  - intros n Hn. split; [done|]. apply empty_frames_wf.
  - by intros n s [_ ?].
  - intros n s x Hx [Hn Hwf]. split; [done|]. by apply SimulateFIFO_step_refines.
Defined.

(** The loop started on a well-formed array produces the output of the
    abstract FIFO queue started on its residents. *)
Lemma fifo_outputs_refine (n : nat) (a : list SimNode) (input : list Z) :
  (1 <= n)%nat -> valid_trace input -> frames_wf n a ->
  outputs FIFO a input = FifoSpec.run n (residents a) input.
Proof.
  intros Hn Hv. revert a. induction Hv as [|x input Hx _ IH]; intros a Hwf; [done|].
  rewrite (outputs_cons FIFO). simpl.
  destruct (SimulateFIFO_step_refines n a x Hn Hx Hwf) as (Hl & Hr & Hwf').
  rewrite <- Hl, <- Hr, IH by done. f_equal. f_equal.
  unfold SimulateFIFO_step. by destruct (SimContains a x).
Qed.

(** ** Properties of [SimulateFIFO] *)

(** C1: [SimulateFIFO] on [totalFrames >= 1] frames and a trace without the
    id [-1] produces exactly the output of the abstract FIFO queue: a
    reference is a hit iff the page is among the residents, a fault on a
    full set evicts the oldest resident, and a hit reorders nothing. *)
Theorem SimulateFIFO_refines (totalFrames : nat) (inputQueue : list Z) :
  (1 <= totalFrames)%nat -> valid_trace inputQueue ->
  SimulateFIFO inputQueue totalFrames = FifoSpec.run totalFrames [] inputQueue.
Proof.
  intros Hn Hv. unfold SimulateFIFO, simulate.
  change (outputs FIFO (empty_frames totalFrames) inputQueue =
          FifoSpec.run totalFrames [] inputQueue).
  rewrite (fifo_outputs_refine totalFrames) by auto with page.
  by rewrite residents_empty_frames.
Qed.

(** ** The step loads the page it is given *)

Lemma FifoSpec_step_mem cap q x : x ∈ snd (FifoSpec.step cap q x).
Proof.
  unfold FifoSpec.step. case_bool_decide; [done|].
  simpl. case_bool_decide; set_solver.
Qed.

Lemma FifoSpec_step_sub cap q x y : y ∈ snd (FifoSpec.step cap q x) -> y = x \/ y ∈ q.
Proof.
  unfold FifoSpec.step. case_bool_decide; [by right|]. simpl.
  case_bool_decide; [set_solver|]. destruct q; simpl; set_solver.
Qed.

(** After a step on a page other than [-1], the page is resident. *)
Lemma fifo_step_loads n (a : list SimNode) x :
  x <> FREE -> (1 <= n)%nat /\ frames_wf n a ->
  SimContains (snd (SimulateFIFO_step a x)) x = true.
Proof.
  intros Hx [Hn Hwf]. destruct (SimulateFIFO_step_refines n a x Hn Hx Hwf) as (_ & Hr & _).
  apply SimContains_residents; [done|]. rewrite Hr. apply FifoSpec_step_mem.
Qed.

(** A step adds no resident but the page it is given. *)
Lemma fifo_step_residents n (a : list SimNode) x y :
  x <> FREE -> (1 <= n)%nat /\ frames_wf n a ->
  y ∈ residents (snd (SimulateFIFO_step a x)) -> y = x \/ y ∈ residents a.
Proof.
  intros Hx [Hn Hwf]. destruct (SimulateFIFO_step_refines n a x Hn Hx Hwf) as (_ & -> & _).
  apply FifoSpec_step_sub.
Qed.

(** ** The page id [-1] *)

(** C27: A page id of [-1] in the trace is taken for a free slot: while a
    frame is free it is reported as a hit and the array is left as it
    was; on a full array it is a fault, and the shift writes [-1] into the
    last slot, which from then on reads as free. *)
Theorem SimulateFIFO_sentinel_hit (a : list SimNode) :
  a <> [] ->
  (IsSimFull a = false -> SimulateFIFO_step a FREE = (HIT, a)) /\
  (IsSimFull a = true -> fst (SimulateFIFO_step a FREE) = PF /\
                         IsSimFull (snd (SimulateFIFO_step a FREE)) = false).
Proof.
  intros Ha. unfold SimulateFIFO_step. rewrite SimContains_FREE.
  split; intros Hf; rewrite Hf; [done|]. split; [done|]. simpl.
  destruct (IsSimFull (fifo_evict a FREE)) eqn:E; [|done].
  apply IsSimFull_all_resident in E. unfold all_resident in E.
  rewrite (proj1 (fifo_evict_shift a FREE Ha)) in E.
  apply Forall_app in E as [_ [E _]%Forall_cons]. by destruct E.
Qed.

(** ** Witnesses *)

Lemma SimulateFIFO_refines_witness :
  SimulateFIFO [1; 2; 3; 1; 4; 2] 2 = FifoSpec.run 2 [] [1; 2; 3; 1; 4; 2].
Proof. apply SimulateFIFO_refines; [lia | repeat constructor; unfold FREE; lia]. Defined.

Lemma fifo_evict_ids_witness :
  map id (fifo_evict [mkSimNode 5 0; mkSimNode 6 0; mkSimNode 7 0] 8)
    = tail (map id [mkSimNode 5 0; mkSimNode 6 0; mkSimNode 7 0]) ++ [8] /\
  map timesRequested (fifo_evict [mkSimNode 5 0; mkSimNode 6 0; mkSimNode 7 0] 8)
    = map timesRequested [mkSimNode 5 0; mkSimNode 6 0; mkSimNode 7 0].
Proof. apply fifo_evict_ids. discriminate. Defined.

Lemma SimulateFIFO_sentinel_hit_witness :
  (IsSimFull [mkSimNode 3 0; mkSimNode FREE 0] = false ->
   SimulateFIFO_step [mkSimNode 3 0; mkSimNode FREE 0] FREE = (HIT, [mkSimNode 3 0; mkSimNode FREE 0])) /\
  (IsSimFull [mkSimNode 3 0; mkSimNode FREE 0] = true ->
   fst (SimulateFIFO_step [mkSimNode 3 0; mkSimNode FREE 0] FREE) = PF /\
   IsSimFull (snd (SimulateFIFO_step [mkSimNode 3 0; mkSimNode FREE 0] FREE)) = false).
Proof. apply SimulateFIFO_sentinel_hit. discriminate. Defined.
