(* ===== verification/Lru.v ===== *)
(** * Lru: [SimulateLRU] (lines 281-327)

    The loop body of [SimulateLRU] on the frame array: a hit increments
    the counter of the page's slot; a fault on a full array overwrites
    slot 0 with the page and a zero counter; a fault on an array with a
    free slot fills the first free slot; after every reference
    [SortByTimesRequested] moves a least counter into slot 0.  The policy
    the code calls "LRU" therefore evicts a page with the fewest hits since
    it was loaded.  [FreqSpec] states that policy on the multiset of
    (page, counter) entries, and the refinement theorem shows the array
    implements it modulo the order of the slots ([Permutation]). *)

From S2P Require Import Prelude Types Frames Policy.

Local Open Scope Z_scope.
Local Open Scope page_scope.

(** The fault branch on a full array (lines 309-310): slot 0 receives the
    page and a zero counter. *)
Definition lru_replace_head (simulationQueue : list SimNode) (pid : Z) : list SimNode :=
  match simulationQueue with
  | [] => []
  | _ :: rest => mkSimNode pid 0 :: rest
  end.

(** The body of the [while] loop of [SimulateLRU] (lines 294-321). *)
Definition SimulateLRU_step (simulationQueue : list SimNode) (pid : Z)
  : string * list SimNode :=
  let '(label, simulationQueue') :=
    if SimContains simulationQueue pid
    then (HIT, bump_first simulationQueue pid)
    else (PF, if IsSimFull simulationQueue
              then lru_replace_head simulationQueue pid
              else insert_first_free simulationQueue pid) in
  (label, SortByTimesRequested simulationQueue').

#[export] Instance LruPolicy : PagePolicy LRU := {
  policy_step := SimulateLRU_step
}.

(** [SimulateLRU]: the output queue of the run; the array it allocates
    (lines 288-291) is [empty_frames totalFrames]. *)
Definition SimulateLRU (inputQueue : list Z) (totalFrames : nat) : list PageRequest :=
  simulate LRU inputQueue totalFrames.

(** ** The abstraction: (page, counter) entries *)

Definition entry (s : SimNode) : Z * Z := (s.(id), s.(timesRequested)).

Definition entries (head : list SimNode) : list (Z * Z) := map entry (occupied head).

(** ** The frequency policy *)
Module FreqSpec.
(** One reference on a multiset [m] of (page, counter) entries with
    [cap] frames: a hit adds one to the page's counter; a fault loads the
    page with counter 0, evicting, when all frames are used, an entry
    whose counter is least. *)
Inductive step (cap : nat) : list (Z * Z) -> Z -> string -> list (Z * Z) -> Prop :=
  | step_hit m m' x c :
      m ≡ₚ (x, c) :: m' -> step cap m x HIT ((x, c + 1) :: m')
  | step_load m x :
      x ∉ map fst m -> (length m < cap)%nat -> step cap m x PF ((x, 0) :: m)
  | step_evict m m' x y c :
      x ∉ map fst m -> length m = cap -> m ≡ₚ (y, c) :: m' ->
      (forall e, e ∈ m' -> c <= e.2) -> step cap m x PF ((x, 0) :: m').

(** A run: the requests the policy may output on a trace, one step per
    reference. *)
Inductive run (cap : nat) : list (Z * Z) -> list Z -> list PageRequest -> Prop :=
  | run_nil m : run cap m [] []
  | run_cons m x label m' rest out :
      step cap m x label m' -> run cap m' rest out ->
      run cap m (x :: rest) (NewPageRequest x label :: out).
End FreqSpec.

(** ** The invariant of the [SimulateLRU] array *)

(** Counters are non-negative and free slots keep a zero counter. *)
Definition slot_ok (s : SimNode) : Prop :=
  0 <= s.(timesRequested) /\ (is_free s = true -> s.(timesRequested) = 0).

(** Slot 0 has the least counter among the resident slots. *)
Definition head_min (head : list SimNode) : Prop :=
  match head with
  | [] => True
  | s0 :: rest => forall s, s ∈ rest -> is_free s = false ->
                  s0.(timesRequested) <= s.(timesRequested)
  end.

Definition lru_inv (n : nat) (head : list SimNode) : Prop :=
  (1 <= n)%nat /\ frames_wf n head /\ Forall slot_ok head /\ head_min head.

(** ** Lemmas on entries *)

(** The array before [SortByTimesRequested] (lines 295-320). *)
Definition lru_update (simulationQueue : list SimNode) (pid : Z) : list SimNode :=
  if SimContains simulationQueue pid then bump_first simulationQueue pid
  else if IsSimFull simulationQueue then lru_replace_head simulationQueue pid
  else insert_first_free simulationQueue pid.

(** What one update does, before the array is reordered: the array stays
    well formed, the slots stay [slot_ok], and the entries take one step
    of [FreqSpec]. *)
Definition update_ok (n : nat) (a : list SimNode) (x : Z) (label : string)
    (u : list SimNode) : Prop :=
  frames_wf n u /\ Forall slot_ok u /\
  exists m', FreqSpec.step n (entries a) x label m' /\ entries u ≡ₚ m'.

Definition counter_le (k : Z) (s : SimNode) : Prop :=
  0 <= s.(timesRequested) <= k.

Lemma entries_cons (s : SimNode) l :
  entries (s :: l) = if is_free s then entries l else entry s :: entries l.
Proof. unfold entries. rewrite occupied_cons. by destruct (is_free s). Qed.

Lemma entries_fst (l : list SimNode) : map fst (entries l) = residents l.
Proof. unfold entries, residents. rewrite map_map. done. Qed.

Lemma entries_perm (l l' : list SimNode) : l ≡ₚ l' -> entries l ≡ₚ entries l'.
Proof. intros Hp. by apply Permutation_map, occupied_perm. Qed.

Lemma length_entries (l : list SimNode) : length (entries l) = length (residents l).
Proof. by rewrite <- entries_fst, length_map. Qed.

Lemma elem_of_entries e (l : list SimNode) :
  e ∈ entries l -> exists s, e = entry s /\ s ∈ l /\ is_free s = false.
Proof.
  unfold entries. intros (s & -> & Hs)%list_elem_of_fmap.
  apply elem_of_occupied in Hs. eauto.
Qed.

#[export] Hint Resolve entries_perm : page.

(** The hit loop adds one to the counter of the page's entry. *)
Lemma bump_first_entries (a : list SimNode) x :
  x <> FREE -> x ∈ residents a ->
  exists c m', entries a ≡ₚ (x, c) :: m' /\ entries (bump_first a x) ≡ₚ (x, c + 1) :: m'.
Proof.
  intros Hx. induction a as [|s a IH]; [by intros ?%elem_of_nil|].
  rewrite residents_cons. cbn [bump_first].
  destruct (Z.eqb_spec (id s) x) as [Hsx|Hsx].
  - intros _. assert (Hf : is_free s = false) by (unfold is_free; apply Z.eqb_neq; congruence).
    exists (timesRequested s), (entries a).
    rewrite !entries_cons, Hf. unfold entry at 1. rewrite Hsx. simpl.
    unfold is_free. simpl. rewrite (proj2 (Z.eqb_neq x FREE) Hx). done.
  - destruct (is_free s) eqn:Hf; intros Hin.
    + destruct (IH Hin) as (c & m' & H1 & H2). exists c, m'.
      by rewrite !entries_cons, Hf.
    + apply elem_of_cons in Hin as [->|Hin]; [done|].
      destruct (IH Hin) as (c & m' & H1 & H2). exists c, (entry s :: m').
      rewrite !entries_cons, Hf, H1, H2. split; apply perm_swap.
Qed.

Lemma bump_first_slot_ok (a : list SimNode) x :
  x <> FREE -> Forall slot_ok a -> Forall slot_ok (bump_first a x).
Proof.
  intros Hx. apply Forall_bump_first; [done|].
  intros s [H0 _] ->. split; simpl; [lia|]. by rewrite is_free_mk.
Qed.

Lemma insert_first_free_slot_ok (a : list SimNode) x :
  x <> FREE -> Forall slot_ok a -> Forall slot_ok (insert_first_free a x).
Proof.
  intros Hx. apply Forall_insert_first_free; [done|].
  intros s [H0 _]. split; [done|]. by rewrite is_free_set_id.
Qed.

(** ** One step of [SimulateLRU] *)

Lemma SimulateLRU_step_eq (a : list SimNode) x :
  SimulateLRU_step a x =
  (if SimContains a x then HIT else PF, SortByTimesRequested (lru_update a x)).
Proof.
  unfold SimulateLRU_step, lru_update.
  by destruct (SimContains a x), (IsSimFull a).
Qed.

Lemma lru_hit_ok n (a : list SimNode) x :
  x <> FREE -> lru_inv n a -> x ∈ residents a ->
  update_ok n a x HIT (bump_first a x).
Proof.
  intros Hx (_ & (Hlen & Hsuf & Hnd) & Hok & _) Hin.
  destruct (ids_invariants _ _ (bump_first_ids a x)) as (Hr & Hs & _).
  unfold update_ok, frames_wf. split_and!.
  - by rewrite length_bump_first.
  - by rewrite Hs.
  - by rewrite Hr.
  - by apply bump_first_slot_ok.
  - destruct (bump_first_entries a x Hx Hin) as (c & m' & H1 & H2).
    exists ((x, c + 1) :: m'). split; [|done]. by constructor.
Qed.

Lemma lru_evict_ok n (a : list SimNode) x :
  x <> FREE -> lru_inv n a -> x ∉ residents a -> IsSimFull a = true ->
  update_ok n a x PF (lru_replace_head a x).
Proof.
  intros Hx (Hn & (Hlen & _ & Hnd) & Hok & Hmin) Hnin Hfull.
  destruct a as [|s0 rest]; [simpl in Hlen; lia|].
  apply IsSimFull_all_resident in Hfull as Hall.
  assert (Hs0 : is_free s0 = false).
  { unfold all_resident in Hall. simpl in Hall. apply Forall_cons in Hall as [H _].
    by apply Z.eqb_neq. }
  assert (Hall' : all_resident (mkSimNode x 0 :: rest)).
  { unfold all_resident in *. simpl in *. apply Forall_cons in Hall as [_ H].
    by constructor. }
  rewrite residents_cons, Hs0 in Hnin, Hnd.
  simpl lru_replace_head. unfold update_ok, frames_wf. split_and!.
  - done.
  - auto with page.
  - rewrite residents_cons, is_free_mk by done.
    apply NoDup_cons in Hnd as [_ Hnd]. apply NoDup_cons. split; [|done].
    intros Hin. apply Hnin. by right.
  - apply Forall_cons in Hok as [_ Hok]. constructor; [|done].
    split; [done|]. by rewrite is_free_mk.
  - exists ((x, 0) :: entries rest). split.
    + rewrite entries_cons, Hs0.
      apply (FreqSpec.step_evict _ _ _ _ (id s0) (timesRequested s0)).
      * simpl. by rewrite entries_fst.
      * replace (entry s0 :: entries rest) with (entries (s0 :: rest))
          by (by rewrite entries_cons, Hs0).
        rewrite length_entries, <- Hlen.
        by apply IsSimFull_residents, IsSimFull_all_resident.
      * done.
      * intros e (s & -> & Hs & Hfs)%elem_of_entries. by apply Hmin.
    + rewrite entries_cons. by rewrite is_free_mk.
Qed.

Lemma lru_load_ok n (a : list SimNode) x :
  x <> FREE -> lru_inv n a -> x ∉ residents a -> IsSimFull a = false ->
  update_ok n a x PF (insert_first_free a x).
Proof.
  intros Hx (Hn & Hwf & Hok & _) Hnin Hfull.
  destruct (insert_first_free_wf n a x Hx Hnin Hfull Hwf) as [Hwf' _].
  destruct Hwf as (Hlen & Hsuf & _).
  destruct (insert_first_free_occupied a x Hx Hsuf Hfull) as (f & Hf & Hff & Hocc & _).
  unfold update_ok. split_and!; [done|by apply insert_first_free_slot_ok|].
  exists ((x, 0) :: entries a). split.
  - constructor; [by rewrite entries_fst|].
    rewrite length_entries, <- Hlen. by apply not_full_residents.
  - unfold entries. rewrite Hocc, map_app. simpl.
    rewrite Forall_forall in Hok. destruct (Hok f Hf) as [_ Hz].
    unfold entry at 2. simpl. rewrite Hz by done. symmetry. apply Permutation_cons_append.
Qed.

Lemma lru_update_ok n (a : list SimNode) x :
  x <> FREE -> lru_inv n a ->
  update_ok n a x (if SimContains a x then HIT else PF) (lru_update a x).
Proof.
  intros Hx Hinv. unfold lru_update. destruct (SimContains a x) eqn:Hc.
  - apply lru_hit_ok; [done|done|]. by apply SimContains_residents.
  - assert (Hnin : x ∉ residents a).
    { intros Hin. apply (SimContains_residents a x Hx) in Hin. congruence. }
    destruct (IsSimFull a) eqn:Hf; [by apply lru_evict_ok | by apply lru_load_ok].
Qed.

Lemma head_min_sort (u : list SimNode) : head_min (SortByTimesRequested u).
Proof.
  destruct (SortByTimesRequested u) as [|s0 rest] eqn:E; [done|].
  simpl. by eapply SortByTimesRequested_min.
Qed.

(** One iteration of the loop of [SimulateLRU] keeps the invariant and is
    one step of [FreqSpec] on the entries, up to the order of the slots. *)
Lemma SimulateLRU_step_refines n (a : list SimNode) x :
  x <> FREE -> lru_inv n a ->
  lru_inv n (snd (SimulateLRU_step a x)) /\
  exists m', FreqSpec.step n (entries a) x (fst (SimulateLRU_step a x)) m' /\
             entries (snd (SimulateLRU_step a x)) ≡ₚ m'.
Proof.
  intros Hx Hinv. rewrite SimulateLRU_step_eq. simpl.
  destruct (lru_update_ok n a x Hx Hinv) as (Hwf & Hok & m' & Hstep & Hperm).
  pose proof (SortByTimesRequested_perm (lru_update a x)) as Hp.
  split.
  - split_and!; [apply Hinv | by apply SortByTimesRequested_wf | by rewrite Hp |].
    apply head_min_sort.
  - exists m'. split; [done|]. by rewrite (entries_perm _ _ Hp).
Qed.

Lemma lru_inv_init n : (1 <= n)%nat -> lru_inv n (empty_frames n).
Proof.
  intros Hn. split_and!; [done | apply empty_frames_wf | |].
  - unfold empty_frames. apply Forall_replicate. split; [simpl; lia | done].
  - destruct n as [|n]; [done|]. simpl. intros s Hs Hf.
    apply elem_of_replicate in Hs as [-> _]. done.
Qed.

#[export] Instance LruPolicyLaws : PagePolicyLaws LRU.
Proof.
  refine {| policy_inv := lru_inv |}.
  - intros s x. simpl. by rewrite SimulateLRU_step_eq.
  - apply lru_inv_init.
  - by intros n s (_ & ? & _).
  - intros n s x Hx Hinv. by apply SimulateLRU_step_refines.
Defined.

(** ** The step loads the page it is given *)

Lemma perm_keys (m m0 : list (Z * Z)) e y :
  m ≡ₚ e :: m0 -> y ∈ map fst m0 -> y ∈ map fst m.
Proof. intros Hp Hy. rewrite (Permutation_map fst Hp). simpl. set_solver. Qed.

Lemma FreqSpec_step_keys cap m x label m' :
  FreqSpec.step cap m x label m' ->
  x ∈ map fst m' /\ (forall y, y ∈ map fst m' -> y = x \/ y ∈ map fst m).
Proof.
  destruct 1 as [m m0 x c Hp|m x _ _|m m0 x y0 c _ _ Hp _]; simpl;
    (split; [left|]); intros y; rewrite ?elem_of_cons;
    naive_solver eauto using perm_keys.
Qed.

Lemma lru_step_keys n (a : list SimNode) x :
  x <> FREE -> lru_inv n a ->
  x ∈ residents (snd (SimulateLRU_step a x)) /\
  (forall y, y ∈ residents (snd (SimulateLRU_step a x)) -> y = x \/ y ∈ residents a).
Proof.
  intros Hx Hinv. destruct (SimulateLRU_step_refines n a x Hx Hinv) as (_ & m' & Hs & Hp).
  destruct (FreqSpec_step_keys _ _ _ _ _ Hs) as [Hin Hsub].
  assert (Hk : forall y, y ∈ map fst (entries (snd (SimulateLRU_step a x))) <-> y ∈ map fst m')
    by (intros y; by rewrite (Permutation_map fst Hp)).
  rewrite <- !entries_fst. split; [by apply Hk|]. intros y Hy%Hk. by apply Hsub.
Qed.

(** After a step on a page other than [-1], the page is resident. *)
Lemma lru_step_loads n (a : list SimNode) x :
  x <> FREE -> lru_inv n a -> SimContains (snd (SimulateLRU_step a x)) x = true.
Proof. intros Hx Hinv. apply SimContains_residents; [done|]. by apply (lru_step_keys n). Qed.

(** A step adds no resident but the page it is given. *)
Lemma lru_step_residents n (a : list SimNode) x y :
  x <> FREE -> lru_inv n a ->
  y ∈ residents (snd (SimulateLRU_step a x)) -> y = x \/ y ∈ residents a.
Proof. intros Hx Hinv. by apply (lru_step_keys n). Qed.

(** ** The frequency policy up to the order of the entries *)

Lemma not_elem_of_map_perm (m m2 : list (Z * Z)) x :
  m ≡ₚ m2 -> x ∉ map fst m -> x ∉ map fst m2.
Proof. intros Hp Hx. by rewrite <- (Permutation_map fst Hp). Qed.

Lemma step_perm cap (m m2 : list (Z * Z)) x label r :
  FreqSpec.step cap m x label r -> m ≡ₚ m2 ->
  exists r2, FreqSpec.step cap m2 x label r2 /\ r ≡ₚ r2.
Proof.
  intros Hs Hp. destruct Hs as [m m' x c Hm|m x Hx Hlen|m m' x y c Hx Hlen Hm Hmin].
  - exists ((x, c + 1) :: m'). split; [|done]. constructor. by rewrite <- Hp.
  - exists ((x, 0) :: m2). split; [|by rewrite Hp].
    constructor; [by eapply not_elem_of_map_perm|]. by rewrite <- Hp.
  - exists ((x, 0) :: m'). split; [|done].
    econstructor; [by eapply not_elem_of_map_perm | by rewrite <- Hp | by rewrite <- Hp | done].
Qed.

(** The abstract runs do not depend on the order of the entries. *)
#[export] Instance run_proper cap :
  Proper (Permutation ==> eq ==> eq ==> iff) (FreqSpec.run cap).
Proof.
  assert (Hdir : forall m m2 t out, m ≡ₚ m2 -> FreqSpec.run cap m t out ->
                 FreqSpec.run cap m2 t out).
  { intros m m2 t out Hp Hr. revert m2 Hp.
    induction Hr as [m|m x label m' rest out Hs _ IH]; intros m2 Hp; [constructor|].
    destruct (step_perm cap m m2 x label m' Hs Hp) as (r2 & Hs2 & Hr2).
    econstructor; [done|]. by apply IH. }
  intros m m2 Hp t ? <- out ? <-. split; apply Hdir; [done | by symmetry].
Qed.

Lemma lru_outputs_refine n (a : list SimNode) (input : list Z) :
  valid_trace input -> lru_inv n a ->
  FreqSpec.run n (entries a) input (outputs LRU a input).
Proof.
  intros Hv. revert a. induction Hv as [|x input Hx _ IH]; intros a Hinv; [constructor|].
  rewrite (outputs_cons LRU).
  destruct (SimulateLRU_step_refines n a x Hx Hinv) as (Hinv' & m' & Hstep & Hperm).
  change (policy_step LRU a x) with (SimulateLRU_step a x).
  rewrite SimulateLRU_step_eq in Hstep. simpl in Hstep.
  econstructor; [exact Hstep|]. rewrite <- Hperm. by apply IH.
Qed.

(** ** Properties of [SimulateLRU] *)

(** C2: [SimulateLRU] on [totalFrames >= 1] frames and a trace without [-1]
    outputs a run of the frequency policy: every hit adds one to the
    page's counter, every fault loads the page with counter 0 and, on a
    full set, evicts an entry with the least counter. *)
Theorem SimulateLRU_refines (totalFrames : nat) (inputQueue : list Z) :
  (1 <= totalFrames)%nat -> valid_trace inputQueue ->
  FreqSpec.run totalFrames [] inputQueue (SimulateLRU inputQueue totalFrames).
Proof.
  intros Hn Hv. unfold SimulateLRU, simulate.
  change (FreqSpec.run totalFrames [] inputQueue
            (outputs LRU (empty_frames totalFrames) inputQueue)).
  replace [] with (entries (empty_frames totalFrames))
    by (unfold entries; by rewrite forallb_free_occupied by apply empty_frames_free).
  by apply lru_outputs_refine, lru_inv_init.
Qed.

(** C5: A fault on a full array of a run evicts the page of slot 0, whose
    counter is the least of all resident pages, and loads the new page
    there with counter 0 before the array is reordered. *)
Theorem SimulateLRU_evicts_least (n : nat) (a : list SimNode) (x : Z) :
  (1 <= n)%nat -> reachable LRU n a -> x <> FREE ->
  SimContains a x = false -> IsSimFull a = true ->
  exists s0 rest, a = s0 :: rest /\ is_free s0 = false /\
    (forall s, s ∈ rest -> s0.(timesRequested) <= s.(timesRequested)) /\
    SimulateLRU_step a x = (PF, SortByTimesRequested (mkSimNode x 0 :: rest)).
Proof.
  intros Hn Hr Hx Hc Hf.
  destruct (reachable_inv LRU n a Hn Hr) as (_ & (Hlen & _) & _ & Hmin).
  destruct a as [|s0 rest]; [simpl in Hlen; lia|].
  apply IsSimFull_all_resident in Hf as Hall. unfold all_resident in Hall.
  simpl in Hall. apply Forall_cons in Hall as [Hs0 Hrest].
  exists s0, rest. split_and!; [done | by apply Z.eqb_neq | |].
  - intros s Hs. apply Hmin; [done|]. apply Z.eqb_neq.
    rewrite Forall_forall in Hrest. apply Hrest. by apply list_elem_of_In, in_map, list_elem_of_In.
  - unfold SimulateLRU_step. by rewrite Hc, Hf.
Qed.

(** C10: A hit of a run adds exactly one to the counter of the page and
    changes no other entry (the slots may be reordered). *)
Theorem SimulateLRU_hit_increments (n : nat) (a : list SimNode) (x : Z) :
  (1 <= n)%nat -> reachable LRU n a -> x <> FREE -> SimContains a x = true ->
  fst (SimulateLRU_step a x) = HIT /\
  exists c m', entries a ≡ₚ (x, c) :: m' /\
               entries (snd (SimulateLRU_step a x)) ≡ₚ (x, c + 1) :: m'.
Proof.
  intros Hn Hr Hx Hc. rewrite SimulateLRU_step_eq, Hc. split; [done|].
  apply (SimContains_residents a x Hx) in Hc.
  destruct (bump_first_entries a x Hx Hc) as (c & m' & H1 & H2).
  exists c, m'. split; [done|]. simpl. unfold lru_update.
  rewrite (proj2 (SimContains_residents a x Hx) Hc).
  by rewrite (entries_perm _ _ (SortByTimesRequested_perm _)).
Qed.

(** ** Bounds of the counters *)

Lemma lru_update_bounded k (a : list SimNode) x :
  Forall (counter_le k) a -> Forall (counter_le (k + 1)) (lru_update a x).
Proof.
  unfold counter_le. intros Ha.
  assert (Hw : forall s, 0 <= timesRequested s <= k -> 0 <= timesRequested s <= k + 1)
    by lia.
  unfold lru_update. destruct (SimContains a x); [|destruct (IsSimFull a)].
  - apply Forall_bump_first with (P := fun s => 0 <= timesRequested s <= k); auto.
    intros s Hs _. simpl. lia.
  - destruct Ha as [|s0 rest Hs0 Hrest]; simpl; [constructor|].
    constructor; [simpl; lia|]. eapply Forall_impl; eauto.
  - apply Forall_insert_first_free with (P := fun s => 0 <= timesRequested s <= k); auto.
Qed.

Lemma empty_frames_counter_le (totalFrames : nat) :
  Forall (counter_le 0) (empty_frames totalFrames).
Proof. apply Forall_replicate. unfold counter_le. simpl. lia. Qed.

(** Each reference adds one at most to the bound of the counters. *)
Lemma frames_after_counter_le (trace : list Z) (a : list SimNode) k :
  Forall (counter_le k) a ->
  Forall (counter_le (k + Z.of_nat (length trace))) (frames_after LRU a trace).
Proof.
  revert a k. induction trace as [|x trace IH]; intros a k Ha.
  - simpl. by rewrite Z.add_0_r.
  - rewrite (frames_after_cons LRU). change (policy_step LRU a x) with (SimulateLRU_step a x).
    rewrite SimulateLRU_step_eq. simpl.
    replace (k + Z.of_nat (S (length trace))) with ((k + 1) + Z.of_nat (length trace)) by lia.
    apply IH. rewrite (SortByTimesRequested_perm _). by apply lru_update_bounded.
Qed.

(** C19: After [k] references every counter lies in [0, k]: a counter counts
    at most one hit per reference. *)
Theorem SimulateLRU_counters_bounded (totalFrames : nat) (trace : list Z) :
  Forall (counter_le (Z.of_nat (length trace)))
    (frames_after LRU (empty_frames totalFrames) trace).
Proof.
  rewrite <- (Z.add_0_l (Z.of_nat _)).
  apply frames_after_counter_le, empty_frames_counter_le.
Qed.

(** C20: Hence the loop body of [SimulateLRU], [timesRequested++]
    included, keeps every counter within the range of a 32-bit [int] on
    the reference that follows a trace of fewer than [INT_MAX]
    references. *)
Corollary SimulateLRU_no_overflow (totalFrames : nat) (trace : list Z) (x : Z) :
  Z.of_nat (length trace) < INT_MAX ->
  Forall (fun s => in_int_range s.(timesRequested) = true)
    (snd (SimulateLRU_step (frames_after LRU (empty_frames totalFrames) trace) x)).
Proof.
  intros Hlen.
  set (a := frames_after LRU (empty_frames totalFrames) trace).
  assert (Hstep : snd (SimulateLRU_step a x) = frames_after LRU a [x])
    by (by rewrite (frames_after_cons LRU)).
  rewrite Hstep. unfold a. rewrite <- (frames_after_app LRU).
  apply (Forall_impl (counter_le (0 + Z.of_nat (length (trace ++ [x]))))).
  { apply frames_after_counter_le, empty_frames_counter_le. }
  rewrite length_app. simpl. intros s Hs. unfold counter_le, in_int_range, INT_MIN, INT_MAX in *.
  apply andb_true_intro. split; apply Z.leb_le; lia.
Qed.

(** ** Witnesses *)

Lemma SimulateLRU_refines_witness :
  FreqSpec.run 2 [] [1; 1; 2; 3; 2] (SimulateLRU [1; 1; 2; 3; 2] 2).
Proof. apply SimulateLRU_refines; [lia | repeat constructor; unfold FREE; lia]. Defined.

Lemma SimulateLRU_evicts_least_witness :
  exists s0 rest, frames_after LRU (empty_frames 2) [1; 1; 2] = s0 :: rest /\
    is_free s0 = false /\
    (forall s, s ∈ rest -> s0.(timesRequested) <= s.(timesRequested)) /\
    SimulateLRU_step (frames_after LRU (empty_frames 2) [1; 1; 2]) 3
      = (PF, SortByTimesRequested (mkSimNode 3 0 :: rest)).
Proof.
  apply (SimulateLRU_evicts_least 2 _ 3).
  - lia.
  - apply reachable_frames_after; [repeat constructor; unfold FREE; lia | constructor].
  - unfold FREE. lia.
  - vm_compute. reflexivity.
  - vm_compute. reflexivity.
Defined.

Lemma SimulateLRU_hit_increments_witness :
  fst (SimulateLRU_step (frames_after LRU (empty_frames 2) [1; 2]) 1) = HIT /\
  exists c m', entries (frames_after LRU (empty_frames 2) [1; 2]) ≡ₚ (1, c) :: m' /\
    entries (snd (SimulateLRU_step (frames_after LRU (empty_frames 2) [1; 2]) 1))
      ≡ₚ (1, c + 1) :: m'.
Proof.
  apply (SimulateLRU_hit_increments 2).
  - lia.
  - apply reachable_frames_after; [repeat constructor; unfold FREE; lia | constructor].
  - unfold FREE. lia.
  - vm_compute. reflexivity.
Defined.

Lemma SimulateLRU_no_overflow_witness :
  Forall (fun s => in_int_range s.(timesRequested) = true)
    (snd (SimulateLRU_step (frames_after LRU (empty_frames 2) [4; 4; 4]) 4)).
Proof. apply SimulateLRU_no_overflow. unfold INT_MAX. simpl. lia. Defined.
