(* ===== verification/Report.v ===== *)
(** * Report: [PrintValues] (lines 329-347)

    [PrintValues] opens the output file (exiting when it cannot), walks the
    output queue counting the requests and the faults and printing one
    line ["%d\t%s\n"] per request, computes the rate
    [(float)numOfPageFaults / numOfPages * 100] in [float] arithmetic
    ([Float32]) and prints ["PF Rate : %.2f%%"].  A [float] is [FNum] of
    its value, an infinity, or a NaN with its sign: [0.0f / 0.0f] is the
    default NaN of x86-64, whose sign bit is set, and glibc prints it
    ["-nan"].

    Theorems: the lines are the requests in order; on a non-empty trace
    shorter than [2^24] references the rate is a [float] between 0 and
    100 and the printed hundredths are within [1/200 + 2^-16] of the exact
    rate (the two [float] roundings cost less than [2^-16]); an empty
    trace, and only an empty trace, gives the NaN rate and prints
    ["PF Rate : -nan%"]. *)

From S2P Require Import Prelude Types Float32 Frames Policy.
From Stdlib Require Import QArith Lqa.

Local Open Scope Z_scope.
Local Open Scope page_scope.

Inductive float_val := FNaN (negative : bool) | FInf (negative : bool) | FNum (q : Q).

(** [(float)a / b] for [int]s [a] and [b]: both converted to [float], the
    quotient rounded. *)
Definition float_div (a b : Z) : float_val :=
  if Z.eqb b 0 then (if Z.eqb a 0 then FNaN true else FInf (a <? 0))
  else FNum (round32 (round32 (inject_Z a) / round32 (inject_Z b))).

(** [f * k] for a [float] [f] and a positive [int] [k]: [k] converted to
    [float], the product rounded; a NaN or an infinity stays one. *)
Definition float_mul_pos (f : float_val) (k : Z) : float_val :=
  match f with
  | FNum q => FNum (round32 (q * round32 (inject_Z k)))
  | other => other
  end.

(** [pfRate] of line 345. *)
Definition pfRate (numOfPageFaults numOfPages : Z) : float_val :=
  float_mul_pos (float_div numOfPageFaults numOfPages) 100.

(** [%.2f] of a [float], as glibc prints it. *)
Definition print_float2 (f : float_val) : string :=
  match f with
  | FNaN negative => if negative then "-nan" else "nan"
  | FInf negative => if negative then "-inf" else "inf"
  | FNum q => fmt2 q
  end.

(** The last line of the file: [fprintf(outputFile, "PF Rate : %.2f%%", pfRate)]. *)
Definition rate_line (rate : float_val) : string :=
  String.append "PF Rate : " (String.append (print_float2 rate) "%").

Definition TAB : string := String (Ascii.ascii_of_nat 9) EmptyString.
Definition NL : string := String (Ascii.ascii_of_nat 10) EmptyString.

(** One line of the output file: [fprintf(outputFile, "%d\t%s\n", ...)]. *)
Definition print_line (r : PageRequest) : string :=
  string_of_Z r.(page_id) ++ TAB ++ r.(hitOrPageFault) ++ NL.

(** The [for] loop of lines 338-344 over the output queue. *)
Fixpoint print_loop (iterator : list PageRequest) (numOfPageFaults numOfPages : Z)
    (lines : list string) : Z * Z * list string :=
  match iterator with
  | [] => (numOfPageFaults, numOfPages, lines)
  | r :: rest =>
      print_loop rest
        (if String.eqb r.(hitOrPageFault) PF then numOfPageFaults + 1 else numOfPageFaults)
        (numOfPages + 1) (lines ++ [print_line r])
  end.

(** What [PrintValues] writes: the request lines, the rate, and the rate
    line. *)
Record OutputFile := mkOutputFile {
  out_lines : list string;
  out_rate : float_val;
  out_summary : string
}.

Inductive PrintResult := PrintExit | PrintOk (file : OutputFile).

(** [PrintValues]; [opened] is whether [fopen] succeeded (lines 330-335). *)
Definition PrintValues (opened : bool) (outputQueue : list PageRequest) : PrintResult :=
  if negb opened then PrintExit
  else
    let '(numOfPageFaults, numOfPages, lines) := print_loop outputQueue 0 0 [] in
    PrintOk (mkOutputFile lines (pfRate numOfPageFaults numOfPages)
                          (rate_line (pfRate numOfPageFaults numOfPages))).

(** ** The counting loop *)

Lemma print_loop_spec (out : list PageRequest) f p lines :
  print_loop out f p lines =
  (f + Z.of_nat (#[is_fault] out), p + Z.of_nat (length out), lines ++ map print_line out).
Proof.
  revert f p lines. induction out as [|r out IH]; intros f p lines; simpl.
  - by rewrite !Z.add_0_r, app_nil_r.
  - rewrite IH, <- app_assoc. unfold is_fault.
    destruct (String.eqb (hitOrPageFault r) PF); simpl;
      rewrite ?Nat2Z.inj_succ; repeat rewrite <- Z.add_assoc, (Z.add_comm 1); done.
Qed.

(** [PrintValues] writes one line per request, in queue order, the rate
    of the faults among the requests, and the rate line. *)
Lemma PrintValues_output (outputQueue : list PageRequest) :
  PrintValues true outputQueue =
  PrintOk (mkOutputFile (map print_line outputQueue)
    (pfRate (Z.of_nat (#[is_fault] outputQueue)) (Z.of_nat (length outputQueue)))
    (rate_line (pfRate (Z.of_nat (#[is_fault] outputQueue)) (Z.of_nat (length outputQueue))))).
Proof. unfold PrintValues. simpl. by rewrite print_loop_spec. Qed.

(** ** The [float] rate *)

(** The rate of [f] faults among [p > 0] references, as the code rounds
    it: the quotient of the converted counts, then its product by [100]. *)
Lemma pfRate_eq (f p : Z) :
  p <> 0 ->
  pfRate f p = FNum (round32 (round32 (round32 (inject_Z f) / round32 (inject_Z p))
                              * round32 (inject_Z 100))).
Proof. intros Hp. unfold pfRate, float_div. by rewrite (proj2 (Z.eqb_neq p 0) Hp). Qed.

(** The exact quotient of the counts, as a [float] quotient of exactly
    converted [int]s. *)
Lemma quotient_exact (f p : Z) :
  0 <= f <= p -> 0 < p < 2 ^ 24 ->
  (round32 (inject_Z f) / round32 (inject_Z p) == inject_Z f / inject_Z p)%Q /\
  (0 <= inject_Z f / inject_Z p <= 1)%Q.
Proof.
  intros Hf Hp. rewrite !round32_int by lia. split; [reflexivity|].
  destruct p as [|p|p]; try lia. unfold Qle, Qdiv, Qmult, Qinv, inject_Z; simpl. lia.
Qed.

Lemma pfRate_bounds (f p : Z) :
  0 <= f <= p -> 0 < p < 2 ^ 24 -> exists q, pfRate f p = FNum q /\ (0 <= q <= 100)%Q.
Proof.
  intros Hf Hp. rewrite pfRate_eq by lia. eexists. split; [reflexivity|].
  destruct (quotient_exact f p Hf Hp) as [Hq Hx].
  assert (H1 : (0 <= round32 (round32 (inject_Z f) / round32 (inject_Z p)) <= inject_Z 1)%Q).
  { apply round32_between; [rewrite Hq; done | lia]. }
  apply (round32_between _ 100); [|lia].
  rewrite (round32_int 100) by lia. change (inject_Z 1) with 1%Q in H1.
  change (inject_Z 100) with 100%Q. lra.
Qed.

(** The [float] rate is within [2^-16] of the exact rate. *)
Lemma pfRate_accuracy (f p : Z) :
  0 <= f <= p -> 0 < p < 2 ^ 24 ->
  exists q, pfRate f p = FNum q /\
    (inject_Z f / inject_Z p * 100 - (1 # 65536) <= q <= inject_Z f / inject_Z p * 100 + (1 # 65536))%Q.
Proof.
  intros Hf Hp. rewrite pfRate_eq by lia. eexists. split; [reflexivity|].
  destruct (quotient_exact f p Hf Hp) as [Hq Hx].
  set (X := (inject_Z f / inject_Z p)%Q) in *.
  set (q1 := round32 (round32 (inject_Z f) / round32 (inject_Z p))).
  assert (H1 : (X - X * (1 # 2 ^ 24) <= q1 <= X + X * (1 # 2 ^ 24))%Q).
  { unfold q1. rewrite <- Hq. apply round32_rel0. rewrite Hq. apply Hx. }
  assert (Hq1 : (0 <= q1)%Q) by (apply round32_nonneg; rewrite Hq; apply Hx).
  assert (Hy : (q1 * round32 (inject_Z 100) == q1 * 100)%Q)
    by (rewrite (round32_int 100) by lia; reflexivity).
  assert (H2 := round32_rel0 (q1 * round32 (inject_Z 100))).
  revert Hy H2. generalize (q1 * round32 (inject_Z 100))%Q. intros y Hy H2.
  specialize (H2 ltac:(lra)). change (1 # 2 ^ 24)%Q with (1 # 16777216)%Q in *. lra.
Qed.

(** ** The rate of a run *)

Section Rate.
Context (alg : PageReplacementAlgorithms) `{PagePolicyLaws alg}.

Lemma PrintValues_simulate (inputQueue : list Z) (totalFrames : nat) :
  PrintValues true (simulate alg inputQueue totalFrames) =
  PrintOk (mkOutputFile (map print_line (simulate alg inputQueue totalFrames))
    (pfRate (Z.of_nat (#[is_fault] (simulate alg inputQueue totalFrames))) (Z.of_nat (length inputQueue)))
    (rate_line (pfRate (Z.of_nat (#[is_fault] (simulate alg inputQueue totalFrames)))
                       (Z.of_nat (length inputQueue))))).
Proof. by rewrite PrintValues_output, length_simulate. Qed.

Lemma faults_le_length (inputQueue : list Z) (totalFrames : nat) :
  0 <= Z.of_nat (#[is_fault] (simulate alg inputQueue totalFrames)) <= Z.of_nat (length inputQueue).
Proof.
  pose proof (countb_le_length is_fault (simulate alg inputQueue totalFrames)) as Hle.
  pose proof (length_simulate alg inputQueue totalFrames). lia.
Qed.

(** C16: For a non-empty trace of fewer than [2^24] references the rate is
    a [float] between 0 and 100, and the hundredths printed by [%.2f] lie
    between 0 and 10000. *)
Theorem simulate_rate_bounds (inputQueue : list Z) (totalFrames : nat) :
  inputQueue <> [] -> Z.of_nat (length inputQueue) < 2 ^ 24 ->
  exists q, PrintValues true (simulate alg inputQueue totalFrames) =
            PrintOk (mkOutputFile (map print_line (simulate alg inputQueue totalFrames))
                                  (FNum q) (rate_line (FNum q)))
    /\ (0 <= q <= 100)%Q /\ 0 <= hundredths q <= 10000.
Proof.
  intros Hne Hlen. rewrite PrintValues_simulate.
  assert (Hpos : (0 < length inputQueue)%nat) by (destruct inputQueue; simpl; [done|lia]).
  destruct (pfRate_bounds _ _ (faults_le_length inputQueue totalFrames) ltac:(lia)) as (q & -> & Hq).
  exists q. split; [reflexivity | split; [done|]].
  apply (hundredths_between q 100). change (inject_Z 100) with 100%Q. done.
Qed.

(** C17: For a non-empty trace of fewer than [2^24] references the rate
    line prints, in hundredths, the exact rate [faults / references * 100]
    to within [1/200 + 2^-16]: the [float] arithmetic costs less than
    [2^-16] on top of the rounding of [%.2f]. *)
Theorem simulate_rate_printed (inputQueue : list Z) (totalFrames : nat) :
  inputQueue <> [] -> Z.of_nat (length inputQueue) < 2 ^ 24 ->
  exists q, PrintValues true (simulate alg inputQueue totalFrames) =
            PrintOk (mkOutputFile (map print_line (simulate alg inputQueue totalFrames))
                                  (FNum q) (rate_line (FNum q)))
    /\ (inject_Z (Z.of_nat (#[is_fault] (simulate alg inputQueue totalFrames)))
          / inject_Z (Z.of_nat (length inputQueue)) * 100 - (1 # 200) - (1 # 65536)
        <= inject_Z (hundredths q) / 100
        <= inject_Z (Z.of_nat (#[is_fault] (simulate alg inputQueue totalFrames)))
             / inject_Z (Z.of_nat (length inputQueue)) * 100 + (1 # 200) + (1 # 65536))%Q.
Proof.
  intros Hne Hlen. rewrite PrintValues_simulate.
  assert (Hpos : (0 < length inputQueue)%nat) by (destruct inputQueue; simpl; [done|lia]).
  destruct (pfRate_accuracy _ _ (faults_le_length inputQueue totalFrames) ltac:(lia))
    as (q & -> & Hq).
  exists q. split; [reflexivity|].
  pose proof (hundredths_half q) as Hh. set (c := inject_Z (hundredths q)) in *.
  revert Hq Hh. generalize (inject_Z (Z.of_nat (#[is_fault] (simulate alg inputQueue totalFrames)))
    / inject_Z (Z.of_nat (length inputQueue)))%Q. intros X Hq Hh.
  assert (E : (c / 100 == c * (1 # 100))%Q) by reflexivity. rewrite E. lra.
Qed.
(** C28: The rate is a NaN exactly when the trace is empty: the code then
    computes [0.0f / 0.0f], prints ["PF Rate : -nan%"] and reports no
    error; every non-empty trace gives a finite rate. *)
Theorem PrintValues_empty_nan (inputQueue : list Z) (totalFrames : nat) :
  exists out, PrintValues true (simulate alg inputQueue totalFrames) = PrintOk out /\
    (inputQueue = [] <-> out.(out_rate) = FNaN true) /\
    (inputQueue = [] -> out.(out_summary) = "PF Rate : -nan%") /\
    (inputQueue <> [] -> exists q, out.(out_rate) = FNum q).
Proof.
  rewrite PrintValues_simulate. eexists. split; [reflexivity|]. simpl.
  destruct inputQueue as [|x l].
  - change (simulate alg [] totalFrames) with (@nil PageRequest). by split_and!.
  - rewrite pfRate_eq by (simpl; lia). split_and!; [done | done | by eexists].
Qed.
End Rate.
