(* ===== verification/Scenarios.v ===== *)
(** * Scenarios: properties of both simulators

    Theorems stated for [SimulateFIFO] and [SimulateLRU] together, from
    the laws [Fifo.v] and [Lru.v] prove of their loop bodies: a reference
    that repeats the one before it hits (each step loads its page); every
    frame array a run reaches is well formed; every distinct page faults
    at least once, and exactly once when the pages fit in the frames;
    with one frame the two policies give the same output.  The witnesses
    of the rate theorems of [Report.v] are here. *)

From S2P Require Import Prelude Types Float32 Frames Policy Fifo Lru Report.
From stdpp Require Import gmap.
From Stdlib Require Import QArith.

Local Open Scope Z_scope.
Local Open Scope page_scope.

(** ** One frame *)

(** The number of distinct pages of a list. *)
Definition distinct_pages (l : list Z) : nat := size (list_to_set l : gset Z).

(** On one frame both loop bodies give the same label and leave the same
    page in the frame. *)
Lemma single_frame_steps (s t : SimNode) x :
  s.(id) = t.(id) ->
  fst (SimulateFIFO_step [s] x) = fst (SimulateLRU_step [t] x) /\
  exists s' t', snd (SimulateFIFO_step [s] x) = [s'] /\
                snd (SimulateLRU_step [t] x) = [t'] /\ s'.(id) = t'.(id).
Proof.
  intros Hst. rewrite SimulateLRU_step_eq. unfold SimulateFIFO_step, lru_update.
  simpl. rewrite <- Hst.
  destruct (Z.eqb_spec (id s) x) as [Hx|Hx]; simpl.
  - split; [done|]. eexists _, _. split_and!; [done|done|]. simpl. by rewrite Hst.
  - split; [done|]. destruct (Z.eqb_spec (id s) FREE) as [Hf|Hf]; simpl.
    + eexists _, _. by split_and!.
    + eexists _, _. by split_and!.
Qed.

(** With one frame, [SimulateFIFO] and [SimulateLRU] produce the same
    output: a reference faults unless it repeats the one before. *)
Lemma single_frame_outputs_agree (inputQueue : list Z) :
  SimulateFIFO inputQueue 1 = SimulateLRU inputQueue 1.
Proof.
  unfold SimulateFIFO, SimulateLRU, simulate.
  change (outputs FIFO (empty_frames 1) inputQueue = outputs LRU (empty_frames 1) inputQueue).
  assert (Hgen : forall s t, s.(id) = t.(id) -> outputs FIFO [s] inputQueue = outputs LRU [t] inputQueue).
  { induction inputQueue as [|x input IH]; intros s t Hst; [done|].
    rewrite (outputs_cons FIFO), (outputs_cons LRU).
    change (policy_step FIFO [s] x) with (SimulateFIFO_step [s] x).
    change (policy_step LRU [t] x) with (SimulateLRU_step [t] x).
    destruct (single_frame_steps s t x Hst) as (_ & s' & t' & -> & -> & Hid).
    simpl. rewrite Hst. f_equal. by apply IH. }
  apply Hgen. done.
Qed.

(** ** At least as many frames as distinct pages *)

Lemma distinct_pages_le (l1 l2 : list Z) :
  (forall y, y ∈ l1 -> y ∈ l2) -> (distinct_pages l1 <= distinct_pages l2)%nat.
Proof.
  intros H. unfold distinct_pages. apply (subseteq_size (C := gset Z)). intros y. rewrite !elem_of_list_to_set. apply H.
Qed.

Lemma distinct_pages_ext (l1 l2 : list Z) :
  (forall y, y ∈ l1 <-> y ∈ l2) -> distinct_pages l1 = distinct_pages l2.
Proof.
  intros H. apply Nat.le_antisymm; apply distinct_pages_le; naive_solver.
Qed.

Lemma distinct_pages_NoDup (l : list Z) : NoDup l -> distinct_pages l = length l.
Proof. unfold distinct_pages. apply (size_list_to_set (C := gset Z)). Qed.

Lemma is_fault_label x label :
  is_fault (NewPageRequest x label) = String.eqb label PF.
Proof. reflexivity. Qed.

(** ** Every page faults on its first reference *)

(** The pages left to reference that are not resident, before and after
    a hit and a fault on [x], when the step adds no resident but [x]. *)
Lemma size_step_hit (x : Z) (I R R' : gset Z) :
  x ∈ R -> R' ⊆ {[x]} ∪ R -> (size (({[x]} ∪ I) ∖ R) <= size (I ∖ R'))%nat.
Proof.
  intros Hx Hsub. apply (subseteq_size (C := gset Z)). intros y.
  rewrite elem_of_difference, elem_of_union, elem_of_singleton, elem_of_difference.
  intros [[->|Hy] Hn]; [contradiction|]. split; [done|]. intros Hr.
  apply Hsub, elem_of_union in Hr as [Hr%elem_of_singleton|Hr]; [subst|]; contradiction.
Qed.

Lemma size_step_fault (x : Z) (I R R' : gset Z) :
  R' ⊆ {[x]} ∪ R -> (size (({[x]} ∪ I) ∖ R) <= S (size (I ∖ R')))%nat.
Proof.
  intros Hsub. transitivity (size ({[x]} ∪ (I ∖ R'))).
  - apply (subseteq_size (C := gset Z)). intros y.
    rewrite elem_of_difference, !elem_of_union, elem_of_singleton, elem_of_difference.
    intros [[->|Hy] Hn]; [by left|]. destruct (decide (y = x)) as [->|Hne]; [by left|].
    right. split; [done|]. intros Hr.
    apply Hsub, elem_of_union in Hr as [Hr%elem_of_singleton|Hr]; contradiction.
  - rewrite size_union_alt, size_singleton.
    assert (Hs : (size (I ∖ R' ∖ {[x]}) <= size (I ∖ R'))%nat).
    { apply (subseteq_size (C := gset Z)). intros y. rewrite !elem_of_difference. tauto. }
    lia.
Qed.

Section FirstReference.
Context (alg : PageReplacementAlgorithms) `{PagePolicyLaws alg}.
(** The step of the policy adds no resident but the page it is given. *)
Hypothesis policy_residents : forall n s x y,
  x <> FREE -> policy_inv n s ->
  y ∈ residents (snd (policy_step alg s x)) -> y = x \/ y ∈ residents s.

Lemma residents_step_subseteq n s x :
  x <> FREE -> policy_inv n s ->
  (list_to_set (residents (snd (policy_step alg s x))) : gset Z)
    ⊆ {[x]} ∪ list_to_set (residents s).
Proof.
  intros Hx Hs y. rewrite elem_of_union, elem_of_singleton, !elem_of_list_to_set.
  by apply (policy_residents n).
Qed.

(** The pages of the rest of the trace that are not resident each fault
    at least once. *)
Lemma outputs_faults_lower (n : nat) (s : list SimNode) (input : list Z) :
  valid_trace input -> policy_inv n s ->
  (size (list_to_set input ∖ list_to_set (residents s) : gset Z)
     <= #[is_fault] (outputs alg s input))%nat.
Proof.
  intros Hv. revert s. induction Hv as [|x input Hx _ IH]; intros s Hs.
  { simpl. assert (He : (size (∅ ∖ (list_to_set (residents s) : gset Z)) <= size (∅ : gset Z))%nat).
    { apply (subseteq_size (C := gset Z)). intros y. rewrite elem_of_difference.
      intros [Hy _]. by apply elem_of_empty in Hy. }
    rewrite size_empty in He. lia. }
  rewrite (outputs_cons alg). simpl countb.
  pose proof (residents_step_subseteq n s x Hx Hs) as Hsub.
  specialize (IH _ (policy_inv_step n s x Hx Hs)).
  assert (HxR : SimContains s x = true -> x ∈ (list_to_set (residents s) : gset Z))
    by (intros Hc; apply elem_of_list_to_set, SimContains_residents; [done | by rewrite Hc]).
  revert Hsub IH HxR.
  generalize (list_to_set (residents (snd (policy_step alg s x))) : gset Z) as R'.
  generalize (list_to_set (residents s) : gset Z) as R. intros R R' Hsub IH HxR.
  simpl list_to_set. destruct (SimContains s x) eqn:Hc; simpl.
  - etrans; [|exact IH]. by apply size_step_hit; [apply HxR|].
  - etrans; [by apply size_step_fault|]. lia.
Qed.

Lemma simulate_faults_lower (n : nat) (input : list Z) :
  (1 <= n)%nat -> valid_trace input ->
  (distinct_pages input <= #[is_fault] (simulate alg input n))%nat.
Proof.
  intros Hn Hv. unfold simulate, distinct_pages.
  change (simulate_loop alg (empty_frames n) input []).1 with (outputs alg (empty_frames n) input).
  etrans; [|apply (outputs_faults_lower n); [done | by apply policy_inv_init]].
  rewrite residents_empty_frames. simpl. apply subseteq_size. set_solver.
Qed.
End FirstReference.

(** ** The two simulators: loading, invariant, first references *)

(** C7: Both simulators load the page of every reference: a reference that
    repeats the reference just before it is a hit, under [SimulateFIFO]
    and [SimulateLRU], whatever came before. *)
Theorem repeated_reference_hits (totalFrames : nat) (pre post : list Z) (x : Z) :
  (1 <= totalFrames)%nat -> valid_trace (pre ++ [x]) ->
  SimulateFIFO (pre ++ x :: x :: post) totalFrames !! S (length pre)
    = Some (NewPageRequest x HIT) /\
  SimulateLRU (pre ++ x :: x :: post) totalFrames !! S (length pre)
    = Some (NewPageRequest x HIT).
Proof.
  intros Hn Hv. split.
  - apply (simulate_repeat_hits FIFO); [exact fifo_step_loads | done | done].
  - apply (simulate_repeat_hits LRU); [exact lru_step_loads | done | done].
Qed.

(** C11: Every frame array [SimulateFIFO] and [SimulateLRU] reach on a
    trace without the id [-1] is well formed: it has [totalFrames]
    slots, its free slots form a suffix, and no page is resident twice. *)
Theorem simulators_frames_wf (totalFrames : nat) (trace : list Z) :
  (1 <= totalFrames)%nat -> valid_trace trace ->
  frames_wf totalFrames (frames_after FIFO (empty_frames totalFrames) trace) /\
  frames_wf totalFrames (frames_after LRU (empty_frames totalFrames) trace).
Proof.
  intros Hn Hv. split; [exact (frames_after_wf FIFO totalFrames trace Hn Hv)|].
  exact (frames_after_wf LRU totalFrames trace Hn Hv).
Qed.

(** C15: Under both simulators every distinct page of a trace without the
    id [-1] faults at least once (on its first reference): the number of
    faults is at least the number of distinct pages, for any number of
    frames. *)
Theorem faults_at_least_distinct (totalFrames : nat) (inputQueue : list Z) :
  (1 <= totalFrames)%nat -> valid_trace inputQueue ->
  (distinct_pages inputQueue <= #[is_fault] (SimulateFIFO inputQueue totalFrames))%nat /\
  (distinct_pages inputQueue <= #[is_fault] (SimulateLRU inputQueue totalFrames))%nat.
Proof.
  intros Hn Hv. split.
  - apply (simulate_faults_lower FIFO); [exact fifo_step_residents | done | done].
  - apply (simulate_faults_lower LRU); [exact lru_step_residents | done | done].
Qed.

(** The abstract FIFO queue never evicts when the pages of the queue and
    of the rest of the trace fit: it faults once per new page. *)
Lemma fifo_spec_faults n (q t : list Z) :
  NoDup q -> (distinct_pages (q ++ t) <= n)%nat ->
  #[is_fault] (FifoSpec.run n q t) = (distinct_pages (q ++ t) - length q)%nat.
Proof.
  revert q. induction t as [|x t IH]; intros q Hnd Hd; simpl.
  - rewrite app_nil_r, distinct_pages_NoDup by done. lia.
  - unfold FifoSpec.step. destruct (bool_decide_reflect (x ∈ q)) as [Hin|Hnin]; simpl.
    + assert (Heq : distinct_pages (q ++ x :: t) = distinct_pages (q ++ t))
        by (apply distinct_pages_ext; set_solver).
      rewrite IH, Heq; [done | done | by rewrite <- Heq].
    + assert (Hq : (length q + 1 <= distinct_pages (q ++ x :: t))%nat).
      { replace (length q + 1)%nat with (length (q ++ [x])) by (rewrite length_app; simpl; lia).
        rewrite <- distinct_pages_NoDup by auto with page.
        apply distinct_pages_le. set_solver. }
      rewrite bool_decide_eq_true_2 by lia. simpl.
      rewrite IH; rewrite <- ?app_assoc; [|auto with page|done].
      rewrite length_app. simpl. lia.
Qed.

(** C22: With at least as many frames as distinct pages, [SimulateFIFO] faults
    exactly once per distinct page and never evicts. *)
Theorem SimulateFIFO_distinct_faults (totalFrames : nat) (inputQueue : list Z) :
  (1 <= totalFrames)%nat -> valid_trace inputQueue ->
  (distinct_pages inputQueue <= totalFrames)%nat ->
  #[is_fault] (SimulateFIFO inputQueue totalFrames) = distinct_pages inputQueue.
Proof.
  intros Hn Hv Hd. unfold SimulateFIFO, simulate.
  change (#[is_fault] (outputs FIFO (empty_frames totalFrames) inputQueue) = distinct_pages inputQueue).
  rewrite (fifo_outputs_refine totalFrames), residents_empty_frames by auto with page.
  rewrite fifo_spec_faults; [simpl; lia | constructor | done].
Qed.

(** The frequency policy likewise never evicts when the pages fit. *)
Lemma freq_run_faults n (m : list (Z * Z)) (t : list Z) (out : list PageRequest) :
  FreqSpec.run n m t out -> NoDup (map fst m) ->
  (distinct_pages (map fst m ++ t) <= n)%nat ->
  #[is_fault] out = (distinct_pages (map fst m ++ t) - length m)%nat.
Proof.
  induction 1 as [m|m x label m' rest out Hs _ IH]; intros Hnd Hd.
  - rewrite app_nil_r, distinct_pages_NoDup by done. rewrite length_map. simpl. lia.
  - simpl. rewrite is_fault_label.
    destruct Hs as [m m'' x c Hm|m x Hx Hlen|m m'' x y c Hx Hlen Hm Hmin].
    + pose proof (Permutation_map fst Hm) as Hk. simpl in Hk.
      assert (Heq : distinct_pages (map fst m ++ x :: rest)
                    = distinct_pages (map fst ((x, c + 1) :: m'') ++ rest)).
      { apply distinct_pages_ext. intros y. rewrite !elem_of_app, Hk. set_solver. }
      rewrite IH, Heq.
      * rewrite (Permutation_length Hm). done.
      * simpl. rewrite <- Hk. done.
      * by rewrite <- Heq.
    + assert (Heq : distinct_pages (map fst m ++ x :: rest)
                    = distinct_pages (map fst ((x, 0) :: m) ++ rest))
        by (apply distinct_pages_ext; set_solver).
      assert (Hq : (length m + 1 <= distinct_pages (map fst m ++ x :: rest))%nat).
      { replace (length m + 1)%nat with (length (map fst m ++ [x]))
          by (rewrite length_app, length_map; simpl; lia).
        rewrite <- distinct_pages_NoDup by auto with page.
        apply distinct_pages_le. set_solver. }
      rewrite IH, Heq.
      * simpl. rewrite Heq in Hq. simpl in Hq. lia.
      * simpl. by apply NoDup_cons.
      * by rewrite <- Heq.
    + exfalso.
      assert (Hq : (length m + 1 <= distinct_pages (map fst m ++ x :: rest))%nat).
      { replace (length m + 1)%nat with (length (map fst m ++ [x]))
          by (rewrite length_app, length_map; simpl; lia).
        rewrite <- distinct_pages_NoDup by auto with page.
        apply distinct_pages_le. set_solver. }
      lia.
Qed.

(** C23: With at least as many frames as distinct pages, [SimulateLRU] faults
    exactly once per distinct page and never evicts. *)
Theorem SimulateLRU_distinct_faults (totalFrames : nat) (inputQueue : list Z) :
  (1 <= totalFrames)%nat -> valid_trace inputQueue ->
  (distinct_pages inputQueue <= totalFrames)%nat ->
  #[is_fault] (SimulateLRU inputQueue totalFrames) = distinct_pages inputQueue.
Proof.
  intros Hn Hv Hd.
  rewrite (freq_run_faults totalFrames [] inputQueue); [simpl; lia | | constructor | done].
  replace [] with (entries (empty_frames totalFrames))
    by (unfold entries; by rewrite forallb_free_occupied by apply empty_frames_free).
  by apply lru_outputs_refine, lru_inv_init.
Qed.

(** ** Witnesses *)

Lemma simulate_rate_bounds_witness :
  exists q, PrintValues true (simulate FIFO [1; 2; 1] 2) =
            PrintOk (mkOutputFile (map print_line (simulate FIFO [1; 2; 1] 2))
                                  (FNum q) (rate_line (FNum q)))
    /\ (0 <= q <= 100)%Q /\ 0 <= hundredths q <= 10000.
Proof. apply (simulate_rate_bounds FIFO); [discriminate | simpl; lia]. Defined.

Lemma simulate_rate_printed_witness :
  exists q, PrintValues true (simulate FIFO [1; 2; 1] 2) =
            PrintOk (mkOutputFile (map print_line (simulate FIFO [1; 2; 1] 2))
                                  (FNum q) (rate_line (FNum q)))
    /\ (inject_Z (Z.of_nat (#[is_fault] (simulate FIFO [1%Z; 2%Z; 1%Z] 2)))
          / inject_Z (Z.of_nat (length [1%Z; 2%Z; 1%Z])) * 100 - (1 # 200) - (1 # 65536)
        <= inject_Z (hundredths q) / 100
        <= inject_Z (Z.of_nat (#[is_fault] (simulate FIFO [1%Z; 2%Z; 1%Z] 2)))
             / inject_Z (Z.of_nat (length [1%Z; 2%Z; 1%Z])) * 100 + (1 # 200) + (1 # 65536))%Q.
Proof. apply (simulate_rate_printed FIFO); [discriminate | simpl; lia]. Defined.

Lemma repeated_reference_hits_witness :
  SimulateFIFO ([1; 2] ++ 3 :: 3 :: [4]) 2 !! S (length [1; 2]) = Some (NewPageRequest 3 HIT) /\
  SimulateLRU ([1; 2] ++ 3 :: 3 :: [4]) 2 !! S (length [1; 2]) = Some (NewPageRequest 3 HIT).
Proof. apply repeated_reference_hits; [lia | repeat constructor; unfold FREE; lia]. Defined.

Lemma simulators_frames_wf_witness :
  frames_wf 2 (frames_after FIFO (empty_frames 2) [7; 9; 7; 5]) /\
  frames_wf 2 (frames_after LRU (empty_frames 2) [7; 9; 7; 5]).
Proof. apply simulators_frames_wf; [lia | repeat constructor; unfold FREE; lia]. Defined.

Lemma faults_at_least_distinct_witness :
  (distinct_pages [1%Z; 2%Z; 1%Z; 3%Z] <= #[is_fault] (SimulateFIFO [1%Z; 2%Z; 1%Z; 3%Z] 1))%nat /\
  (distinct_pages [1%Z; 2%Z; 1%Z; 3%Z] <= #[is_fault] (SimulateLRU [1%Z; 2%Z; 1%Z; 3%Z] 1))%nat.
Proof. apply faults_at_least_distinct; [lia | repeat constructor; unfold FREE; lia]. Defined.

Lemma SimulateFIFO_distinct_faults_witness :
  #[is_fault] (SimulateFIFO [1; 2; 1; 3; 2] 3) = distinct_pages [1; 2; 1; 3; 2].
Proof.
  apply SimulateFIFO_distinct_faults.
  - lia.
  - repeat constructor; unfold FREE; lia.
  - vm_compute. lia.
Defined.

Lemma SimulateLRU_distinct_faults_witness :
  #[is_fault] (SimulateLRU [1; 2; 1; 3; 2] 3) = distinct_pages [1; 2; 1; 3; 2].
Proof.
  apply SimulateLRU_distinct_faults.
  - lia.
  - repeat constructor; unfold FREE; lia.
  - vm_compute. lia.
Defined.
