(* ===== verification/Main.v ===== *)
(** * Main: [main] and the simulators as the program runs them on the heap

    [main] (lines 53-79) validates the command line, copies the two file
    names into buffers of 50 bytes with [strcpy], reads the trace with
    [ReadFileData] and calls [SimulateFIFO] or [SimulateLRU].  Each
    simulator (lines 237-279 and 281-327) sets up its frame array, runs
    the loop of [Driver] on the input queue, prints the output queue with
    [PrintValues] and frees it with [FreeQueue].

    The model composes the components: [SimulateHeap] is a simulator as a
    whole on the heap of [Queue], with fuel the number of nodes of the
    heap; [main] takes the command line, the files the program can read
    (by name, [None] where [fopen] fails) and the names it can write.  A
    file name of 50 characters or more overflows its buffer, which the
    model reports as [MainOverflow] rather than giving it a meaning.

    Theorems: [main] on an accepted command line and a readable file
    writes the report of the list-level simulator on the integers of the
    file, and frees every node it allocated ([main_refines]); a file name
    of 50 characters or more overflows its buffer
    ([main_long_name_overflows]); and with one frame the [switch] may
    call either simulator ([single_frame_policies_agree]). *)

From stdpp Require Import gmap.
From S2P Require Import Prelude Types Float32 Queue Input Cli Frames Policy Driver Fifo Lru Report Scenarios.
From Stdlib Require Import QArith.

Local Open Scope Z_scope.

(** [SimulateFIFO] or [SimulateLRU] on the heap: the frame array of
    [totalFrames] free slots, the loop, [PrintValues] ([opened] is whether
    the output file opens) and [FreeQueue(outputQueue)]; [PrintValues]
    exits without freeing when the file does not open. *)
Definition SimulateHeap (alg : PageReplacementAlgorithms) `{PagePolicy alg}
    (h : gmap loc Node) (inputQueue : Queue) (totalFrames : Z) (opened : bool)
    : PrintResult * gmap loc Node :=
  let '(h1, outputQueue, _) :=
    simulate_heap (size h) alg h inputQueue NewQueue (empty_frames (Z.to_nat totalFrames)) in
  match PrintValues opened (items h1 (queue_walk (size h1) h1 outputQueue.(head))) with
  | PrintExit => (PrintExit, h1)
  | PrintOk out => (PrintOk out, FreeQueue (size h1) h1 outputQueue.(head))
  end.

(** How a run of the program ends. *)
Inductive MainOutcome :=
  | MainExit                     (** [printf("Exiting..."); exit(0)] *)
  | MainOverflow                 (** [strcpy] past the end of a file-name buffer *)
  | MainSimulated (result : PrintResult) (heap : gmap loc Node)
  | MainReturn (heap : gmap loc Node).  (** the [switch] takes no case *)

(** The size of the buffers [inputFileName] and [outputFileName]. *)
Definition FILE_NAME_BUFFER : nat := 50.

Definition main (argv : list string) (readable : string -> option string)
    (writable : string -> bool) : MainOutcome :=
  let cli := CheckAndInitialiseInput argv in
  if negb cli.(cli_ok) then MainExit
  else
    let inputFileName := nth 3 cli.(cli_argv) EmptyString in
    let outputFileName := nth 4 cli.(cli_argv) EmptyString in
    if (FILE_NAME_BUFFER <=? String.length inputFileName)%nat
       || (FILE_NAME_BUFFER <=? String.length outputFileName)%nat then MainOverflow
    else
      match ReadFileData (readable inputFileName) ∅ with
      | None => MainExit
      | Some (h, inputQueue) =>
          let frames := default 0 cli.(totalFrames) in
          match cli.(algorithmToCall) with
          | Some FIFO =>
              let '(r, h') := SimulateHeap FIFO h inputQueue frames (writable outputFileName) in
              MainSimulated r h'
          | Some LRU =>
              let '(r, h') := SimulateHeap LRU h inputQueue frames (writable outputFileName) in
              MainSimulated r h'
          | None => MainReturn h
          end
      end.

(** The simulator the [switch] of lines 69-76 selects, on lists. *)
Definition simulator (alg : PageReplacementAlgorithms) : list Z -> nat -> list PageRequest :=
  match alg with
  | FIFO => SimulateFIFO
  | LRU => SimulateLRU
  end.

Definition demo_readable (name : string) : option string :=
  if String.eqb name "trace.txt" then Some "1 2 1" else None.

Section Simulator.
Context (alg : PageReplacementAlgorithms) `{PagePolicyLaws alg}.

(** A simulator run on a heap holding just the input queue prints the
    report of [simulate] on the queue's page ids, and when the report is
    written leaves no node allocated. *)
Lemma SimulateHeap_spec (h : gmap loc Node) inputQueue ls (totalFrames : Z) (opened : bool) :
  queue_repr h inputQueue ls -> dom h = list_to_set ls ->
  exists h',
    SimulateHeap alg h inputQueue totalFrames opened =
      (PrintValues opened (simulate alg (page_ids h ls) (Z.to_nat totalFrames)), h') /\
    (opened = true -> h' = ∅).
Proof.
  intros (Hc & Ht & Hnd) Hdom.
  destruct (simulate_heap_run alg (size h) h inputQueue NewQueue ls []
              (empty_frames (Z.to_nat totalFrames)))
    as (h1 & oq & Hrun & (Hc1 & _ & Hnd1) & Hit);
    [done | done | apply NewQueue_repr | set_solver | by apply (chain_length_size h _ _ Hc) |].
  simpl in Hc1, Hnd1, Hit.
  assert (Hdom1 : dom h1 = dom h).
  { rewrite <- (simulate_heap_dom alg (size h) h inputQueue NewQueue
                  (empty_frames (Z.to_nat totalFrames))), Hrun. done. }
  unfold SimulateHeap. rewrite Hrun.
  rewrite (queue_walk_chain _ h1 _ ls Hc1) by (by apply (chain_length_size h1 _ _ Hc1)).
  rewrite Hit. fold (simulate alg (page_ids h ls) (Z.to_nat totalFrames)).
  destruct opened.
  - unfold PrintValues. simpl. destruct (print_loop _ 0 0 []) as [[f p] lines].
    eexists. split; [reflexivity|]. intros _. apply map_eq. intros l.
    rewrite lookup_empty, (FreeQueue_chain _ h1 _ ls Hc1 Hnd1)
      by (by apply (chain_length_size h1 _ _ Hc1)).
    case_decide as Hl; [done|]. apply not_elem_of_dom. rewrite Hdom1, Hdom. set_solver.
  - eexists. split; [reflexivity | done].
Qed.
End Simulator.

(** [ReadFileData] on an empty heap allocates just the nodes of the queue
    it returns, and their page ids are the integers of the text. *)
Lemma ReadFileData_fresh (s : string) :
  exists h inputQueue ls,
    ReadFileData (Some s) ∅ = Some (h, inputQueue) /\
    queue_repr h inputQueue ls /\ dom h = list_to_set ls /\ page_ids h ls = all_ints s.
Proof.
  destruct (ReadFileData_loop_spec (S (String.length s)) s ∅ NewQueue [])
    as (ls & Hq & Hi & Hd); [apply NewQueue_repr | lia |].
  unfold ReadFileData. destruct (ReadFileData_loop _ s ∅ NewQueue) as [h q].
  simpl in Hq, Hi, Hd. exists h, q, ls. split_and!; [done | done | set_solver |].
  unfold page_ids. rewrite Hi, map_map. apply map_id.
Qed.

(** The run of [SimulateHeap] for the policy [main] selects. *)
Lemma SimulateHeap_selected (alg : PageReplacementAlgorithms) (h : gmap loc Node)
    inputQueue ls (totalFrames : Z) (opened : bool) :
  queue_repr h inputQueue ls -> dom h = list_to_set ls ->
  exists h',
    (match alg with
     | FIFO => SimulateHeap FIFO h inputQueue totalFrames opened
     | LRU => SimulateHeap LRU h inputQueue totalFrames opened
     end) = (PrintValues opened (simulator alg (page_ids h ls) (Z.to_nat totalFrames)), h') /\
    (opened = true -> h' = ∅).
Proof. destruct alg; apply SimulateHeap_spec; apply _. Qed.

(** C3: [main] on a command line [CheckAndInitialiseInput] accepts, with
    file names that fit their buffers and an input file it can read,
    prints the report [PrintValues] makes of the list-level simulator of
    the chosen policy on the integers of the file, and when the output
    file opens frees every node it allocated. *)
Theorem main_refines (argv : list string) (readable : string -> option string)
    (writable : string -> bool) (s : string) :
  (CheckAndInitialiseInput argv).(cli_ok) = true ->
  (String.length (nth 3 argv EmptyString) < FILE_NAME_BUFFER)%nat ->
  (String.length (nth 4 argv EmptyString) < FILE_NAME_BUFFER)%nat ->
  readable (nth 3 argv EmptyString) = Some s ->
  exists alg h',
    policy_of_name (lower (nth 1 argv EmptyString)) = Some alg /\
    main argv readable writable =
      MainSimulated
        (PrintValues (writable (nth 4 argv EmptyString))
           (simulator alg (all_ints s) (Z.to_nat (atoi (nth 2 argv EmptyString))))) h' /\
    (writable (nth 4 argv EmptyString) = true -> h' = ∅).
Proof.
  intros Hok Hin Hout Hs.
  destruct (CheckAndInitialiseInput_accepted argv Hok) as (Hl & Hn & [alg Halg] & Hcli).
  destruct (ReadFileData_fresh s) as (h & iq & ls & Hrd & Hq & Hd & Hids).
  destruct (SimulateHeap_selected alg h iq ls (atoi (nth 2 argv EmptyString))
              (writable (nth 4 argv EmptyString)) Hq Hd) as (h' & Hrun & Hfree).
  exists alg, h'. split; [done|]. rewrite <- Hids.
  unfold main. rewrite Hcli. cbn [cli_ok cli_argv totalFrames algorithmToCall negb].
  rewrite !nth_insert_ne by lia.
  rewrite (proj2 (Nat.leb_gt _ _) Hin), (proj2 (Nat.leb_gt _ _) Hout). simpl.
  rewrite Hs, Hrd, Halg. split; [|done].
  destruct alg; simpl in Hrun; by rewrite Hrun.
Qed.

(** C25: a file name of [FILE_NAME_BUFFER] characters or more, on a
    command line [CheckAndInitialiseInput] accepts, reaches the [strcpy]
    of lines 62-63 and overflows its buffer, before any file is opened. *)
Theorem main_long_name_overflows (argv : list string) (readable : string -> option string)
    (writable : string -> bool) :
  (CheckAndInitialiseInput argv).(cli_ok) = true ->
  (FILE_NAME_BUFFER <= String.length (nth 3 argv EmptyString))%nat \/
  (FILE_NAME_BUFFER <= String.length (nth 4 argv EmptyString))%nat ->
  main argv readable writable = MainOverflow.
Proof.
  intros Hok Hlong. destruct (CheckAndInitialiseInput_accepted argv Hok) as (_ & _ & _ & Hcli).
  unfold main. rewrite Hcli. cbn [cli_ok cli_argv negb]. rewrite !nth_insert_ne by lia.
  destruct Hlong as [Hlong|Hlong]; apply Nat.leb_le in Hlong; rewrite Hlong; [done|].
  by rewrite orb_true_r.
Qed.

(** C21: with one frame the [switch] of [main] may call either simulator:
    both give the same output on every trace. *)
Theorem single_frame_policies_agree (alg alg' : PageReplacementAlgorithms) (inputQueue : list Z) :
  simulator alg inputQueue 1 = simulator alg' inputQueue 1.
Proof.
  pose proof (single_frame_outputs_agree inputQueue) as Hagree.
  destruct alg, alg'; simpl; congruence.
Qed.

(** ** Witnesses *)

Lemma main_refines_witness :
  exists alg h',
    policy_of_name (lower "FIFO") = Some alg /\
    main ["sim"; "FIFO"; "2"; "trace.txt"; "out.txt"] demo_readable (fun _ => true) =
      MainSimulated (PrintValues true (simulator alg (all_ints "1 2 1") (Z.to_nat (atoi "2")))) h' /\
    (true = true -> h' = ∅).
Proof.
  apply (main_refines ["sim"; "FIFO"; "2"; "trace.txt"; "out.txt"] demo_readable (fun _ => true));
    [reflexivity | apply Nat.ltb_lt; reflexivity | apply Nat.ltb_lt; reflexivity | reflexivity].
Defined.

Lemma main_long_name_overflows_witness :
  main ["sim"; "lru"; "3"; "a_very_long_name_for_an_input_trace_file_of_pages.txt"; "out.txt"]
    demo_readable (fun _ => true) = MainOverflow.
Proof.
  apply main_long_name_overflows; [reflexivity | left; apply Nat.leb_le; reflexivity].
Defined.

Lemma simulate_heap_refines_witness :
  exists h' outputQueue,
    simulate_heap (size demo_heap) FIFO demo_heap demo_queue NewQueue (empty_frames 2) =
      (h', outputQueue, frames_after FIFO (empty_frames 2) (page_ids demo_heap [1%positive; 2%positive])) /\
    queue_repr h' outputQueue [1%positive; 2%positive] /\
    items h' [1%positive; 2%positive]
    = outputs FIFO (empty_frames 2) (page_ids demo_heap [1%positive; 2%positive]).
Proof. apply (simulate_heap_refines FIFO). apply queue_reprb_sound. vm_compute. reflexivity. Defined.

Lemma CheckAndInitialiseInput_sound_witness :
  exists alg n,
    length ["sim"; "Lru"; "4"; "in"; "out"] = 5%nat /\
    policy_of_name (lower (nth 1 ["sim"; "Lru"; "4"; "in"; "out"] EmptyString)) = Some alg /\
    n = atoi (nth 2 ["sim"; "Lru"; "4"; "in"; "out"] EmptyString) /\ 1 <= n /\
    (CheckAndInitialiseInput ["sim"; "Lru"; "4"; "in"; "out"]).(algorithmToCall) = Some alg /\
    (CheckAndInitialiseInput ["sim"; "Lru"; "4"; "in"; "out"]).(totalFrames) = Some n /\
    nth 3 (CheckAndInitialiseInput ["sim"; "Lru"; "4"; "in"; "out"]).(cli_argv) EmptyString
      = nth 3 ["sim"; "Lru"; "4"; "in"; "out"] EmptyString /\
    nth 4 (CheckAndInitialiseInput ["sim"; "Lru"; "4"; "in"; "out"]).(cli_argv) EmptyString
      = nth 4 ["sim"; "Lru"; "4"; "in"; "out"] EmptyString.
Proof. apply CheckAndInitialiseInput_sound. reflexivity. Defined.

Lemma heap_loop_eventually_exits_witness :
  eventually FIFO (fun st => IsQueueEmpty st.(hs_input) = true /\ heap_iter FIFO st = None)
    (mkHeapState demo_heap demo_queue NewQueue (empty_frames 2)).
Proof.
  apply (heap_loop_eventually_exits FIFO demo_heap demo_queue NewQueue
           [1%positive; 2%positive] []).
  - apply chainb_sound. vm_compute. reflexivity.
  - repeat constructor; set_solver.
  - apply NewQueue_repr.
  - set_solver.
Defined.
